(** * Verification of the poke pipeline, connection loop, connect handler and
      CVR row bookkeeping

    Shallow embedding of
    - [packages/zero-client/src/client/keys.ts]           (module [Keys]),
    - [packages/zero-client/src/client/context.ts]        (module [Pokes]),
    - [packages/replicache/src/connection-loop.ts]        (module [ConnLoop]),
    - the reflect-server connect handler [handleConnection] (module [Connect]),
    - the view-syncer CVR updaters, whose test-suite is part of the sources
      (module [CVR]),
    - [ZeroContext] of context.ts                          (module [Context]),
    - [restoreReplica] of the litestream service           (module [Litestream]).

    Thrown exceptions are values of a small error monad; mutable objects are
    threaded explicitly as state. *)

From Stdlib Require Import ZArith List String Ascii Bool QArith Lia.
From stdpp Require Import base option gmap strings list pretty.

Local Open Scope Z_scope.
Local Open Scope string_scope.
Local Open Scope list_scope.

(** ** Exceptions as values *)

Inductive result (E A : Type) : Type :=
| Ok (a : A)
| Throw (e : E).
Arguments Ok {E A} a.
Arguments Throw {E A} e.

Definition rbind {E A B} (r : result E A) (k : A → result E B) : result E B :=
  match r with
  | Ok a => k a
  | Throw e => Throw e
  end.

Notation "x ←! r ; k" := (rbind r (fun x => k))
  (at level 20, r at level 100, k at level 200, right associativity,
   format "x  ←!  r ;  '/' k").
Notation "' p ←! r ; k" := (rbind r (fun x => let 'p := x in k))
  (at level 20, p pattern, r at level 100, k at level 200,
   right associativity).

(** [xs.map(f)] where [f] may throw: elements are visited left to right and the
    first exception aborts the whole map. *)
Fixpoint mapM {E A B} (f : A → result E B) (xs : list A) : result E (list B) :=
  match xs with
  | [] => Ok []
  | x :: xs' =>
      y ←! f x;
      ys ←! mapM f xs';
      Ok (y :: ys)
  end.

Definition isOk {E A} (r : result E A) : bool :=
  match r with Ok _ => true | Throw _ => false end.

(** ** Lexicographic order on version strings

    Cookies, state versions and row versions are strings compared with the
    JavaScript relational operators, i.e. code unit by code unit. *)

Definition str_gt (a b : string) : bool := String.ltb b a.
Definition str_le (a b : string) : bool := negb (str_gt a b).

(** ** keys.ts *)

Module Keys.

Definition CLIENTS_KEY_PREFIX := "c/".
Definition DESIRED_QUERIES_KEY_PREFIX := "d/".
Definition GOT_QUERIES_KEY_PREFIX := "g/".
Definition ENTITIES_KEY_PREFIX := "e/".

Definition toClientsKey (clientID : string) : string :=
  CLIENTS_KEY_PREFIX +:+ clientID.

Definition toDesiredQueriesKey (clientID hash : string) : string :=
  DESIRED_QUERIES_KEY_PREFIX +:+ clientID +:+ "/" +:+ hash.

Definition desiredQueriesPrefixForClient (clientID : string) : string :=
  DESIRED_QUERIES_KEY_PREFIX +:+ clientID +:+ "/".

Definition toGotQueriesKey (hash : string) : string :=
  GOT_QUERIES_KEY_PREFIX +:+ hash.

(** The double quote character, written by code point. *)
Definition dquote : string := String (ascii_of_nat 34) "".

Definition hexDigit (n : N) : string :=
  String (match n with
          | 0 => "0" | 1 => "1" | 2 => "2" | 3 => "3" | 4 => "4" | 5 => "5"
          | 6 => "6" | 7 => "7" | 8 => "8" | 9 => "9" | 10 => "a"
          | 11 => "b" | 12 => "c" | 13 => "d" | 14 => "e" | _ => "f"
          end%N)%char "".

(** [JSON.stringify] on one code unit of a string. *)
Definition JSON_escape (c : ascii) : string :=
  let n := N_of_ascii c in
  if (n =? 34)%N then "\" +:+ dquote
  else if (n =? 92)%N then "\\"
  else if (n =? 8)%N then "\b"
  else if (n =? 9)%N then "\t"
  else if (n =? 10)%N then "\n"
  else if (n =? 12)%N then "\f"
  else if (n =? 13)%N then "\r"
  else if (n <? 32)%N then "\u00" +:+ hexDigit (n / 16) +:+ hexDigit (n mod 16)
  else String c "".

Fixpoint JSON_escape_all (s : string) : string :=
  match s with
  | EmptyString => ""
  | String c s' => JSON_escape c +:+ JSON_escape_all s'
  end.

Definition JSON_quote (s : string) : string :=
  dquote +:+ JSON_escape_all s +:+ dquote.

Definition join_comma (xs : list string) : string :=
  match xs with
  | [] => ""
  | x :: xs' => fold_left (fun acc y => acc +:+ "," +:+ y) xs' x
  end.

Inductive KeyError : Type :=
| InvalidPrimaryKeyValue (column : string).

Section WithNumbers.

(** JavaScript numbers are kept abstract: only their two renderings are
    used, string conversion (in [+]) and [JSON.stringify]. *)
Context {number : Type}.
Variable Number_toString : number → string.
Variable JSON_stringify_number : number → string.

(** [h128] is imported from shared/src/hash.js. *)
Variable h128 : string → string.

(** Column values of a [Row]. *)
Inductive Value : Type :=
| VNull
| VBool (b : bool)
| VNumber (n : number)
| VString (s : string)
| VJSON (json : string).

(** Modelled from the spec: [primaryKeyValueSchema] of
    zero-protocol/src/primary-key.ts is imported by keys.ts but is not part
    of the sources; a primary-key value is a primitive string, number or
    boolean. *)
Inductive PrimaryKeyValue : Type :=
| PKString (s : string)
| PKNumber (n : number)
| PKBool (b : bool).

(** [v.parse(value[k], primaryKeyValueSchema)]; a missing property reads as
    [undefined] and is refused like any other non-primitive. *)
Definition parsePrimaryKeyValue (k : string) (v : option Value)
  : result KeyError PrimaryKeyValue :=
  match v with
  | Some (VString s) => Ok (PKString s)
  | Some (VNumber n) => Ok (PKNumber n)
  | Some (VBool b) => Ok (PKBool b)
  | _ => Throw (InvalidPrimaryKeyValue k)
  end.

(** Conversion applied by [string + value]. *)
Definition primitiveString (v : PrimaryKeyValue) : string :=
  match v with
  | PKString s => s
  | PKNumber n => Number_toString n
  | PKBool true => "true"
  | PKBool false => "false"
  end.

Definition JSON_stringify_value (v : PrimaryKeyValue) : string :=
  match v with
  | PKString s => JSON_quote s
  | PKNumber n => JSON_stringify_number n
  | PKBool true => "true"
  | PKBool false => "false"
  end.

(** [JSON.stringify] of an array of primary-key values. *)
Definition JSON_stringify (vs : list PrimaryKeyValue) : string :=
  "[" +:+ join_comma (map JSON_stringify_value vs) +:+ "]".

Definition toPrimaryKeyString
    (tableName : string) (primaryKey : list string)
    (value : gmap string Value) : result KeyError string :=
  match primaryKey with
  | [k] =>
      v ←! parsePrimaryKeyValue k (value !! k);
      Ok (ENTITIES_KEY_PREFIX +:+ tableName +:+ "/" +:+ primitiveString v)
  | _ =>
      values ←! mapM (fun k => parsePrimaryKeyValue k (value !! k)) primaryKey;
      let str := JSON_stringify values in
      let idSegment := h128 str in
      Ok (ENTITIES_KEY_PREFIX +:+ tableName +:+ "/" +:+ idSegment)
  end.

End WithNumbers.

Arguments Value : clear implicits.
Arguments PrimaryKeyValue : clear implicits.

(** *** Notions used to state further properties of the keys *)

(** The string contains the separator ['/']. *)
Fixpoint includesSlash (s : string) : bool :=
  match s with
  | EmptyString => false
  | String c s' => Ascii.eqb c "/" || includesSlash s'
  end.

(** The column holds a value that [v.parse(_, primaryKeyValueSchema)]
    accepts. *)
Definition isPrimaryKeyValue {number} (v : option (Value number)) : bool :=
  match v with
  | Some (VString _) | Some (VNumber _) | Some (VBool _) => true
  | _ => false
  end.

End Keys.

(** ** context.ts: [PokeHandler] and [mergePokes] *)

Module Pokes.
Import Keys.

(** *** Wire types (zero-protocol) and Replicache patch operations *)

Record PokeStartBody : Type := {
  pokeID : string;
  baseCookie : option string;   (* [null] before the first poke *)
  cookie : string;
}.

Record PokeEndBody : Type := {
  end_pokeID : string;
  cancel : bool;
}.

Inductive ClientsPatchOp : Type :=
| ClientsPut (clientID : string)
| ClientsDel (clientID : string)
| ClientsClear.

Record TableSchema : Type := {
  primaryKey : list string;
}.

Record Schema : Type := {
  tables : gmap string TableSchema;
}.

Section WithTypes.

Context {number AST : Type}.
Variable Number_toString : number → string.
Variable JSON_stringify_number : number → string.
Variable h128 : string → string.

Abbreviation Row := (gmap string (Value number)).

Inductive QueriesPatchOp : Type :=
| QueriesPut (hash : string) (ast : AST)
| QueriesDel (hash : string)
| QueriesClear.

Inductive RowPatchOp : Type :=
| RowPut (tableName : string) (value : Row)
| RowDel (tableName : string) (id : Row)
| RowUpdate (tableName : string) (id : Row)
    (merge : option Row) (constrain : option (list string))
| RowClear.

(** Values stored by a [put]: [true] for clients, the AST for queries, the
    row for entities. *)
Inductive PatchValue : Type :=
| ValTrue
| ValAST (ast : AST)
| ValRow (row : Row).

Inductive PatchOperationInternal : Type :=
| OpPut (key : string) (value : PatchValue)
| OpDel (key : string)
| OpUpdate (key : string) (merge : option Row) (constrain : option (list string))
| OpClear.

(** Optional members are [None] when the property is absent.  The object
    [desiredQueriesPatches] is kept as its [Object.entries] list, since the
    order of the entries decides the order of the merged patch. *)
Record PokePartBody : Type := {
  part_pokeID : string;
  lastMutationIDChanges : option (gmap string Z);
  clientsPatch : option (list ClientsPatchOp);
  desiredQueriesPatches : option (list (string * list QueriesPatchOp));
  gotQueriesPatch : option (list QueriesPatchOp);
  rowsPatch : option (list RowPatchOp);
}.

Record PokeAccumulator : Type := {
  pokeStart : PokeStartBody;
  parts : list PokePartBody;
}.

Record PullResponse : Type := {
  pr_lastMutationIDChanges : gmap string Z;
  pr_patch : list PatchOperationInternal;
  pr_cookie : string;
}.

Record PokeInternal : Type := {
  pi_baseCookie : option string;
  pullResponse : PullResponse;
}.

Inductive MergeError : Type :=
| CookieGap (prev cur : PokeStartBody)       (* Error('unexpected cookie gap ...') *)
| NoSuchTable (tableName : string)           (* [schema.tables[t]] is undefined *)
| BadKey (e : KeyError).                     (* [v.parse] refused a key value *)

(** *** Conversions to Replicache patch operations *)

Definition clientsPatchOpToReplicachePatchOp (op : ClientsPatchOp)
  : PatchOperationInternal :=
  match op with
  | ClientsClear => OpClear
  | ClientsDel clientID => OpDel (toClientsKey clientID)
  | ClientsPut clientID => OpPut (toClientsKey clientID) ValTrue
  end.

Definition queryPatchOpToReplicachePatchOp
    (op : QueriesPatchOp) (toKey : string → string) : PatchOperationInternal :=
  match op with
  | QueriesClear => OpClear
  | QueriesDel hash => OpDel (toKey hash)
  | QueriesPut hash ast => OpPut (toKey hash) (ValAST ast)
  end.

(** [toPrimaryKeyString(t, schema.tables[t].primaryKey, row)]. *)
Definition rowKey (schema : Schema) (tableName : string) (row : Row)
  : result MergeError string :=
  match tables schema !! tableName with
  | None => Throw (NoSuchTable tableName)
  | Some t =>
      match toPrimaryKeyString Number_toString JSON_stringify_number h128
              tableName (primaryKey t) row with
      | Ok k => Ok k
      | Throw e => Throw (BadKey e)
      end
  end.

Definition rowsPatchOpToReplicachePatchOp (op : RowPatchOp) (schema : Schema)
  : result MergeError PatchOperationInternal :=
  match op with
  | RowClear => Ok OpClear
  | RowDel tableName id =>
      key ←! rowKey schema tableName id;
      Ok (OpDel key)
  | RowPut tableName value =>
      key ←! rowKey schema tableName value;
      Ok (OpPut key (ValRow value))
  | RowUpdate tableName id merge constrain =>
      key ←! rowKey schema tableName id;
      Ok (OpUpdate key merge constrain)
  end.

(** *** [mergePokes] *)

(** Patch operations contributed by one part, in the order in which the
    loop body pushes them. *)
Definition partPatch (schema : Schema) (pokePart : PokePartBody)
  : result MergeError (list PatchOperationInternal) :=
  let fromClients :=
    match clientsPatch pokePart with
    | Some ops => map clientsPatchOpToReplicachePatchOp ops
    | None => []
    end in
  let fromDesired :=
    match desiredQueriesPatches pokePart with
    | Some entries =>
        flat_map (fun '(clientID, queriesPatch) =>
                    map (fun op => queryPatchOpToReplicachePatchOp op
                                     (fun hash => toDesiredQueriesKey clientID hash))
                        queriesPatch)
                 entries
    | None => []
    end in
  let fromGot :=
    match gotQueriesPatch pokePart with
    | Some ops =>
        map (fun op => queryPatchOpToReplicachePatchOp op toGotQueriesKey) ops
    | None => []
    end in
  fromRows ←!
    match rowsPatch pokePart with
    | Some ops => mapM (fun p => rowsPatchOpToReplicachePatchOp p schema) ops
    | None => Ok []
    end;
  Ok (fromClients ++ fromDesired ++ fromGot ++ fromRows).

(** The two accumulators of the loop: [mergedLastMutationIDChanges] and
    [mergedPatch]. *)
Definition Acc : Type := gmap string Z * list PatchOperationInternal.

(** Body of the inner loop.  Assigning every entry of the part's
    [lastMutationIDChanges] into the merged object is a left-biased union. *)
Definition mergePart (schema : Schema) (acc : Acc) (pokePart : PokePartBody)
  : result MergeError Acc :=
  let '(mergedLastMutationIDChanges, mergedPatch) := acc in
  let mergedLastMutationIDChanges :=
    match lastMutationIDChanges pokePart with
    | Some changes => changes ∪ mergedLastMutationIDChanges
    | None => mergedLastMutationIDChanges
    end in
  ops ←! partPatch schema pokePart;
  Ok (mergedLastMutationIDChanges, mergedPatch ++ ops).

Fixpoint mergeParts (schema : Schema) (acc : Acc) (ps : list PokePartBody)
  : result MergeError Acc :=
  match ps with
  | [] => Ok acc
  | pokePart :: ps' =>
      acc' ←! mergePart schema acc pokePart;
      mergeParts schema acc' ps'
  end.

(** The guard
    [prevPokeStart && pokeStart.baseCookie && pokeStart.baseCookie > prevPokeStart.cookie];
    a [null] or empty base cookie is falsy. *)
Definition cookieGap (prev cur : PokeStartBody) : bool :=
  match baseCookie cur with
  | Some b => negb (String.eqb b "") && str_gt b (cookie prev)
  | None => false
  end.

Definition checkCookieGap (prevPokeStart : option PokeStartBody)
    (cur : PokeStartBody) : result MergeError unit :=
  match prevPokeStart with
  | Some prev =>
      if cookieGap prev cur then Throw (CookieGap prev cur) else Ok tt
  | None => Ok tt
  end.

Fixpoint mergeLoop (schema : Schema) (prevPokeStart : option PokeStartBody)
    (acc : Acc) (pokeBuffer : list PokeAccumulator) : result MergeError Acc :=
  match pokeBuffer with
  | [] => Ok acc
  | pokeAccumulator :: rest =>
      _ ←! checkCookieGap prevPokeStart (pokeStart pokeAccumulator);
      acc' ←! mergeParts schema acc (parts pokeAccumulator);
      mergeLoop schema (Some (pokeStart pokeAccumulator)) acc' rest
  end.

(** [undefined] for the empty buffer is [Ok None]. *)
Definition mergePokes (pokeBuffer : list PokeAccumulator) (schema : Schema)
  : result MergeError (option PokeInternal) :=
  match pokeBuffer with
  | [] => Ok None
  | first :: _ =>
      let baseCookie := baseCookie (pokeStart first) in
      let cookie := cookie (pokeStart (List.last pokeBuffer first)) in
      '(mergedLastMutationIDChanges, mergedPatch) ←!
          mergeLoop schema None (∅, []) pokeBuffer;
      Ok (Some {| pi_baseCookie := baseCookie;
                  pullResponse :=
                    {| pr_lastMutationIDChanges := mergedLastMutationIDChanges;
                       pr_patch := mergedPatch;
                       pr_cookie := cookie |} |})
  end.

(** *** Notions used to state the properties of [mergePokes] *)

(** The base cookie of [cur] is greater than the cookie of [prev]. *)
Definition gapBetween (prev cur : PokeStartBody) : Prop :=
  ∃ b, baseCookie cur = Some b ∧ str_gt b (cookie prev) = true.

(** Some poke's base cookie is greater than the cookie of the poke
    immediately before it in the buffer. *)
Definition hasCookieGap (pokeBuffer : list PokeAccumulator) : Prop :=
  ∃ front prev cur back,
    pokeBuffer = front ++ prev :: cur :: back ∧
    gapBetween (pokeStart prev) (pokeStart cur).

(** All parts of the buffer, in arrival order. *)
Definition allParts (pokeBuffer : list PokeAccumulator) : list PokePartBody :=
  flat_map parts pokeBuffer.

(** Every row patch of the buffer can be keyed: its table is in the schema
    and its key columns hold primary-key values. *)
Definition rowsConvertible (schema : Schema) (pokeBuffer : list PokeAccumulator)
  : Prop :=
  Forall (fun pokePart => isOk (partPatch schema pokePart) = true)
         (allParts pokeBuffer).

(** The last mutation ID a part sets for a client, if any. *)
Definition partSets (pokePart : PokePartBody) (clientID : string) : option Z :=
  changes ← lastMutationIDChanges pokePart; changes !! clientID.

(** The union of the last mutation ID changes of a list of parts, later parts
    taking precedence. *)
Definition mergedChanges (ps : list PokePartBody) : gmap string Z :=
  fold_left (fun acc pokePart =>
               default ∅ (lastMutationIDChanges pokePart) ∪ acc) ps ∅.

(** Boolean form of "no cookie gap", following the loop. *)
Fixpoint noGapAfter (prev : PokeStartBody) (pokeBuffer : list PokeAccumulator)
  : bool :=
  match pokeBuffer with
  | [] => true
  | cur :: rest =>
      negb (cookieGap prev (pokeStart cur)) && noGapAfter (pokeStart cur) rest
  end.

(** The patch as the specification words it: the client, query and row
    patches of the parts, joined in the order of the parts and, within a part,
    in the order client patch, desired-query patches (client by client), got
    query patch, row patch, each in its own order.  A client is stored under
    ["c/" + clientID] with value [true], a desired query under
    ["d/" + clientID + "/" + hash] and a got query under ["g/" + hash] with its
    AST, a row under the identifier derived from its primary key; [None] stands
    for the operation of a row that has no identifier. *)
Definition specifiedClientOp (op : ClientsPatchOp) : PatchOperationInternal :=
  match op with
  | ClientsPut clientID => OpPut ("c/" +:+ clientID) ValTrue
  | ClientsDel clientID => OpDel ("c/" +:+ clientID)
  | ClientsClear => OpClear
  end.

Definition specifiedDesiredOp (clientID : string) (op : QueriesPatchOp)
  : PatchOperationInternal :=
  match op with
  | QueriesPut hash ast => OpPut ("d/" +:+ clientID +:+ "/" +:+ hash) (ValAST ast)
  | QueriesDel hash => OpDel ("d/" +:+ clientID +:+ "/" +:+ hash)
  | QueriesClear => OpClear
  end.

Definition specifiedGotOp (op : QueriesPatchOp) : PatchOperationInternal :=
  match op with
  | QueriesPut hash ast => OpPut ("g/" +:+ hash) (ValAST ast)
  | QueriesDel hash => OpDel ("g/" +:+ hash)
  | QueriesClear => OpClear
  end.

Definition specifiedRowID (schema : Schema) (tableName : string) (row : Row)
  : option string :=
  t ← tables schema !! tableName;
  match toPrimaryKeyString Number_toString JSON_stringify_number h128
          tableName (primaryKey t) row with
  | Ok key => Some key
  | Throw _ => None
  end.

Definition specifiedRowOp (schema : Schema) (op : RowPatchOp)
  : option PatchOperationInternal :=
  match op with
  | RowPut tableName value =>
      key ← specifiedRowID schema tableName value; Some (OpPut key (ValRow value))
  | RowDel tableName id =>
      key ← specifiedRowID schema tableName id; Some (OpDel key)
  | RowUpdate tableName id merge constrain =>
      key ← specifiedRowID schema tableName id; Some (OpUpdate key merge constrain)
  | RowClear => Some OpClear
  end.

Definition specifiedPartPatch (schema : Schema) (pokePart : PokePartBody)
  : list (option PatchOperationInternal) :=
  map (fun op => Some (specifiedClientOp op)) (default [] (clientsPatch pokePart)) ++
  flat_map (fun entry => map (fun op => Some (specifiedDesiredOp entry.1 op)) entry.2)
           (default [] (desiredQueriesPatches pokePart)) ++
  map (fun op => Some (specifiedGotOp op)) (default [] (gotQueriesPatch pokePart)) ++
  map (specifiedRowOp schema) (default [] (rowsPatch pokePart)).

Definition specifiedPatch (schema : Schema) (pokeBuffer : list PokeAccumulator)
  : list (option PatchOperationInternal) :=
  flat_map (specifiedPartPatch schema) (allParts pokeBuffer).

(** *** The Replicache client the merged poke is delivered to *)

(** The key-value store of the client and the effect of one patch
    operation on it are left abstract. *)
Context {Store : Type}.
Variable applyPatchOp : Store → PatchOperationInternal → Store.

Record ClientState : Type := {
  cs_cookie : option string;
  cs_lastMutationIDs : gmap string Z;
  cs_store : Store;
}.

Inductive PokeError : Type :=
| UnexpectedBaseCookie          (* 'unexpected base cookie for poke' *)
| LastMutationIDRegression      (* 'Received lastMutationID ... is < than ...' *)
| MergeFailed (e : MergeError).

Definition lastMutationIDsAdvance (current changes : gmap string Z) : Prop :=
  map_Forall (fun (clientID : string) (lmid : Z) =>
                (default 0 (current !! clientID) <= lmid)%Z) changes.

(** Modelled from the spec: [replicachePoke], the consumer handed to the
    [PokeHandler] constructor (Replicache's [poke]; replicache.test.ts
    exercises it, its implementation is not part of the sources).  A poke
    advances the client from [baseCookie] to [cookie]: it is refused when the
    client is not at [baseCookie] or when a last mutation ID would go
    backwards; otherwise the patch is applied in order, the last mutation
    IDs are overwritten and the cookie is set. *)
Definition replicachePoke (poke : PokeInternal) (st : ClientState)
  : result PokeError ClientState :=
  let response := pullResponse poke in
  if bool_decide (cs_cookie st = pi_baseCookie poke) then
    if bool_decide (lastMutationIDsAdvance (cs_lastMutationIDs st)
                      (pr_lastMutationIDChanges response)) then
      Ok {| cs_cookie := Some (pr_cookie response);
            cs_lastMutationIDs :=
              pr_lastMutationIDChanges response ∪ cs_lastMutationIDs st;
            cs_store := fold_left applyPatchOp (pr_patch response) (cs_store st) |}
    else Throw LastMutationIDRegression
  else Throw UnexpectedBaseCookie.

(** *** [PokeHandler] *)

(** The private fields, plus a count of the [onPokeError] callbacks made so
    far.  Logging and the animation-frame scheduling are not modelled. *)
Record PokeHandler : Type := {
  receivingPoke : option PokeAccumulator;
  pokeBuffer : list PokeAccumulator;
  pokePlaybackLoopRunning : bool;
  onPokeErrorCalls : nat;
}.

Definition clear (h : PokeHandler) : PokeHandler :=
  {| receivingPoke := None;
     pokeBuffer := [];
     pokePlaybackLoopRunning := pokePlaybackLoopRunning h;
     onPokeErrorCalls := onPokeErrorCalls h |}.

Definition handlePokeError (h : PokeHandler) : PokeHandler :=
  let h := clear h in
  {| receivingPoke := receivingPoke h;
     pokeBuffer := pokeBuffer h;
     pokePlaybackLoopRunning := pokePlaybackLoopRunning h;
     onPokeErrorCalls := S (onPokeErrorCalls h) |}.

Definition handlePokeStart (h : PokeHandler) (pokeStart : PokeStartBody)
  : PokeHandler :=
  match receivingPoke h with
  | Some _ => handlePokeError h
  | None =>
      {| receivingPoke := Some {| pokeStart := pokeStart; parts := [] |};
         pokeBuffer := pokeBuffer h;
         pokePlaybackLoopRunning := pokePlaybackLoopRunning h;
         onPokeErrorCalls := onPokeErrorCalls h |}
  end.

(** Returns the new handler and [lastMutationIDChanges?.[clientID]]. *)
Definition handlePokePart (clientID : string) (h : PokeHandler)
    (pokePart : PokePartBody) : PokeHandler * option Z :=
  match receivingPoke h with
  | Some receiving =>
      if String.eqb (part_pokeID pokePart) (pokeID (pokeStart receiving)) then
        ({| receivingPoke :=
              Some {| pokeStart := pokeStart receiving;
                      parts := parts receiving ++ [pokePart] |};
            pokeBuffer := pokeBuffer h;
            pokePlaybackLoopRunning := pokePlaybackLoopRunning h;
            onPokeErrorCalls := onPokeErrorCalls h |},
         changes ← lastMutationIDChanges pokePart; changes !! clientID)
      else (handlePokeError h, None)
  | None => (handlePokeError h, None)
  end.

Definition handlePokeEnd (h : PokeHandler) (pokeEnd : PokeEndBody) : PokeHandler :=
  match receivingPoke h with
  | Some receiving =>
      if String.eqb (end_pokeID pokeEnd) (pokeID (pokeStart receiving)) then
        if cancel pokeEnd then
          {| receivingPoke := None;
             pokeBuffer := pokeBuffer h;
             pokePlaybackLoopRunning := pokePlaybackLoopRunning h;
             onPokeErrorCalls := onPokeErrorCalls h |}
        else
          {| receivingPoke := None;
             pokeBuffer := pokeBuffer h ++ [receiving];
             pokePlaybackLoopRunning := true;   (* [#startPlaybackLoop] *)
             onPokeErrorCalls := onPokeErrorCalls h |}
      else handlePokeError h
  | None => handlePokeError h
  end.

Definition handleDisconnect (h : PokeHandler) : PokeHandler := clear h.

(** [#processPokesForFrame]: merge the buffer, empty it, poke Replicache;
    any exception ends in [#handlePokeError].  [mergePokes] throwing leaves
    the buffer to be emptied by [#clear]. *)
Definition processPokesForFrame (schema : Schema) (h : PokeHandler)
    (client : ClientState) : PokeHandler * ClientState :=
  match mergePokes (pokeBuffer h) schema with
  | Throw _ => (handlePokeError h, client)
  | Ok merged =>
      let h' := {| receivingPoke := receivingPoke h;
                   pokeBuffer := [];
                   pokePlaybackLoopRunning := pokePlaybackLoopRunning h;
                   onPokeErrorCalls := onPokeErrorCalls h |} in
      match merged with
      | None => (h', client)
      | Some merged =>
          match replicachePoke merged client with
          | Ok client' => (h', client')
          | Throw _ => (handlePokeError h', client)
          end
      end
  end.

(** [#rafCallback]: with an empty buffer the playback loop stops, otherwise
    the pokes of the frame are processed. *)
Definition rafCallback (schema : Schema) (h : PokeHandler)
    (client : ClientState) : PokeHandler * ClientState :=
  match pokeBuffer h with
  | [] =>
      ({| receivingPoke := receivingPoke h;
          pokeBuffer := pokeBuffer h;
          pokePlaybackLoopRunning := false;
          onPokeErrorCalls := onPokeErrorCalls h |}, client)
  | _ => processPokesForFrame schema h client
  end.

(** Delivering the buffered pokes one at a time, each as the merge of the
    one-element buffer holding it. *)
Fixpoint applyInOrder (schema : Schema) (pokes : list PokeAccumulator)
    (client : ClientState) : result PokeError ClientState :=
  match pokes with
  | [] => Ok client
  | p :: rest =>
      match mergePokes [p] schema with
      | Throw e => Throw (MergeFailed e)
      | Ok None => applyInOrder schema rest client
      | Ok (Some single) =>
          client' ←! replicachePoke single client;
          applyInOrder schema rest client'
      end
  end.

(** *** Notions used to state further properties of the handler *)

(** The parts of a poke, handed to [handlePokePart] in order. *)
Definition receiveParts (clientID : string) (h : PokeHandler)
    (pokeParts : list PokePartBody) : PokeHandler :=
  fold_left (fun h pokePart => (handlePokePart clientID h pokePart).1) pokeParts h.

(** A whole poke as the socket delivers it: [pokeStart], the parts,
    [pokeEnd]. *)
Definition receivePoke (clientID : string) (h : PokeHandler)
    (pokeStart : PokeStartBody) (pokeParts : list PokePartBody)
    (pokeEnd : PokeEndBody) : PokeHandler :=
  handlePokeEnd (receiveParts clientID (handlePokeStart h pokeStart) pokeParts)
    pokeEnd.

(** The key lies in the namespace of the rows of a table of the schema. *)
Definition isEntityKey (schema : Schema) (key : string) : Prop :=
  ∃ tableName,
    is_Some (tables schema !! tableName) ∧
    String.prefix (ENTITIES_KEY_PREFIX +:+ tableName +:+ "/") key = true.

(** Where a patch operation may write: client keys hold [true], query keys
    hold an AST, entity keys hold a row; [update] only addresses rows. *)
Definition inItsNamespace (schema : Schema) (op : PatchOperationInternal) : Prop :=
  match op with
  | OpPut key ValTrue => String.prefix CLIENTS_KEY_PREFIX key = true
  | OpPut key (ValAST _) =>
      String.prefix DESIRED_QUERIES_KEY_PREFIX key = true ∨
      String.prefix GOT_QUERIES_KEY_PREFIX key = true
  | OpPut key (ValRow _) => isEntityKey schema key
  | OpDel key =>
      String.prefix CLIENTS_KEY_PREFIX key = true ∨
      String.prefix DESIRED_QUERIES_KEY_PREFIX key = true ∨
      String.prefix GOT_QUERIES_KEY_PREFIX key = true ∨
      isEntityKey schema key
  | OpUpdate key _ _ => isEntityKey schema key
  | OpClear => True
  end.

End WithTypes.
End Pokes.

(** ** connection-loop.ts *)

Module ConnLoop.

Definition DEBOUNCE_DELAY_MS : Z := 10.
Definition MIN_DELAY_MS : Z := 30.
Definition MAX_DELAY_MS : Z := 60000.

(** Durations and delays are millisecond counts.  They are integers here;
    the one place where the source leaves the integers, the mean of the two
    middle values in [median], is kept as a rational. *)
Record SendRecord : Type := {
  duration : Z;
  ok : bool;
}.

(** The numeric members of the delegate; [invokeSend] is an effect of the
    loop and appears as the [RequestDone] event below. *)
Record ConnectionLoopDelegate : Type := {
  debounceDelay : Z;
  watchdogTimer : option Z;
  maxConnections : Z;
  maxDelayMs : Z;
  minDelayMs : Z;
}.

(** Number of connections to remember when computing the new delay. *)
Definition CONNECTION_MEMORY_COUNT : nat := 9.

(** *** [Array.prototype.sort] without a comparator

    The default order compares the string renderings of the elements.
    [pretty] is the decimal rendering of an integer, which is what
    [String(n)] yields for the integers a duration can be. *)
Definition defaultSortLe (a b : Z) : bool :=
  negb (String.ltb (pretty b) (pretty a)).

Fixpoint insertSorted (le : Z → Z → bool) (x : Z) (l : list Z) : list Z :=
  match l with
  | [] => [x]
  | y :: l' => if le x y then x :: y :: l' else y :: insertSorted le x l'
  end.

Definition sortWith (le : Z → Z → bool) (l : list Z) : list Z :=
  fold_right (insertSorted le) [] l.

Definition Array_sort (values : list Z) : list Z := sortWith defaultSortLe values.

(** [None] stands for [NaN], the result on an empty array. *)
Definition median (values : list Z) : option Q :=
  let values := Array_sort values in
  let length := length values in
  let half := Nat.shiftr length 1 in
  if (length mod 2 =? 1)%nat then
    inject_Z <$> values !! half
  else
    match values !! (half - 1)%nat, values !! half with
    | Some a, Some b => Some (Qdiv (inject_Z (a + b)) (inject_Z 2))
    | _, _ => None
    end.

(** [x | 0] on a finite number: truncate, then wrap to 32 bits. *)
Definition Qtruncate (q : Q) : Z := Z.quot (Qnum q) (Zpos (Qden q)).

Definition ToInt32 (z : Z) : Z := (z + 2 ^ 31) mod 2 ^ 32 - 2 ^ 31.

(** [(med / maxConnections) | 0]; [NaN] and the infinities of a division by
    zero all become [0]. *)
Definition divToInt32 (med : option Q) (maxConnections : Z) : Z :=
  match med with
  | None => 0
  | Some m =>
      if (maxConnections =? 0)%Z then 0
      else ToInt32 (Qtruncate (Qdiv m (inject_Z maxConnections)))
  end.

(** The pruning loop [while (sendRecords.length > 9) sendRecords.shift()]. *)
Fixpoint prune (sendRecords : list SendRecord) : list SendRecord :=
  match sendRecords with
  | [] => []
  | _ :: rest =>
      if (CONNECTION_MEMORY_COUNT <? length sendRecords)%nat
      then prune rest else sendRecords
  end.

(** Returns the new delay and the (possibly pruned) array of records. *)
Definition computeDelayAndUpdateDurations
    (delay : Z) (delegate : ConnectionLoopDelegate) (sendRecords : list SendRecord)
  : Z * list SendRecord :=
  let length := length sendRecords in
  match last sendRecords with
  | None => (delay, sendRecords)
  | Some lastRecord =>
      if negb (ok lastRecord) then
        ((if (delay =? 0)%Z then minDelayMs delegate else delay * 2), sendRecords)
      else
        let previousFailed :=
          if (1 <? length)%nat then
            match sendRecords !! (length - 2)%nat with
            | Some previous => negb (ok previous)
            | None => false
            end
          else false in
        let sendRecords :=
          if (1 <? length)%nat then prune sendRecords else sendRecords in
        if previousFailed then (minDelayMs delegate, sendRecords)
        else
          let med :=
            median (map duration (filter (fun r => ok r = true) sendRecords)) in
          (divToInt32 med (maxConnections delegate), sendRecords)
  end.

Definition didLastSendRequestFail (sendRecords : list SendRecord) : bool :=
  match last sendRecords with
  | Some lastRecord => negb (ok lastRecord)
  | None => false
  end.

Definition recovered (sendRecords : list SendRecord) : bool :=
  let length := length sendRecords in
  (1 <? length)%nat &&
  match sendRecords !! (length - 2)%nat, sendRecords !! (length - 1)%nat with
  | Some previous, Some lastRecord => negb (ok previous) && ok lastRecord
  | _, _ => false
  end.

(** The part of one iteration of [run] between the wait for a free
    connection and the sleep: from the number of requests in flight, the old
    delay and the records, the new [delay], the [clampedDelay] and the
    records.  [clampedDelay] is the time the loop lets pass between the starts
    of two requests: what it then sleeps is [clampedDelay] less the time since
    the last request was started, if that is positive. *)
Definition delayForNextSend
    (counter : nat) (delay : Z) (delegate : ConnectionLoopDelegate)
    (sendRecords : list SendRecord) : Z * Z * list SendRecord :=
  let '(delay, sendRecords) :=
    if (0 <? counter)%nat || didLastSendRequestFail sendRecords
    then computeDelayAndUpdateDurations delay delegate sendRecords
    else (0, sendRecords) in
  let clampedDelay :=
    Z.min (maxDelayMs delegate) (Z.max (minDelayMs delegate) delay) in
  (delay, clampedDelay, sendRecords).

(** *** Notions used to state the delay property *)

Definition numericSort (values : list Z) : list Z := sortWith Z.leb values.

(** The median of a list of integers: the middle value in numeric order, or
    the mean of the two middle values. *)
Definition medianOf (values : list Z) : option Q :=
  let sorted := numericSort values in
  let n := length sorted in
  if Nat.odd n then inject_Z <$> sorted !! (n / 2)%nat
  else
    match sorted !! (n / 2 - 1)%nat, sorted !! (n / 2)%nat with
    | Some a, Some b => Some (Qdiv (inject_Z (a + b)) (inject_Z 2))
    | _, _ => None
    end.

(** The last [n] elements of a list. *)
Definition mostRecent {A} (n : nat) (l : list A) : list A :=
  drop (length l - n) l.

Definition successfulDurations (sendRecords : list SendRecord) : list Z :=
  map duration (filter (fun r => ok r = true) sendRecords).

(** The delay as the specification words it: the median of the last at most 9
    successful durations, divided by [maxConnections], clamped to
    [[minDelayMs, maxDelayMs]]. *)
Definition specifiedDelay (delegate : ConnectionLoopDelegate)
    (sendRecords : list SendRecord) : Z :=
  Z.min (maxDelayMs delegate)
    (Z.max (minDelayMs delegate)
       (divToInt32 (medianOf (mostRecent 9 (successfulDurations sendRecords)))
                   (maxConnections delegate))).

(** *** [send] and [close]

    A promise is pending, resolved with a value or rejected with an error. *)
(** A JavaScript error object: its class and its message. *)
Record JSError : Type := {
  errorClass : string;
  message : string;
}.

Inductive Settled (A : Type) : Type :=
| Pending
| Resolved (a : A)
| Rejected (e : JSError).
Arguments Pending {A}.
Arguments Resolved {A} a.
Arguments Rejected {A} e.

Definition closeError : JSError :=
  {| errorClass := "Error"; message := "Closed" |}.

(** What a send yields: [undefined] or [{error}]. *)
Inductive SendResult : Type :=
| SendOk
| SendError (error : JSError).

(** Where a call of the async method [send] stands: suspended at
    [await waitForVisible()], suspended at [await this.#sendResolver.promise]
    on the resolver with the given index, or returned. *)
Inductive SendCall : Type :=
| WaitingForVisible
| AwaitingSendResolver (resolver : nat)
| Returned (result : SendResult).

(** [resolvers] holds every send resolver created so far, [None] while
    unresolved; the last one is the current [#sendResolver]. *)
Record ConnectionLoop : Type := {
  closed : bool;
  sendCounter : nat;
  resolvers : list (option SendResult);
  calls : list SendCall;
}.

Definition initial : ConnectionLoop :=
  {| closed := false; sendCounter := 0; resolvers := [None]; calls := [] |}.

Definition sendResolver (loop : ConnectionLoop) : nat :=
  (length (resolvers loop) - 1)%nat.

(** [resolver.resolve(v)]: settles a pending promise, does nothing on a
    settled one. *)
Definition resolve (r : nat) (v : SendResult) (rs : list (option SendResult))
  : list (option SendResult) :=
  match rs !! r with
  | Some None => <[r := Some v]> rs
  | _ => rs
  end.

Definition close (loop : ConnectionLoop) : ConnectionLoop :=
  {| closed := true;
     sendCounter := sendCounter loop;
     resolvers :=
       if (0 <? sendCounter loop)%nat
       then resolve (sendResolver loop) (SendError closeError) (resolvers loop)
       else resolvers loop;
     calls := calls loop |}.

(** The synchronous part of [send(now)], up to its first suspension; the new
    call is appended to [calls]. *)
Definition send (now : bool) (loop : ConnectionLoop) : ConnectionLoop :=
  if closed loop then
    {| closed := closed loop;
       sendCounter := sendCounter loop;
       resolvers := resolvers loop;
       calls := calls loop ++ [Returned (SendError closeError)] |}
  else
    {| closed := closed loop;
       sendCounter := S (sendCounter loop);
       resolvers := resolvers loop;
       calls := calls loop ++
                [if now then AwaitingSendResolver (sendResolver loop)
                 else WaitingForVisible] |}.

(** Call [c] resumes after [waitForVisible()] and suspends on the current
    send resolver. *)
Definition becomeVisible (c : nat) (loop : ConnectionLoop) : ConnectionLoop :=
  match calls loop !! c with
  | Some WaitingForVisible =>
      {| closed := closed loop;
         sendCounter := sendCounter loop;
         resolvers := resolvers loop;
         calls := <[c := AwaitingSendResolver (sendResolver loop)]> (calls loop) |}
  | _ => loop
  end.

(** Call [c] resumes after its resolver was resolved, decrements the counter
    and returns the value. *)
Definition resume (c : nat) (loop : ConnectionLoop) : ConnectionLoop :=
  match calls loop !! c with
  | Some (AwaitingSendResolver r) =>
      match resolvers loop !! r with
      | Some (Some result) =>
          {| closed := closed loop;
             sendCounter := pred (sendCounter loop);
             resolvers := resolvers loop;
             calls := <[c := Returned result]> (calls loop) |}
      | _ => loop
      end
  | _ => loop
  end.

(** The tail of the request closure in [run], after [invokeSend] settled
    with [error] (if it threw): nothing when closed, else the send resolver is
    replaced and the old one resolved. *)
Definition requestDone (error : option JSError) (loop : ConnectionLoop)
  : ConnectionLoop :=
  if closed loop then loop
  else
    let old := sendResolver loop in
    let rs := resolvers loop ++ [None] in
    {| closed := closed loop;
       sendCounter := sendCounter loop;
       resolvers :=
         resolve old (match error with
                      | Some e => SendError e
                      | None => SendOk
                      end) rs;
       calls := calls loop |}.

Inductive Event : Type :=
| EvSend (now : bool)
| EvVisible (call : nat)
| EvResume (call : nat)
| EvRequestDone (error : option JSError)
| EvClose.

Definition step (loop : ConnectionLoop) (ev : Event) : ConnectionLoop :=
  match ev with
  | EvSend now => send now loop
  | EvVisible c => becomeVisible c loop
  | EvResume c => resume c loop
  | EvRequestDone error => requestDone error loop
  | EvClose => close loop
  end.

Definition runEvents (events : list Event) (loop : ConnectionLoop)
  : ConnectionLoop :=
  fold_left step events loop.

(** The promise returned by call [c] of [send]: an async function that never
    throws resolves with its return value. *)
Definition sendPromise (loop : ConnectionLoop) (c : nat) : Settled SendResult :=
  match calls loop !! c with
  | Some (Returned result) => Resolved result
  | _ => Pending
  end.

(** *** Notions used to state the properties of [close] *)

(** A call of [send] that has not returned yet. *)
Definition suspended (call : SendCall) : bool :=
  match call with
  | Returned _ => false
  | _ => true
  end.

Definition countSuspended (cs : list SendCall) : nat :=
  length (filter (fun call => suspended call = true) cs).

(** Call [c] is pending: it waits for the document to become visible, or for
    a send resolver that is not resolved yet. *)
Definition pendingSend (loop : ConnectionLoop) (c : nat) : Prop :=
  calls loop !! c = Some WaitingForVisible ∨
  ∃ r, calls loop !! c = Some (AwaitingSendResolver r) ∧
       resolvers loop !! r = Some None.

(** What holds of a loop that was never closed: the current send resolver is
    unresolved, the earlier ones are resolved, [sendCounter] counts the calls
    that have not returned, and no call waits on a resolver of the future. *)
Record OpenLoop (loop : ConnectionLoop) : Prop := {
  open_closed : closed loop = false;
  open_current : last (resolvers loop) = Some None;
  open_past : ∀ r, (r < sendResolver loop)%nat → ∃ v, resolvers loop !! r = Some (Some v);
  open_counter : sendCounter loop = countSuspended (calls loop);
  open_await : ∀ c r, calls loop !! c = Some (AwaitingSendResolver r) →
                      (r <= sendResolver loop)%nat;
}.

(** What holds of call [c] once the loop is closed: the current send resolver
    is resolved with the close error, and the call still waits (for visibility
    or for that resolver) or has returned the close error. *)
Record ClosedFor (c : nat) (loop : ConnectionLoop) : Prop := {
  closed_closed : closed loop = true;
  closed_current : resolvers loop !! sendResolver loop = Some (Some (SendError closeError));
  closed_call : calls loop !! c = Some WaitingForVisible ∨
                calls loop !! c = Some (AwaitingSendResolver (sendResolver loop)) ∨
                calls loop !! c = Some (Returned (SendError closeError));
}.

(** *** Notions used to state further properties of the loop *)

(** The value a send resolver is resolved with when a request completes. *)
Definition requestResult (error : option JSError) : SendResult :=
  match error with
  | Some e => SendError e
  | None => SendOk
  end.

(** Events that resolve a send resolver: the completion of a request and
    [close]. *)
Definition settles (ev : Event) : bool :=
  match ev with
  | EvRequestDone _ | EvClose => true
  | _ => false
  end.

(** [#sendCounter] is the number of calls of [send] that have not returned. *)
Definition counterCounts (loop : ConnectionLoop) : Prop :=
  sendCounter loop = countSuspended (calls loop).

(** What holds of call [c] once the request it waited for has completed with
    result [v] on resolver [r]: the resolver stays resolved with [v], and the
    call still waits on it or has returned [v]. *)
Record AnsweredBy (c r : nat) (v : SendResult) (loop : ConnectionLoop) : Prop := {
  answered_resolver : resolvers loop !! r = Some (Some v);
  answered_call : calls loop !! c = Some (AwaitingSendResolver r) ∨
                  calls loop !! c = Some (Returned v);
}.

(** What holds of a loop in which no send resolver was resolved yet. *)
Record Unsettled (loop : ConnectionLoop) : Prop := {
  unsettled_closed : closed loop = false;
  unsettled_resolvers : resolvers loop = [None];
  unsettled_calls : Forall (fun call => suspended call = true) (calls loop);
}.

(** The clamped delays of successive iterations of [run], each starting
    after the request of the previous iteration has completed with the given
    outcome and with no other request in flight: the outcome is pushed onto
    the records, then the delay of the next send is computed. *)
Fixpoint clampedDelaysAfter (delegate : ConnectionLoopDelegate) (delay : Z)
    (sendRecords : list SendRecord) (outcomes : list SendRecord) : list Z :=
  match outcomes with
  | [] => []
  | outcome :: rest =>
      let '(delay', clampedDelay, sendRecords') :=
        delayForNextSend 0 delay delegate (sendRecords ++ [outcome]) in
      clampedDelay :: clampedDelaysAfter delegate delay' sendRecords' rest
  end.

End ConnLoop.

(** ** The reflect-server connect handler ([handleConnection]) *)

Module Connect.

Record UserData : Type := {
  userID : string;
}.

(** Versions of the room are numbers; the base cookie of a new client is
    [null]. *)
Record ClientRecord : Type := {
  cr_baseCookie : option Z;
  lastMutationID : Z;
}.

(** The frames written to a socket: [JSON.stringify(['error', error])] and
    [JSON.stringify(['connected', {}])]. *)
Inductive Frame : Type :=
| ErrorFrame (error : string)
| ConnectedFrame.

Inductive Listener : Type :=
| MessageListener (clientID : string)
| CloseListener (clientID : string)
| ErrorListener (clientID : string).

(** A socket object: what was sent on it, whether [close()] was called, the
    listeners added.  Sockets are referred to by identity. *)
Record Socket : Type := {
  sent : list Frame;
  isClosed : bool;
  listeners : list Listener;
}.

Definition newSocket : Socket :=
  {| sent := []; isClosed := false; listeners := [] |}.

Record ClientState : Type := {
  socket : nat;
  userData : UserData;
  clockBehindByMs : option Z;
  pending : list string;
}.

Record DurableStorage : Type := {
  clientRecords : gmap string ClientRecord;
  version : option Z;
  connectedClients : gset string;
}.

(** Everything [handleConnection] reads or writes: the socket objects, the
    durable storage and the [ClientMap]. *)
Record World : Type := {
  sockets : gmap nat Socket;
  storage : DurableStorage;
  clients : gmap string ClientState;
}.

Definition theSocket (w : gmap nat Socket) (ws : nat) : Socket :=
  default newSocket (w !! ws).

Definition socketSend (ws : nat) (frame : Frame) (w : gmap nat Socket)
  : gmap nat Socket :=
  let s := theSocket w ws in
  <[ws := {| sent := sent s ++ [frame];
             isClosed := isClosed s;
             listeners := listeners s |}]> w.

Definition socketClose (ws : nat) (w : gmap nat Socket) : gmap nat Socket :=
  let s := theSocket w ws in
  <[ws := {| sent := sent s; isClosed := true; listeners := listeners s |}]> w.

Definition addEventListener (ws : nat) (l : Listener) (w : gmap nat Socket)
  : gmap nat Socket :=
  let s := theSocket w ws in
  <[ws := {| sent := sent s;
             isClosed := isClosed s;
             listeners := listeners s ++ [l] |}]> w.

(** Storage helpers of types/client-record.js, types/version.js and
    types/connected-clients.js. *)
Definition getClientRecord (clientID : string) (st : DurableStorage)
  : option ClientRecord := clientRecords st !! clientID.

Definition putClientRecord (clientID : string) (record : ClientRecord)
    (st : DurableStorage) : DurableStorage :=
  {| clientRecords := <[clientID := record]> (clientRecords st);
     version := version st;
     connectedClients := connectedClients st |}.

Definition getVersion (st : DurableStorage) : option Z := version st.

Definition addConnectedClient (clientID : string) (st : DurableStorage)
  : DurableStorage :=
  {| clientRecords := clientRecords st;
     version := version st;
     connectedClients := {[clientID]} ∪ connectedClients st |}.

(** Modelled from the spec: [compareVersions] of types/version.js is imported
    by the handler but is not part of the sources.  Versions are ordered
    numerically and the distinguished minimum ([null]) precedes all of them;
    the result is negative, zero or positive. *)
Definition compareVersions (a b : option Z) : Z :=
  match a, b with
  | None, None => 0
  | None, Some _ => -1
  | Some _, None => 1
  | Some x, Some y => x - y
  end.

Definition maybeOldClientStateMessage : string :=
  "Possibly the room was re-created without also clearing browser state? Try clearing browser state and trying again.".

Record URL : Type := {
  href : string;
  searchParams : list (string * string);
}.

Record ConnectRequest : Type := {
  clientID : string;
  req_userData : UserData;
  baseCookie : option Z;
  timestamp : Z;
  lmid : Z;
}.

Section WithParsers.

(** [parseInt], with [None] for [NaN]. *)
Variable parseInt : string → option Z.

(** [JSON.parse(decodeHeaderValue(s))] followed by the read of [.userID]:
    [None] when decoding or parsing throws, [Some None] when the value is falsy
    or its [userID] is not a string, [Some (Some u)] otherwise. *)
Variable decodeUserID : string → option (option string).

(** The header name exported by auth.js. *)
Variable USER_DATA_HEADER_NAME : string.

(** [url.searchParams.get(name)]: the first value or [null]. *)
Definition searchParams_get (url : URL) (name : string) : option string :=
  snd <$> List.find (fun p => String.eqb (fst p) name) (searchParams url).

(** [getParam(name, required)]; exceptions carry their message. *)
Definition getParam (url : URL) (name : string) (required : bool)
  : result string (option string) :=
  match searchParams_get url name with
  | Some value =>
      if String.eqb value "" then
        if required then Throw ("invalid querystring - missing " +:+ name)
        else Ok None
      else Ok (Some value)
  | None =>
      if required then Throw ("invalid querystring - missing " +:+ name)
      else Ok None
  end.

Definition getIntegerParam (url : URL) (name : string) (required : bool)
  : result string (option Z) :=
  value ←! getParam url name required;
  match value with
  | None => Ok None
  | Some value =>
      match parseInt value with
      | None =>
          Throw ("invalid querystring parameter " +:+ name +:+ ", url: "
                 +:+ href url +:+ ", got: " +:+ value)
      | Some int => Ok (Some int)
      end
  end.

Definition getUserData (headers : gmap string string) : result string UserData :=
  match headers !! USER_DATA_HEADER_NAME with
  | None => Throw "missing user-data"
  | Some encodedValue =>
      if String.eqb encodedValue "" then Throw "missing user-data"
      else
        match decodeUserID encodedValue with
        | None => Throw "invalid user-data - failed to decode/parse"
        | Some None => Throw "invalid user-data - missing userID"
        | Some (Some u) =>
            if String.eqb u "" then Throw "invalid user-data - missing userID"
            else Ok {| userID := u |}
        end
  end.

(** A required parameter that was read is present. *)
Definition required {A} (name : string) (v : option A) : result string A :=
  match v with
  | Some a => Ok a
  | None => Throw ("invalid querystring - missing " +:+ name)
  end.

(** [{result, error: null}] is [Ok result]; [{result: null, error: String(e)}]
    is [Throw] of the message prefixed as [String] does for an [Error]. *)
Definition getConnectRequest (url : URL) (headers : gmap string string)
  : result string ConnectRequest :=
  match
    (clientID ←! (v ←! getParam url "clientID" true; required "clientID" v);
     baseCookie ←! getIntegerParam url "baseCookie" false;
     timestamp ←! (v ←! getIntegerParam url "ts" true; required "ts" v);
     lmid ←! (v ←! getIntegerParam url "lmid" true; required "lmid" v);
     userData ←! getUserData headers;
     Ok {| clientID := clientID;
           req_userData := userData;
           baseCookie := baseCookie;
           timestamp := timestamp;
           lmid := lmid |})
  with
  | Ok r => Ok r
  | Throw e => Throw ("Error: " +:+ e)
  end.

Definition sendError (ws : nat) (error : string) (w : World) : World :=
  {| sockets := socketClose ws (socketSend ws (ErrorFrame error) (sockets w));
     storage := storage w;
     clients := clients w |}.

Definition handleConnection (ws : nat) (url : URL) (headers : gmap string string)
    (w : World) : World :=
  match getConnectRequest url headers with
  | Throw error => sendError ws error w
  | Ok parsedConnectRequest =>
      let requestClientID := clientID parsedConnectRequest in
      let requestBaseCookie := baseCookie parsedConnectRequest in
      let existingRecord := getClientRecord requestClientID (storage w) in
      let existingLastMutationID := default 0 (lastMutationID <$> existingRecord) in
      if (lmid parsedConnectRequest >? existingLastMutationID)%Z then
        sendError ws ("Unexpected lmid. " +:+ maybeOldClientStateMessage) w
      else
        let version := getVersion (storage w) in
        if (compareVersions requestBaseCookie version >? 0)%Z then
          sendError ws ("Unexpected baseCookie. " +:+ maybeOldClientStateMessage) w
        else
          let record := {| cr_baseCookie := requestBaseCookie;
                           lastMutationID := existingLastMutationID |} in
          let st := putClientRecord requestClientID record (storage w) in
          let st := addConnectedClient requestClientID st in
          let ss :=
            match clients w !! requestClientID with
            | Some existing => socketClose (socket existing) (sockets w)
            | None => sockets w
            end in
          let ss := addEventListener ws (MessageListener requestClientID) ss in
          let ss := addEventListener ws (CloseListener requestClientID) ss in
          let ss := addEventListener ws (ErrorListener requestClientID) ss in
          let client := {| socket := ws;
                           userData := req_userData parsedConnectRequest;
                           clockBehindByMs := None;
                           pending := [] |} in
          {| sockets := socketSend ws ConnectedFrame ss;
             storage := st;
             clients := <[requestClientID := client]> (clients w) |}
  end.

(** *** Notions used to state further properties of the handler *)

(** Parameter [name] of the query string is present, not empty and reads as
    the integer [n]. *)
Definition integerParam (url : URL) (name : string) (n : Z) : Prop :=
  ∃ value,
    searchParams_get url name = Some value ∧ value ≠ "" ∧
    parseInt value = Some n.

(** Parameter [name] is absent or empty. *)
Definition missingParam (url : URL) (name : string) : Prop :=
  searchParams_get url name = None ∨ searchParams_get url name = Some "".

(** The last mutation ID recorded for a client, 0 without a record. *)
Definition storedLastMutationID (st : DurableStorage) (clientID : string) : Z :=
  default 0 (lastMutationID <$> getClientRecord clientID st).

End WithParsers.
End Connect.

(** ** View-syncer: versions, CVR store and updaters

    The sources contain the test-suite of the CVR updaters (cvr.test.ts) but
    neither cvr.ts nor cvr-store.ts nor schema/types.ts; the definitions of
    this module follow the specification and are checked against the
    expectations of that test-suite among the properties. *)

Module CVR.

(** *** Version algebra *)

(** Modelled from the spec: [CVRVersion] of schema/types.ts (not part of the
    sources), a pair [{stateVersion, minorVersion?}]; an absent minor version
    counts as 0, as in the versions the test-suite expects. *)
Record CVRVersion : Type := {
  stateVersion : string;
  minorVersion : option N;
}.

#[global] Instance CVRVersion_eq_dec : EqDecision CVRVersion.
Proof. solve_decision. Defined.

Definition minorOf (v : CVRVersion) : N := default 0%N (minorVersion v).

(** Modelled from the spec: the version order of schema/types.ts, which is
    not part of the sources.  Ordering is lexicographic on [stateVersion], then
    numeric on [minorVersion]. *)
Definition cmpVersions (a b : CVRVersion) : comparison :=
  match String.compare (stateVersion a) (stateVersion b) with
  | Eq => N.compare (minorOf a) (minorOf b)
  | c => c
  end.

Definition versionLt (a b : CVRVersion) : Prop := cmpVersions a b = Lt.
Definition versionLe (a b : CVRVersion) : Prop := cmpVersions a b <> Gt.

(** Modelled from the spec: [nextMinor] and [advance] of the version algebra
    (schema/types.ts, not part of the sources).  [advance] sets a new state
    version and resets the minor version. *)
Definition nextMinor (v : CVRVersion) : CVRVersion :=
  {| stateVersion := stateVersion v; minorVersion := Some (minorOf v + 1)%N |}.

Definition advance (v : CVRVersion) (newStateVersion : string) : CVRVersion :=
  {| stateVersion := newStateVersion; minorVersion := None |}.

(** *** Rows *)

Record RowID : Type := {
  schema : string;
  table : string;
  rowKey : list (string * string);
}.

#[global] Instance RowID_eq_dec : EqDecision RowID.
Proof. solve_decision. Defined.

#[global] Instance RowID_countable : Countable RowID.
Proof.
  refine (inj_countable'
            (fun r => (schema r, table r, rowKey r))
            (fun t => {| schema := t.1.1; table := t.1.2; rowKey := t.2 |}) _).
  by intros [].
Defined.

(** Modelled from the spec: [RowRecord] of schema/types.ts (not part of the
    sources); [refCounts = None] is a tombstone ([null]). *)
Record RowRecord : Type := {
  rowVersion : string;
  patchVersion : CVRVersion;
  refCounts : option (gmap string Z);
}.

(** One entry of the map handed to [received]: the row version, the
    reference-count deltas per query and the row contents. *)
Record RowUpdate : Type := {
  version : string;
  refCountDeltas : gmap string Z;
  contents : list (string * string);
}.

Inductive Patch : Type :=
| RowPut (id : RowID) (contents : list (string * string))
| RowDel (id : RowID).

Record PatchToVersion : Type := {
  patch : Patch;
  toVersion : CVRVersion;
}.

(** Modelled from the spec: liveness of a row record (cvr.ts is not part of
    the sources).  A row is live iff some query holds a positive count on it. *)
Definition isLive (refCounts : option (gmap string Z)) : bool :=
  match refCounts with
  | Some counts => bool_decide (map_Exists (fun (_ : string) (n : Z) => (0 < n)%Z) counts)
  | None => false
  end.

Arguments isLive : simpl never.

(** Modelled from the spec: the reference counts of a row after [received]
    (cvr.ts is not part of the sources): the received deltas are added to the
    counts the row has, query by query.  The counts a row has when it is first
    received in an update are the stored ones less those of the queries named
    by [trackQueries], whose results are received anew: tests 'new
    transformation hash' and 'multiple executed queries' expect the stored
    counts of an executed query replaced, not added to. *)
Definition withoutQueries (queries : gset string) (counts : gmap string Z)
  : gmap string Z :=
  filter (fun entry => entry.1 ∉ queries) counts.

(** Modelled from the spec: the received deltas are added to the counts,
    query by query (cvr.ts is not part of the sources). *)
Definition addRefCounts (counts deltas : gmap string Z) : gmap string Z :=
  union_with (fun a b => Some (a + b)%Z) counts deltas.

(** *** [CVRQueryDrivenUpdater] *)

(** The updater between [trackQueries] and [flush]: the version it was loaded
    at, the version it will flush, the queries that [trackQueries] named as
    executed or removed, the row records of the CVR as loaded, the reference
    counts of the rows received so far in this update, and the row records as
    the pending writes will leave them. *)
Record QueryDrivenUpdater : Type := {
  expectedVersion : CVRVersion;
  newVersion : CVRVersion;
  removedOrExecutedQueryIDs : gset string;
  existingRows : gmap RowID RowRecord;
  receivedRows : gmap RowID (gmap string Z);
  rowRecords : gmap RowID RowRecord;
}.

(** Modelled from the spec: row-key change handling (cvr.ts is not part of
    the sources).  Upstream provides the prior and the next key of a row whose
    key changed: the row arrives under its next key and its contents still
    hold the columns of the prior one, as in test 'row key changed'.  [old] is
    a prior key of the received row if it names another row of the same table
    and the contents hold each of its columns with the same value. *)
Definition isPriorKeyOf (id : RowID) (update : RowUpdate) (old : RowID) : bool :=
  bool_decide (schema old = schema id ∧ table old = table id ∧ old ≠ id ∧
               rowKey old ≠ []) &&
  forallb (fun column => bool_decide (column ∈ contents update)) (rowKey old).

(** Modelled from the spec: the lookup of the existing record of a received
    row (cvr.ts is not part of the sources): the record stored under the key
    of the row or else a record stored under a prior key of it, together with
    the key it is stored under. *)
Definition priorRecord (existing : gmap RowID RowRecord) (id : RowID)
    (update : RowUpdate) : option (RowID * RowRecord) :=
  match existing !! id with
  | Some r => Some (id, r)
  | None =>
      head (filter (fun entry => isPriorKeyOf id update entry.1 = true)
                   (map_to_list existing))
  end.

(** Modelled from the spec: the reference counts of the row once the entry
    is merged in (cvr.ts is not part of the sources): the deltas are added to
    the counts received earlier in this update, or else to the stored counts
    less those of the removed and executed queries. *)
Definition mergedRefCounts (u : QueryDrivenUpdater) (existing : option RowRecord)
    (id : RowID) (update : RowUpdate) : gmap string Z :=
  match receivedRows u !! id with
  | Some previouslyReceived => addRefCounts previouslyReceived (refCountDeltas update)
  | None =>
      addRefCounts
        (withoutQueries (removedOrExecutedQueryIDs u)
           (default ∅ (existing ≫= refCounts)))
        (refCountDeltas update)
  end.

Arguments mergedRefCounts : simpl never.

Definition wasLive (existing : option RowRecord) : bool :=
  match existing with
  | Some r => isLive (refCounts r)
  | None => false
  end.

(** The received row version is greater than the stored one; a row without a
    record has no stored version to compare with. *)
Definition versionAdvanced (existing : option RowRecord) (update : RowUpdate) : bool :=
  match existing with
  | Some r => str_gt (version update) (rowVersion r)
  | None => false
  end.

Definition crossesLiveBoundary (existing : option RowRecord) (merged : gmap string Z)
  : bool :=
  negb (Bool.eqb (wasLive existing) (isLive (Some merged))).

(** Modelled from the spec: the per-row step of
    [CVRQueryDrivenUpdater.received] (cvr.ts is not part of the sources).
    The existing record is looked up, under the key of the row or a prior key,
    and the received deltas are merged into the reference counts.  If the
    received row version is greater than the stored one or the row crosses the
    live/dead boundary, the record's [patchVersion] becomes [newVersion],
    otherwise it is preserved.  The record is written under the key of the
    row, in place of the one under a prior key; a row that is not live is
    written as a tombstone, and a row unknown to the CVR that is not live
    leaves no record (test 'advance with delete that cancels out add').  A
    [put] is emitted, at the row's effective [patchVersion], for every
    received row that is live after the merge: a row reported again yields
    identical output, and a row already present at the received version is
    put at its old [patchVersion], as test 'desired to got' expects. *)
Definition receivedRow (u : QueryDrivenUpdater) (id : RowID) (update : RowUpdate)
  : QueryDrivenUpdater * list PatchToVersion :=
  let prior := priorRecord (existingRows u) id update in
  let existing := snd <$> prior in
  let merged := mergedRefCounts u existing id update in
  let live := isLive (Some merged) in
  match existing, live with
  | None, false =>
      ({| expectedVersion := expectedVersion u;
          newVersion := newVersion u;
          removedOrExecutedQueryIDs := removedOrExecutedQueryIDs u;
          existingRows := existingRows u;
          receivedRows := <[id := merged]> (receivedRows u);
          rowRecords := delete id (rowRecords u) |}, [])
  | _, _ =>
      let effectivePatchVersion :=
        match existing with
        | Some r =>
            if versionAdvanced existing update || crossesLiveBoundary existing merged
            then newVersion u
            else patchVersion r
        | None => newVersion u
        end in
      let record :=
        {| rowVersion := version update;
           patchVersion := effectivePatchVersion;
           refCounts := if live then Some merged else None |} in
      let kept :=
        match prior with
        | Some (old, _) => delete old (rowRecords u)
        | None => rowRecords u
        end in
      ({| expectedVersion := expectedVersion u;
          newVersion := newVersion u;
          removedOrExecutedQueryIDs := removedOrExecutedQueryIDs u;
          existingRows := existingRows u;
          receivedRows := <[id := merged]> (receivedRows u);
          rowRecords := <[id := record]> kept |},
       if live
       then [{| patch := RowPut id (contents update);
                toVersion := effectivePatchVersion |}]
       else [])
  end.

(** Modelled from the spec: [CVRQueryDrivenUpdater.received] (cvr.ts is not
    part of the sources), which treats the received rows one after the other,
    in the order of the map, and returns the patches in that order. *)
Fixpoint received (u : QueryDrivenUpdater) (rows : list (RowID * RowUpdate))
  : QueryDrivenUpdater * list PatchToVersion :=
  match rows with
  | [] => (u, [])
  | (id, update) :: rest =>
      let '(u1, patches1) := receivedRow u id update in
      let '(u2, patches2) := received u1 rest in
      (u2, patches1 ++ patches2)
  end.

(** The keys at which an entry of [received] reads or writes row records:
    the key of the row and the key its existing record is stored under. *)
Definition touched (existing : gmap RowID RowRecord) (id : RowID)
    (update : RowUpdate) : list RowID :=
  id :: match priorRecord existing id update with
        | Some (old, _) => [old]
        | None => []
        end.

(** Modelled from the spec: the step of
    [CVRQueryDrivenUpdater.deleteUnreferencedRows] for one row of the CVR
    (cvr.ts is not part of the sources).  The reference counts of the row
    after [trackQueries] and [received] are the received ones, or else the
    stored ones less those of the removed and executed queries.  A row that
    was live and no longer is becomes a tombstone at [newVersion] and a [del]
    is emitted for it; a row that stays live keeps its [patchVersion].  A row
    whose record was replaced under a new key is left alone. *)
Definition deleteUnreferencedRow (u : QueryDrivenUpdater) (id : RowID)
    (existing : RowRecord) : option RowRecord * list PatchToVersion :=
  let deletion := [{| patch := RowDel id; toVersion := newVersion u |}] in
  match receivedRows u !! id, rowRecords u !! id with
  | Some merged, Some record =>
      if isLive (refCounts existing) && negb (isLive (Some merged))
      then (Some {| rowVersion := rowVersion record;
                    patchVersion := newVersion u;
                    refCounts := None |}, deletion)
      else (Some record, [])
  | None, Some record =>
      let remaining :=
        withoutQueries (removedOrExecutedQueryIDs u) (default ∅ (refCounts existing)) in
      if negb (isLive (refCounts existing)) then (Some record, [])
      else if isLive (Some remaining)
      then (Some {| rowVersion := rowVersion record;
                    patchVersion := patchVersion record;
                    refCounts := Some remaining |}, [])
      else (Some {| rowVersion := rowVersion record;
                    patchVersion := newVersion u;
                    refCounts := None |}, deletion)
  | _, None => (None, [])
  end.

(** Modelled from the spec: [deleteUnreferencedRows] (cvr.ts is not part of
    the sources), which walks the rows of the CVR. *)
Definition deleteUnreferencedRows (u : QueryDrivenUpdater)
  : QueryDrivenUpdater * list PatchToVersion :=
  let walked :=
    map (fun entry => (entry.1, deleteUnreferencedRow u entry.1 entry.2))
        (map_to_list (existingRows u)) in
  ({| expectedVersion := expectedVersion u;
      newVersion := newVersion u;
      removedOrExecutedQueryIDs := removedOrExecutedQueryIDs u;
      existingRows := existingRows u;
      receivedRows := receivedRows u;
      rowRecords :=
        fold_right (fun step records =>
                      match step.2.1 with
                      | Some record => <[step.1 := record]> records
                      | None => records
                      end)
                   (rowRecords u) walked |},
   flat_map (fun step => step.2.2) walked).

(** *** Notions used to state the properties of [received] *)

(** Several calls of [received], one after the other, with the patches each
    call returns. *)
Fixpoint receivedAll (u : QueryDrivenUpdater)
    (calls : list (list (RowID * RowUpdate)))
  : QueryDrivenUpdater * list (list PatchToVersion) :=
  match calls with
  | [] => (u, [])
  | rows :: rest =>
      let '(u1, patches) := received u rows in
      let '(u2, more) := receivedAll u1 rest in
      (u2, patches :: more)
  end.

(** The records an updater holds for the given rows. *)
Definition recordsAt (u : QueryDrivenUpdater) (ids : list RowID)
  : list (option RowRecord) :=
  map (fun id => rowRecords u !! id) ids.

(** *** The store and the three updaters, as far as versions go *)

Record CVRSnapshot : Type := {
  cvr_id : string;
  cvr_version : CVRVersion;
  lastActive : Z;
  replicaVersion : option string;
}.

(** The [instances] row of one client group. *)
Record Instance : Type := {
  clientGroupID : string;
  inst_version : CVRVersion;
  inst_lastActive : Z;
  inst_replicaVersion : option string;
  owner : option string;
  grantedAt : option Z;
}.

Inductive StoreError : Type :=
| ConcurrentModificationException
| OwnershipError.

(** A [CVRStore] object after [load]: the task that owns it and the
    [lastConnect] it claimed ownership with. *)
Record CVRStore : Type := {
  taskID : string;
  loadedAt : Z;
}.

(** Modelled from the spec: [CVRStore.load] (cvr-store.ts is not part of the
    sources).  Ownership is claimed by writing [(owner, grantedAt = lastConnect)]
    to the instance row; a later grant makes the load fail with
    [OwnershipError].  A grant of the same instant is taken over, as test
    'detects ownership change' loads at the [grantedAt] already stored. *)
Definition load (task : string) (lastConnect : Z) (inst : Instance)
  : result StoreError (Instance * CVRStore * CVRSnapshot) :=
  if bool_decide (default 0 (grantedAt inst) <= lastConnect)%Z then
    Ok ({| clientGroupID := clientGroupID inst;
           inst_version := inst_version inst;
           inst_lastActive := inst_lastActive inst;
           inst_replicaVersion := inst_replicaVersion inst;
           owner := Some task;
           grantedAt := Some lastConnect |},
        {| taskID := task; loadedAt := lastConnect |},
        {| cvr_id := clientGroupID inst;
           cvr_version := inst_version inst;
           lastActive := inst_lastActive inst;
           replicaVersion := inst_replicaVersion inst |})
  else Throw OwnershipError.

(** The base shared by the updaters: the snapshot that was loaded and the
    snapshot being edited, whose version is [newVersion]. *)
Record Updater : Type := {
  store : CVRStore;
  orig : CVRSnapshot;
  edited : CVRSnapshot;
}.

(** Modelled from the spec: [new CVRUpdater(store, cvr, replicaVersion)]
    (cvr.ts is not part of the sources); it only records presence. *)
Definition CVRUpdater (st : CVRStore) (cvr : CVRSnapshot) : Updater :=
  {| store := st; orig := cvr; edited := cvr |}.

Definition setVersion (u : Updater) (v : CVRVersion) : Updater :=
  {| store := store u;
     orig := orig u;
     edited := {| cvr_id := cvr_id (edited u);
                  cvr_version := v;
                  lastActive := lastActive (edited u);
                  replicaVersion := replicaVersion (edited u) |} |}.

(** Modelled from the spec: the version bump of [CVRConfigDrivenUpdater] and
    of [trackQueries] (cvr.ts is not part of the sources): on any change
    [newVersion] advances to [nextMinor(expectedVersion)], exactly once per
    flush. *)
Definition ensureNewVersion (u : Updater) : Updater :=
  match cmpVersions (cvr_version (orig u)) (cvr_version (edited u)) with
  | Eq => setVersion u (nextMinor (cvr_version (orig u)))
  | _ => u
  end.

(** Modelled from the spec: [new CVRQueryDrivenUpdater(store, cvr,
    stateVersion, replicaVersion)] (cvr.ts is not part of the sources),
    entered with a target state version to which the version is advanced. *)
Definition CVRQueryDrivenUpdater (st : CVRStore) (cvr : CVRSnapshot)
    (targetStateVersion : string) (replica : string) : Updater :=
  let u := {| store := st;
              orig := cvr;
              edited := {| cvr_id := cvr_id cvr;
                           cvr_version := cvr_version cvr;
                           lastActive := lastActive cvr;
                           replicaVersion := Some replica |} |} in
  if str_gt targetStateVersion (stateVersion (cvr_version cvr))
  then setVersion u (advance (cvr_version cvr) targetStateVersion)
  else u.

(** Modelled from the spec: [flush] of the updaters through
    [CVRStore.flush] (cvr.ts and cvr-store.ts are not part of the sources).
    The stored version must be the expected one and the ownership must be that
    of the load; then the edited snapshot is written and [lastActive] is
    bumped. *)
Definition flush (u : Updater) (now : Z) (inst : Instance)
  : result StoreError (Instance * CVRSnapshot) :=
  if negb (bool_decide (owner inst = Some (taskID (store u)) ∧
                        grantedAt inst = Some (loadedAt (store u))))
  then Throw OwnershipError
  else if negb (bool_decide (inst_version inst = cvr_version (orig u)))
  then Throw ConcurrentModificationException
  else
    Ok ({| clientGroupID := clientGroupID inst;
           inst_version := cvr_version (edited u);
           inst_lastActive := now;
           inst_replicaVersion := replicaVersion (edited u);
           owner := owner inst;
           grantedAt := grantedAt inst |},
        {| cvr_id := cvr_id (edited u);
           cvr_version := cvr_version (edited u);
           lastActive := now;
           replicaVersion := replicaVersion (edited u) |}).

(** What a syncer does between [load] and [flush]. *)
Inductive Work : Type :=
| RecordPresence                                  (* [CVRUpdater] *)
| ConfigUpdate (changed : bool)                   (* [CVRConfigDrivenUpdater] *)
| QueryUpdate (targetStateVersion replica : string) (changed : bool).

Definition updaterFor (st : CVRStore) (cvr : CVRSnapshot) (w : Work) : Updater :=
  match w with
  | RecordPresence => CVRUpdater st cvr
  | ConfigUpdate changed =>
      let u := CVRUpdater st cvr in
      if changed then ensureNewVersion u else u
  | QueryUpdate target replica changed =>
      let u := CVRQueryDrivenUpdater st cvr target replica in
      if changed then ensureNewVersion u else u
  end.

(** Whether the work makes the updater advance its version: a change of the
    configuration, a change of the tracked queries, or a later state
    version. *)
Definition advancesVersion (cvr : CVRSnapshot) (w : Work) : bool :=
  match w with
  | RecordPresence => false
  | ConfigUpdate changed => changed
  | QueryUpdate target _ changed =>
      changed || str_gt target (stateVersion (cvr_version cvr))
  end.

(** Steps of the syncer processes sharing one CVR: a process loads and
    prepares an updater, or flushes the updater it holds. *)
Inductive StoreEvent : Type :=
| DoLoad (process : nat) (task : string) (lastConnect : Z) (w : Work)
| DoFlush (process : nat) (now : Z).

Record System : Type := {
  instance : Instance;
  updaters : gmap nat Updater;
  flushed : list CVRVersion;     (* versions of the successful flushes, oldest first *)
}.

Definition storeStep (s : System) (ev : StoreEvent) : System :=
  match ev with
  | DoLoad p task lastConnect w =>
      match load task lastConnect (instance s) with
      | Ok (inst, st, cvr) =>
          {| instance := inst;
             updaters := <[p := updaterFor st cvr w]> (updaters s);
             flushed := flushed s |}
      | Throw _ => s
      end
  | DoFlush p now =>
      match updaters s !! p with
      | Some u =>
          match flush u now (instance s) with
          | Ok (inst, cvr) =>
              {| instance := inst;
                 updaters := delete p (updaters s);
                 flushed := flushed s ++ [cvr_version cvr] |}
          | Throw _ =>
              {| instance := instance s;
                 updaters := delete p (updaters s);
                 flushed := flushed s |}
          end
      | None => s
      end
  end.

Definition storeRun (s : System) (evs : list StoreEvent) : System :=
  fold_left storeStep evs s.

Definition startSystem (inst : Instance) : System :=
  {| instance := inst; updaters := ∅; flushed := [] |}.

(** Each version of the list is at least (resp. greater than) the one before
    it. *)
Definition nonDecreasing (vs : list CVRVersion) : Prop :=
  ∀ i a b, vs !! i = Some a → vs !! S i = Some b → versionLe a b.

Definition strictlyIncreasing (vs : list CVRVersion) : Prop :=
  ∀ i a b, vs !! i = Some a → vs !! S i = Some b → versionLt a b.

(** What holds of the system after any number of steps from an instance at
    version [v0]: the stored version is the one flushed last, the flushed
    versions never decrease, and no updater's version is behind the version it
    was loaded at. *)
Record Consistent (v0 : CVRVersion) (s : System) : Prop := {
  cons_stored : last (v0 :: flushed s) = Some (inst_version (instance s));
  cons_flushed : nonDecreasing (v0 :: flushed s);
  cons_updaters : ∀ p u, updaters s !! p = Some u →
                         versionLe (cvr_version (orig u)) (cvr_version (edited u));
}.

End CVR.

(** ** Sample data

    Concrete pokes, records and rows on which the properties of the second
    part are exercised.  Numbers are integers printed in decimal, ASTs are
    strings, [hash] stands in for [h128] and the client store is the journal
    of the operations applied to it. *)

Module Samples.
Import Keys Pokes.

Definition hash (s : string) : string := "#" +:+ s.

Definition Op : Type := PatchOperationInternal (number:=Z) (AST:=string).

Definition journal (store : list Op) (op : Op) : list Op := store ++ [op].

Definition issuesSchema : Schema :=
  {| tables := {[ "issues" := {| primaryKey := ["id"] |} ]} |}.

Definition emptyPart (id : string) : PokePartBody (number:=Z) (AST:=string) :=
  {| part_pokeID := id;
     lastMutationIDChanges := None;
     clientsPatch := None;
     desiredQueriesPatches := None;
     gotQueriesPatch := None;
     rowsPatch := None |}.

(** [null -> "01"]: client [c1] appears, row [a] is put. *)
Definition poke1 : PokeAccumulator (number:=Z) (AST:=string) :=
  {| pokeStart := {| pokeID := "p1"; baseCookie := None; cookie := "01" |};
     parts :=
       [ {| part_pokeID := "p1";
            lastMutationIDChanges := Some {[ "c1" := 1 ]};
            clientsPatch := Some [ClientsPut "c1"];
            desiredQueriesPatches := Some [("c1", [QueriesPut "h1" "issues-ast"])];
            gotQueriesPatch := None;
            rowsPatch := Some [RowPut "issues" {[ "id" := VString "a" ]}] |} ] |}.

(** ["01" -> "02"], in two parts that both set the last mutation ID of [c1]. *)
Definition poke2 : PokeAccumulator (number:=Z) (AST:=string) :=
  {| pokeStart := {| pokeID := "p2"; baseCookie := Some "01"; cookie := "02" |};
     parts :=
       [ {| part_pokeID := "p2";
            lastMutationIDChanges := Some {[ "c1" := 2; "c2" := 5 ]};
            clientsPatch := None;
            desiredQueriesPatches := None;
            gotQueriesPatch := Some [QueriesPut "h1" "issues-ast"];
            rowsPatch := Some [RowDel "issues" {[ "id" := VString "a" ]}] |};
         {| part_pokeID := "p2";
            lastMutationIDChanges := Some {[ "c1" := 3 ]};
            clientsPatch := None;
            desiredQueriesPatches := None;
            gotQueriesPatch := None;
            rowsPatch := Some [RowPut "issues" {[ "id" := VNumber 7 ]}] |} ] |}.

(** ["04" -> "05"]: after [poke1] this leaves a gap. *)
Definition gapPoke : PokeAccumulator (number:=Z) (AST:=string) :=
  {| pokeStart := {| pokeID := "p4"; baseCookie := Some "04"; cookie := "05" |};
     parts := [emptyPart "p4"] |}.

(** [null -> "03"]: sets the last mutation ID of [c1] to 5. *)
Definition aheadPoke : PokeAccumulator (number:=Z) (AST:=string) :=
  {| pokeStart := {| pokeID := "p5"; baseCookie := None; cookie := "03" |};
     parts :=
       [ {| part_pokeID := "p5";
            lastMutationIDChanges := Some {[ "c1" := 5 ]};
            clientsPatch := None;
            desiredQueriesPatches := None;
            gotQueriesPatch := None;
            rowsPatch := None |} ] |}.

(** ["01" -> "04"]: after [aheadPoke] its base cookie lies behind the cookie
    reached, which is no gap; it sets the last mutation ID of [c1] to 3. *)
Definition behindPoke : PokeAccumulator (number:=Z) (AST:=string) :=
  {| pokeStart := {| pokeID := "p6"; baseCookie := Some "01"; cookie := "04" |};
     parts :=
       [ {| part_pokeID := "p6";
            lastMutationIDChanges := Some {[ "c1" := 3 ]};
            clientsPatch := None;
            desiredQueriesPatches := None;
            gotQueriesPatch := None;
            rowsPatch := None |} ] |}.

(** A handler that is not receiving and has nothing buffered. *)
Definition idleHandler : PokeHandler (number:=Z) (AST:=string) :=
  {| receivingPoke := None;
     pokeBuffer := [];
     pokePlaybackLoopRunning := false;
     onPokeErrorCalls := 0 |}.

(** A poke whose only row patch has [null] in its key column. *)
Definition badRowPoke : PokeAccumulator (number:=Z) (AST:=string) :=
  {| pokeStart := {| pokeID := "p9"; baseCookie := None; cookie := "01" |};
     parts :=
       [ {| part_pokeID := "p9";
            lastMutationIDChanges := None;
            clientsPatch := None;
            desiredQueriesPatches := None;
            gotQueriesPatch := None;
            rowsPatch := Some [RowPut "issues" {[ "id" := VNull ]}] |} ] |}.

Definition freshClient : ClientState (Store:=list Op) :=
  {| cs_cookie := None; cs_lastMutationIDs := ∅; cs_store := [] |}.

Definition receivingHandler : PokeHandler (number:=Z) (AST:=string) :=
  {| receivingPoke := Some {| pokeStart := pokeStart poke2; parts := [] |};
     pokeBuffer := [poke1];
     pokePlaybackLoopRunning := true;
     onPokeErrorCalls := 0 |}.

(** A decimal reader standing in for [parseInt] on plain digit strings. *)
Definition digitValue (c : ascii) : option Z :=
  let n := Z.of_N (N_of_ascii c) in
  if (48 <=? n)%Z && (n <=? 57)%Z then Some (n - 48)%Z else None.

Fixpoint readDigits (acc : Z) (s : string) : option Z :=
  match s with
  | EmptyString => Some acc
  | String c s' =>
      match digitValue c with
      | Some d => readDigits (10 * acc + d)%Z s'
      | None => None
      end
  end.

Definition parseDecimal (s : string) : option Z :=
  match s with
  | EmptyString => None
  | _ => readDigits 0 s
  end.

(** The user-data header is taken to hold the user ID itself. *)
Definition plainUserID (s : string) : option (option string) := Some (Some s).

Definition connectURL : Connect.URL :=
  {| Connect.href := "ws://room/connect?clientID=c1&baseCookie=4&ts=100&lmid=3";
     Connect.searchParams :=
       [("clientID", "c1"); ("baseCookie", "4"); ("ts", "100"); ("lmid", "3")] |}.

Definition connectHeaders : gmap string string := {[ "x-user-data" := "alice" ]}.

(** A room at version 7 in which [c1] is known with last mutation ID 3 and is
    connected through socket 1. *)
Definition room : Connect.World :=
  {| Connect.sockets := {[ 1%nat := Connect.newSocket ]};
     Connect.storage :=
       {| Connect.clientRecords :=
            {[ "c1" := {| Connect.cr_baseCookie := Some 4;
                          Connect.lastMutationID := 3 |} ]};
          Connect.version := Some 7;
          Connect.connectedClients := {[ "c1" ]} |};
     Connect.clients :=
       {[ "c1" := {| Connect.socket := 1%nat;
                     Connect.userData := {| Connect.userID := "alice" |};
                     Connect.clockBehindByMs := None;
                     Connect.pending := [] |} ]} |}.

(** The same room before any mutation of [c1] was recorded. *)
Definition staleRoom : Connect.World :=
  {| Connect.sockets := ∅;
     Connect.storage :=
       {| Connect.clientRecords := ∅;
          Connect.version := Some 7;
          Connect.connectedClients := ∅ |};
     Connect.clients := ∅ |}.

(** Delegate and request histories for the connection loop. *)
Definition loopDelegate : ConnLoop.ConnectionLoopDelegate :=
  {| ConnLoop.debounceDelay := 10;
     ConnLoop.watchdogTimer := None;
     ConnLoop.maxConnections := 2;
     ConnLoop.maxDelayMs := 60000;
     ConnLoop.minDelayMs := 30 |}.

Definition sendOk (d : Z) : ConnLoop.SendRecord :=
  {| ConnLoop.duration := d; ConnLoop.ok := true |}.

Definition sendFailed (d : Z) : ConnLoop.SendRecord :=
  {| ConnLoop.duration := d; ConnLoop.ok := false |}.

(** Two successes followed by a failure. *)
Definition failedLast : list ConnLoop.SendRecord :=
  [sendOk 100; sendOk 200; sendFailed 300].

(** A success, a failure, and the success that recovers from it. *)
Definition recoveredLast : list ConnLoop.SendRecord :=
  [sendOk 100; sendFailed 300; sendOk 200].

(** Three successes of three-digit durations. *)
Definition steady : list ConnLoop.SendRecord :=
  [sendOk 300; sendOk 100; sendOk 200].

(** The rows and the updaters of the CVR test-suite, as they stand after
    [trackQueries]. *)
Definition issueRow (key : string) : CVR.RowID :=
  {| CVR.schema := "public"; CVR.table := "issues"; CVR.rowKey := [("id", key)] |}.

Definition ROW_ID1 : CVR.RowID := issueRow "123".
Definition ROW_ID2 : CVR.RowID := issueRow "321".
Definition ROW_ID3 : CVR.RowID := issueRow "888".

(** The rows of test 'row key changed' under their new key column. *)
Definition rekeyedRow (key : string) : CVR.RowID :=
  {| CVR.schema := "public"; CVR.table := "issues"; CVR.rowKey := [("newID", key)] |}.

Definition atState (stateVersion : string) : CVR.CVRVersion :=
  {| CVR.stateVersion := stateVersion; CVR.minorVersion := None |}.

Definition atMinor (stateVersion : string) (minor : N) : CVR.CVRVersion :=
  {| CVR.stateVersion := stateVersion; CVR.minorVersion := Some minor |}.

Definition rowRecord (rowVersion : string) (patchVersion : CVR.CVRVersion)
    (refCounts : option (gmap string Z)) : CVR.RowRecord :=
  {| CVR.rowVersion := rowVersion;
     CVR.patchVersion := patchVersion;
     CVR.refCounts := refCounts |}.

Definition rowUpdate (version : string) (refCounts : gmap string Z)
    (contents : list (string * string)) : CVR.RowUpdate :=
  {| CVR.version := version;
     CVR.refCountDeltas := refCounts;
     CVR.contents := contents |}.

Definition putAt (toVersion : CVR.CVRVersion) (id : CVR.RowID)
    (contents : list (string * string)) : CVR.PatchToVersion :=
  {| CVR.patch := CVR.RowPut id contents; CVR.toVersion := toVersion |}.

Definition delAt (toVersion : CVR.CVRVersion) (id : CVR.RowID) : CVR.PatchToVersion :=
  {| CVR.patch := CVR.RowDel id; CVR.toVersion := toVersion |}.

(** An updater on the given rows after [trackQueries] named the given
    queries and before any row is received. *)
Definition tracking (expected new : CVR.CVRVersion) (queries : gset string)
    (rows : gmap CVR.RowID CVR.RowRecord) : CVR.QueryDrivenUpdater :=
  {| CVR.expectedVersion := expected;
     CVR.newVersion := new;
     CVR.removedOrExecutedQueryIDs := queries;
     CVR.existingRows := rows;
     CVR.receivedRows := ∅;
     CVR.rowRecords := rows |}.

(** Test 'desired to got': [oneHash] is executed for the first time. *)
Definition desiredToGot : CVR.QueryDrivenUpdater :=
  tracking (atState "1aa") (atMinor "1aa" 1) {[ "oneHash" ]}
    {[ ROW_ID1 := rowRecord "03" (atState "1a0") (Some {[ "twoHash" := 1 ]});
       ROW_ID2 := rowRecord "03" (atState "1a0") (Some {[ "twoHash" := 1 ]});
       ROW_ID3 := rowRecord "03" (atState "19z") None;
       issueRow "777" := rowRecord "03" (atState "189") None;
       issueRow "456" := rowRecord "03" (atState "1aa") None ]}.

Definition receivedRow1 : list (CVR.RowID * CVR.RowUpdate) :=
  [ (ROW_ID1, rowUpdate "03" {[ "oneHash" := 1 ]} [("id", "should-show-up-in-patch")]) ].

Definition updateRow2 : CVR.RowUpdate :=
  rowUpdate "03" {[ "oneHash" := 1 ]} [("id", "same column selection as twoHash")].

Definition updateRow3 : CVR.RowUpdate :=
  rowUpdate "09" {[ "oneHash" := 1 ]} [("id", "new version patch")].

Definition receivedRows23 : list (CVR.RowID * CVR.RowUpdate) :=
  [ (ROW_ID2, updateRow2); (ROW_ID3, updateRow3) ].

(** A row reported with an unchanged count. *)
Definition unchangedRow1 : CVR.RowUpdate :=
  rowUpdate "03" {[ "twoHash" := 0 ]} [("id", "should-show-up-in-patch")].

(** The rows of tests 'new transformation hash', 'multiple executed queries'
    and 'unchanged queries'. *)
Definition gotRows : gmap CVR.RowID CVR.RowRecord :=
  {[ ROW_ID1 := rowRecord "03" (atMinor "1aa" 1)
                  (Some {[ "oneHash" := 1; "twoHash" := 1 ]});
     ROW_ID2 := rowRecord "03" (atState "1a0") (Some {[ "twoHash" := 1 ]});
     ROW_ID3 := rowRecord "09" (atMinor "1aa" 1) (Some {[ "oneHash" := 1 ]});
     issueRow "777" := rowRecord "03" (atState "189") None;
     issueRow "456" := rowRecord "03" (atState "1ba") None ]}.

(** Test 'new transformation hash': [oneHash] is executed again. *)
Definition newTransformationHash : CVR.QueryDrivenUpdater :=
  tracking (atState "1ba") (atMinor "1ba" 1) {[ "oneHash" ]} gotRows.

(** Test 'multiple executed queries': both queries are executed again. *)
Definition multipleExecutedQueries : CVR.QueryDrivenUpdater :=
  tracking (atState "1ba") (atMinor "1ba" 1) {[ "oneHash"; "twoHash" ]} gotRows.

(** Test 'unchanged queries': both queries are executed, with unchanged
    transformation hashes, so that the version stays. *)
Definition unchangedQueries : CVR.QueryDrivenUpdater :=
  tracking (atState "1ba") (atState "1ba") {[ "oneHash"; "twoHash" ]} gotRows.

(** Test 'removed query': [oneHash] is removed. *)
Definition removedQuery : CVR.QueryDrivenUpdater :=
  tracking (atState "1ba") (atMinor "1ba" 1) {[ "oneHash" ]}
    {[ issueRow "777" := rowRecord "03" (atState "189") None;
       issueRow "456" := rowRecord "03" (atState "19z") None;
       ROW_ID1 := rowRecord "03" (atMinor "1aa" 1)
                    (Some {[ "oneHash" := 1; "twoHash" := 1 ]});
       ROW_ID2 := rowRecord "03" (atState "1ba") (Some {[ "twoHash" := 1 ]});
       ROW_ID3 := rowRecord "09" (atMinor "1aa" 1) (Some {[ "oneHash" := 1 ]}) ]}.

(** Test 'row key changed': [oneHash] is executed at state version [1bb]. *)
Definition rowKeyChanged : CVR.QueryDrivenUpdater :=
  tracking (atState "1ba") (atState "1bb") {[ "oneHash" ]}
    {[ ROW_ID1 := rowRecord "03" (atMinor "1aa" 1) (Some {[ "oneHash" := 1 ]});
       ROW_ID2 := rowRecord "03" (atState "1a0") (Some {[ "oneHash" := 1 ]}) ]}.

Definition rekeyedUpdate1 : CVR.RowUpdate :=
  rowUpdate "03" {[ "oneHash" := 1 ]}
    [("id", "123"); ("newID", "1foo"); ("value", "foobar")].

Definition rekeyedUpdate3 : CVR.RowUpdate :=
  rowUpdate "09" {[ "oneHash" := 1 ]}
    [("id", "888"); ("newID", "3baz"); ("value", "barfoo")].

(** Test 'advance with delete that cancels out add': no query is tracked. *)
Definition advanceOnly : CVR.QueryDrivenUpdater :=
  tracking (atState "1aa") (atState "1ba") ∅
    {[ ROW_ID1 := rowRecord "03" (atState "1a0") (Some {[ "oneHash" := 1 ]});
       ROW_ID2 := rowRecord "03" (atState "1a0") (Some {[ "oneHash" := 1 ]}) ]}.

(** The instance row of test 'update active time'. *)
Definition activeInstance : CVR.Instance :=
  {| CVR.clientGroupID := "abc123";
     CVR.inst_version := atMinor "1a9" 2;
     CVR.inst_lastActive := 1713830400000;
     CVR.inst_replicaVersion := Some "112";
     CVR.owner := None;
     CVR.grantedAt := None |}.

Definition LAST_CONNECT : Z := 1709251200000.

End Samples.

(** ** litestream: [restoreReplica] *)

Module Litestream.

(** How a call of [restoreReplica] ends: it returns after [tryRestore] found
    the replica, it returns after logging 'no litestream backup found', or it
    throws. *)
Inductive Outcome : Type :=
| Restored
| NoBackupFound
| Failed (message : string).

Definition MAX_ATTEMPTS_EXCEEDED : string :=
  "max attempts exceeded restoring replica".

(** The outcome of a call, the number of calls of [tryRestore] and the number
    of sleeps of [retryIntervalMs] it made. *)
Record Run : Type := {
  outcome : Outcome;
  attempts : nat;
  sleeps : nat;
}.

Section WithTryRestore.

(** The result of the [i]-th call of [tryRestore], counted from 0: whether
    the replica file exists after the litestream process exited, or the
    rejection when the process failed. *)
Variable tryRestore : nat → result string bool.

(** [maxRetries] is taken to be an integer. *)
Variable maxRetries : Z.

(** The [for] loop from iteration [i] on, [remaining] being the number of
    iterations left before [i < maxRetries] fails. *)
Fixpoint restoreFrom (remaining : nat) (i : nat) : Run :=
  match remaining with
  | O => {| outcome := Failed MAX_ATTEMPTS_EXCEEDED; attempts := 0; sleeps := 0 |}
  | S remaining' =>
      let slept := if (0 <? i)%nat then 1%nat else 0%nat in
      match tryRestore i with
      | Throw e => {| outcome := Failed e; attempts := 1; sleeps := slept |}
      | Ok true => {| outcome := Restored; attempts := 1; sleeps := slept |}
      | Ok false =>
          if (maxRetries =? 1)%Z then
            {| outcome := NoBackupFound; attempts := 1; sleeps := slept |}
          else
            let run := restoreFrom remaining' (S i) in
            {| outcome := outcome run;
               attempts := S (attempts run);
               sleeps := (slept + sleeps run)%nat |}
      end
  end.

Definition restoreReplica : Run := restoreFrom (Z.to_nat maxRetries) 0.

(** *** Notions used to state the properties of [restoreReplica] *)

(** Every attempt before attempt [k] reported that the replica is missing. *)
Definition nothingBefore (k : nat) : Prop :=
  ∀ j, (j < k)%nat → tryRestore j = Ok false.

End WithTryRestore.

End Litestream.

(** ** context.ts: [ZeroContext] *)

Module Context.
Import Keys.

(** [s.indexOf(search, position)], [-1] when there is no occurrence at or
    after [position]. *)
Definition String_indexOf (s search : string) (position : nat) : Z :=
  match String.index position search s with
  | Some i => Z.of_nat i
  | None => -1
  end.

(** [s.slice(start, end)]: a negative index counts from the end, indices are
    clamped to the string. *)
Definition String_slice (s : string) (start end_ : Z) : string :=
  let len := Z.of_nat (String.length s) in
  let from := if (start <? 0)%Z then Z.max (len + start) 0 else Z.min start len in
  let to := if (end_ <? 0)%Z then Z.max (len + end_) 0 else Z.min end_ len in
  substring (Z.to_nat from) (Z.to_nat (Z.max (to - from) 0)) s.

(** The table name [processChanges] reads from the key of a diff. *)
Definition tableNameOfKey (key : string) : string :=
  let slash := String_indexOf key "/" (String.length ENTITIES_KEY_PREFIX) in
  String_slice key (Z.of_nat (String.length ENTITIES_KEY_PREFIX)) slash.

Section WithValues.

(** The values of a diff are JSON values; only [typeof v === 'object'] is
    asked of them. *)
Context {JSONValue : Type}.
Variable isObject : JSONValue → bool.

(** An entry of an [ExperimentalNoIndexDiff]. *)
Inductive Diff : Type :=
| DiffAdd (key : string) (newValue : JSONValue)
| DiffDel (key : string) (oldValue : JSONValue)
| DiffChange (key : string) (oldValue newValue : JSONValue).

Definition diffKey (diff : Diff) : string :=
  match diff with
  | DiffAdd key _ | DiffDel key _ | DiffChange key _ _ => key
  end.

(** The changes handed to [source.push]. *)
Inductive SourceChange : Type :=
| AddChange (row : JSONValue)
| RemoveChange (row : JSONValue)
| EditChange (row oldRow : JSONValue).

(** The fields of the context.  A [MemorySource] is the list of the changes
    pushed to it so far; [#sources] caches [undefined] ([Some None]) for the
    tables that are not in the schema.  [tables] is the object [#tables] as
    the property read [#tables[name]] sees it.  The injected [batchViewUpdates]
    either runs the callback it is given before it returns or does not run
    it.  Commit listeners are numbered and kept in insertion order, as a
    [Set] iterates; [listenerCalls] records the calls made to them. *)
Record ZeroContext : Type := {
  sources : gmap string (option (list SourceChange));
  tables : gmap string Pokes.TableSchema;
  batchViewUpdatesApplies : bool;
  commitListeners : list nat;
  listenerCalls : list nat;
}.

(** Returns the context and whether a source (rather than [undefined]) is
    returned; the source is then the one cached under [name]. *)
Definition getSource (name : string) (ctx : ZeroContext) : ZeroContext * bool :=
  match sources ctx !! name with
  | Some source => (ctx, bool_decide (is_Some source))
  | None =>
      let source : option (list SourceChange) :=
        match tables ctx !! name with
        | Some _ => Some []
        | None => None
        end in
      ({| sources := <[name := source]> (sources ctx);
          tables := tables ctx;
          batchViewUpdatesApplies := batchViewUpdatesApplies ctx;
          commitListeners := commitListeners ctx;
          listenerCalls := listenerCalls ctx |},
       bool_decide (is_Some source))
  end.

(** [source.push(change)] on the source cached under [name]. *)
Definition push (name : string) (change : SourceChange) (ctx : ZeroContext)
  : ZeroContext :=
  {| sources := alter (fmap (fun log => log ++ [change])) name (sources ctx);
     tables := tables ctx;
     batchViewUpdatesApplies := batchViewUpdatesApplies ctx;
     commitListeners := commitListeners ctx;
     listenerCalls := listenerCalls ctx |}.

Definition onTransactionCommit (cb : nat) (ctx : ZeroContext) : ZeroContext :=
  {| sources := sources ctx;
     tables := tables ctx;
     batchViewUpdatesApplies := batchViewUpdatesApplies ctx;
     commitListeners :=
       if bool_decide (cb ∈ commitListeners ctx) then commitListeners ctx
       else commitListeners ctx ++ [cb];
     listenerCalls := listenerCalls ctx |}.

(** The function [onTransactionCommit] returns. *)
Definition removeCommitListener (cb : nat) (ctx : ZeroContext) : ZeroContext :=
  {| sources := sources ctx;
     tables := tables ctx;
     batchViewUpdatesApplies := batchViewUpdatesApplies ctx;
     commitListeners := filter (fun l => l ≠ cb) (commitListeners ctx);
     listenerCalls := listenerCalls ctx |}.

Definition endTransaction (ctx : ZeroContext) : ZeroContext :=
  {| sources := sources ctx;
     tables := tables ctx;
     batchViewUpdatesApplies := batchViewUpdatesApplies ctx;
     commitListeners := commitListeners ctx;
     listenerCalls := listenerCalls ctx ++ commitListeners ctx |}.

(** The body of the loop of [processChanges] for one diff.  The boolean is
    [false] when an assertion failed; what was done before stays done. *)
Definition applyDiff (diff : Diff) (ctx : ZeroContext) : ZeroContext * bool :=
  let key := diffKey diff in
  if negb (String.prefix ENTITIES_KEY_PREFIX key) then (ctx, false)
  else
    let name := tableNameOfKey key in
    let '(ctx, hasSource) := getSource name ctx in
    if negb hasSource then (ctx, true)
    else
      match diff with
      | DiffDel _ oldValue =>
          if isObject oldValue then (push name (RemoveChange oldValue) ctx, true)
          else (ctx, false)
      | DiffAdd _ newValue =>
          if isObject newValue then (push name (AddChange newValue) ctx, true)
          else (ctx, false)
      | DiffChange _ oldValue newValue =>
          if isObject newValue then
            if isObject oldValue then
              (push name (EditChange newValue oldValue) ctx, true)
            else (ctx, false)
          else (ctx, false)
      end.

(** The callback given to [batchViewUpdates]: the loop over the diffs. *)
Fixpoint applyViewUpdates (changes : list Diff) (ctx : ZeroContext)
  : ZeroContext * bool :=
  match changes with
  | [] => (ctx, true)
  | diff :: rest =>
      let '(ctx, held) := applyDiff diff ctx in
      if held then applyViewUpdates rest ctx else (ctx, false)
  end.

(** [batchViewUpdates(applyViewUpdates)]: the callback must have run when
    the injected function returns. *)
Definition batchViewUpdates (changes : list Diff) (ctx : ZeroContext)
  : ZeroContext * bool :=
  if batchViewUpdatesApplies ctx then applyViewUpdates changes ctx
  else (ctx, false).

(** [processChanges]: the boolean tells whether the call returned normally;
    [#endTransaction] runs in the [finally] block either way. *)
Definition processChanges (changes : list Diff) (ctx : ZeroContext)
  : ZeroContext * bool :=
  let '(ctx, returned) := batchViewUpdates changes ctx in
  (endTransaction ctx, returned).

(** *** Notions used to state the properties of [processChanges] *)

(** The changes pushed so far to the source of a table. *)
Definition sourceLog (ctx : ZeroContext) (name : string) : list SourceChange :=
  match sources ctx !! name with
  | Some (Some log) => log
  | _ => []
  end.

(** The cache of sources agrees with the schema. *)
Definition cacheConsistent (ctx : ZeroContext) : Prop :=
  ∀ name source,
    sources ctx !! name = Some source →
    (is_Some source ↔ is_Some (tables ctx !! name)).

Definition changeOf (diff : Diff) : SourceChange :=
  match diff with
  | DiffAdd _ newValue => AddChange newValue
  | DiffDel _ oldValue => RemoveChange oldValue
  | DiffChange _ oldValue newValue => EditChange newValue oldValue
  end.

(** The changes that the diffs keyed under table [name] stand for. *)
Definition changesFor (name : string) (changes : list Diff) : list SourceChange :=
  changeOf <$> filter (fun diff => tableNameOfKey (diffKey diff) = name) changes.

(** The diff passes the assertions of the loop. *)
Definition wellFormed (diff : Diff) : Prop :=
  String.prefix ENTITIES_KEY_PREFIX (diffKey diff) = true ∧
  match diff with
  | DiffAdd _ newValue => isObject newValue = true
  | DiffDel _ oldValue => isObject oldValue = true
  | DiffChange _ oldValue newValue =>
      isObject oldValue = true ∧ isObject newValue = true
  end.

(** The changes [processChanges] pushes to the source of table [name]:
    those of the diffs keyed under [name] when the schema has the table,
    none otherwise. *)
Definition pushedBy (changes : list Diff) (ctx : ZeroContext) (name : string)
  : list SourceChange :=
  if bool_decide (is_Some (tables ctx !! name)) then changesFor name changes
  else [].

(** [ctx'] is [ctx] after the changes [pushed name] were pushed to the source
    of each table [name]; the schema, the batching function and the
    listeners are the same. *)
Record FedWith (pushed : string → list SourceChange) (ctx ctx' : ZeroContext)
  : Prop := {
  fed_consistent : cacheConsistent ctx';
  fed_tables : tables ctx' = tables ctx;
  fed_batch : batchViewUpdatesApplies ctx' = batchViewUpdatesApplies ctx;
  fed_listeners : commitListeners ctx' = commitListeners ctx;
  fed_calls : listenerCalls ctx' = listenerCalls ctx;
  fed_logs : ∀ name, sourceLog ctx' name = sourceLog ctx name ++ pushed name;
}.

End WithValues.

End Context.

(* ====================================================================== *)
(** * Properties *)

(** ** Error monad and string order *)

Lemma mapM_app {E A B} (f : A → result E B) xs ys xs' ys' :
  mapM f xs = Ok xs' → mapM f ys = Ok ys' → mapM f (xs ++ ys) = Ok (xs' ++ ys').
Proof.
  revert xs'. induction xs as [|x xs IH]; intros xs' Hx Hy; simpl in *.
  - by inversion Hx.
  - destruct (f x) as [y|e]; simpl in *; [|discriminate].
    destruct (mapM f xs) as [zs|e]; simpl in *; [|discriminate].
    inversion Hx; subst. by rewrite (IH zs eq_refl Hy).
Qed.

Lemma str_gt_irrefl a : str_gt a a = false.
Proof.
  unfold str_gt, String.ltb.
  pose proof (String.compare_antisym a a) as H.
  destruct (String.compare a a); simpl in H; congruence.
Qed.

Lemma str_gt_empty b : str_gt "" b = false.
Proof. unfold str_gt, String.ltb. by destruct b. Qed.

Lemma mapM_Forall2 {E A B} (f : A → result E B) xs ys :
  Forall2 (fun x y => f x = Ok y) xs ys → mapM f xs = Ok ys.
Proof.
  induction 1 as [|x y xs ys Hxy _ IH]; simpl; [done|].
  by rewrite Hxy, IH.
Qed.

Lemma mapM_Ok_Forall2 {E A B} (f : A → result E B) xs ys :
  mapM f xs = Ok ys → Forall2 (fun x y => f x = Ok y) xs ys.
Proof.
  revert ys. induction xs as [|x xs IH]; intros ys H; simpl in H.
  - inversion H. constructor.
  - destruct (f x) as [y|e] eqn:Hx; simpl in H; [|discriminate].
    destruct (mapM f xs) as [zs|e] eqn:Hxs; simpl in H; [|discriminate].
    inversion H; subst. constructor; auto.
Qed.

(** ** keys.ts *)

Section KeysProperties.
Import Keys.

Context {number : Type}.
Variable Number_toString : number → string.
Variable JSON_stringify_number : number → string.
Variable h128 : string → string.

(** C9: row identifier derivation.  When the key columns of the row hold
    primary-key values [vs] (taken in primary-key order), a single-column key
    yields ["e/" + table + "/" + primitive string of the value], and a key of
    several columns yields ["e/" + table + "/" + h128(JSON.stringify(vs))]. *)
Theorem toPrimaryKeyString_derivation
    (tableName : string) (primaryKey : list string)
    (value : gmap string (Value number)) (vs : list (PrimaryKeyValue number)) :
  Forall2 (fun k v => parsePrimaryKeyValue k (value !! k) = Ok v) primaryKey vs →
  (∀ k, primaryKey = [k] →
     ∃ v, vs = [v] ∧
          toPrimaryKeyString Number_toString JSON_stringify_number h128
            tableName primaryKey value
          = Ok ("e/" +:+ tableName +:+ "/" +:+ primitiveString Number_toString v)) ∧
  ((1 < length primaryKey)%nat →
     toPrimaryKeyString Number_toString JSON_stringify_number h128
       tableName primaryKey value
     = Ok ("e/" +:+ tableName +:+ "/"
             +:+ h128 (JSON_stringify JSON_stringify_number vs))).
Proof.
  intros Hvs. split.
  - intros k ->. inversion Hvs as [|? v ? vs' Hv Hrest]; subst.
    inversion Hrest; subst. exists v. split; [done|].
    unfold toPrimaryKeyString. by rewrite Hv.
  - intros Hlen. apply mapM_Forall2 in Hvs.
    destruct primaryKey as [|k1 [|k2 ks]]; simpl in Hlen; try lia.
    unfold toPrimaryKeyString. by rewrite Hvs.
Qed.

End KeysProperties.

Lemma toPrimaryKeyString_derivation_witness :
  Keys.toPrimaryKeyString pretty pretty (fun s => "#" +:+ s)
    "issues" ["org"; "id"]
    {[ "id" := Keys.VNumber 7%Z; "org" := Keys.VString "acme" ]}
  = Ok ("e/issues/#[" +:+ Keys.dquote +:+ "acme" +:+ Keys.dquote +:+ ",7]").
Proof.
  refine (proj2 (toPrimaryKeyString_derivation pretty pretty (fun s => "#" +:+ s)
                   "issues" ["org"; "id"]
                   {[ "id" := Keys.VNumber 7%Z; "org" := Keys.VString "acme" ]}
                   [Keys.PKString "acme"; Keys.PKNumber 7%Z] _) _).
  - repeat constructor.
  - simpl. lia.
Defined.

(** ** context.ts *)

Section PokesProperties.
Import Keys Pokes.

Context {number AST Store : Type}.
Variable Number_toString : number → string.
Variable JSON_stringify_number : number → string.
Variable h128 : string → string.
Variable applyPatchOp : Store → PatchOperationInternal (number:=number) (AST:=AST) → Store.

Local Abbreviation partPatch' := (partPatch Number_toString JSON_stringify_number h128).
Local Abbreviation mergePart' := (mergePart Number_toString JSON_stringify_number h128).
Local Abbreviation mergeParts' := (mergeParts Number_toString JSON_stringify_number h128).
Local Abbreviation mergeLoop' := (mergeLoop Number_toString JSON_stringify_number h128).
Local Abbreviation mergePokes' := (mergePokes Number_toString JSON_stringify_number h128).
Local Abbreviation rowsConvertible' :=
  (rowsConvertible Number_toString JSON_stringify_number h128).
Local Abbreviation applyInOrder' :=
  (applyInOrder Number_toString JSON_stringify_number h128 applyPatchOp).
Local Abbreviation processPokesForFrame' :=
  (processPokesForFrame Number_toString JSON_stringify_number h128 applyPatchOp).
Local Abbreviation specifiedPatch' :=
  (specifiedPatch Number_toString JSON_stringify_number h128).
Local Abbreviation PokeHandler' := (PokeHandler (number:=number) (AST:=AST)).
Local Abbreviation Part := (PokePartBody (number:=number) (AST:=AST)).
Local Abbreviation Accum := (PokeAccumulator (number:=number) (AST:=AST)).

(** C10: a [pokeStart] that arrives while a poke is still being received
    discards the poke in progress and every buffered poke, calls [onPokeError]
    once, and does not start accumulating the new poke. *)
Theorem handlePokeStart_while_receiving
    (h : PokeHandler') (pokeStart : PokeStartBody) (receiving : Accum) :
  receivingPoke h = Some receiving →
  receivingPoke (handlePokeStart h pokeStart) = None ∧
  pokeBuffer (handlePokeStart h pokeStart) = [] ∧
  onPokeErrorCalls (handlePokeStart h pokeStart) = S (onPokeErrorCalls h) ∧
  pokePlaybackLoopRunning (handlePokeStart h pokeStart) = pokePlaybackLoopRunning h.
Proof.
  intros Hrecv. unfold handlePokeStart. rewrite Hrecv. by simpl.
Qed.

(** *** Cookie gaps *)

Lemma cookieGap_spec (prev cur : PokeStartBody) :
  cookieGap prev cur = true ↔ gapBetween prev cur.
Proof.
  unfold cookieGap, gapBetween. split.
  - destruct (baseCookie cur) as [b|]; [|discriminate].
    intros [_ Hgt]%andb_prop. eauto.
  - intros (b & -> & Hgt). rewrite Hgt, andb_true_r.
    destruct (String.eqb_spec b "") as [->|]; [|done].
    by rewrite str_gt_empty in Hgt.
Qed.

Lemma hasCookieGap_single (p : PokeAccumulator (number:=number) (AST:=AST)) :
  ¬ hasCookieGap [p].
Proof.
  intros (front & prev & cur & back & Heq & _).
  apply (f_equal length) in Heq. rewrite length_app in Heq. simpl in Heq. lia.
Qed.

Lemma hasCookieGap_cons (p0 cur : PokeAccumulator (number:=number) (AST:=AST)) rest :
  hasCookieGap (p0 :: cur :: rest) ↔
  gapBetween (pokeStart p0) (pokeStart cur) ∨ hasCookieGap (cur :: rest).
Proof.
  split.
  - intros (front & prev & c & back & Heq & Hgap).
    destruct front as [|x front]; simpl in Heq.
    + inversion Heq; subst. by left.
    + inversion Heq as [[Hx Hrest]]. right. exists front, prev, c, back. by rewrite Hrest.
  - intros [Hgap | (front & prev & c & back & Heq & Hgap)].
    + by exists [], p0, cur, rest.
    + exists (p0 :: front), prev, c, back. by rewrite Heq.
Qed.

Lemma noGapAfter_false (p0 : Accum) rest :
  noGapAfter (pokeStart p0) rest = false ↔ hasCookieGap (p0 :: rest).
Proof.
  revert p0. induction rest as [|cur rest IH]; intros p0; simpl.
  - split; [done | by intros ?%hasCookieGap_single].
  - rewrite andb_false_iff, negb_false_iff, IH, hasCookieGap_cons.
    by rewrite cookieGap_spec.
Qed.

(** *** The loops of [mergePokes] in closed form *)

Lemma mergedChanges_nil : mergedChanges (number:=number) (AST:=AST) [] = ∅.
Proof. reflexivity. Qed.

Lemma mergedChanges_acc (ps : list Part)
    (acc : gmap string Z) :
  fold_left (fun acc pokePart => default ∅ (lastMutationIDChanges pokePart) ∪ acc)
            ps acc
  = mergedChanges ps ∪ acc.
Proof.
  unfold mergedChanges. revert acc.
  induction ps as [|p ps IH]; intros acc; simpl.
  - by rewrite (left_id_L ∅ (∪)).
  - rewrite IH, (IH (_ ∪ ∅)), (right_id_L ∅ (∪)). by rewrite (assoc_L (∪)).
Qed.

Lemma mergedChanges_cons (p : PokePartBody (number:=number) (AST:=AST)) ps :
  mergedChanges (p :: ps) = mergedChanges ps ∪ default ∅ (lastMutationIDChanges p).
Proof.
  unfold mergedChanges at 1. simpl.
  by rewrite mergedChanges_acc, (right_id_L ∅ (∪)).
Qed.

Lemma mergedChanges_app (ps qs : list Part) :
  mergedChanges (ps ++ qs) = mergedChanges qs ∪ mergedChanges ps.
Proof.
  unfold mergedChanges at 1. rewrite fold_left_app.
  fold (mergedChanges ps). by rewrite mergedChanges_acc.
Qed.

Lemma mergeParts_spec schema (ps : list Part) lm patch :
  mergeParts' schema (lm, patch) ps =
  (pss ←! mapM (partPatch' schema) ps;
   Ok (mergedChanges ps ∪ lm, patch ++ concat pss)).
Proof.
  revert lm patch. induction ps as [|p ps IH]; intros lm patch; simpl.
  - cbn. by rewrite (left_id_L ∅ (∪)), app_nil_r.
  - destruct (partPatch' schema p) as [ops|e]; simpl; [|done].
    rewrite IH. destruct (mapM (partPatch' schema) ps) as [pss|e]; simpl; [|done].
    rewrite mergedChanges_cons, <- (assoc_L (∪)), <- app_assoc.
    by destruct (lastMutationIDChanges p); simpl; rewrite ?(left_id_L ∅ (∪)).
Qed.

Lemma mergeLoop_Ok schema (p0 : Accum) (rest : list Accum) lm patch lm' patch' :
  mergeLoop' schema (Some (pokeStart p0)) (lm, patch) rest = Ok (lm', patch') ↔
  noGapAfter (pokeStart p0) rest = true ∧
  ∃ pss, mapM (partPatch' schema) (allParts rest) = Ok pss ∧
         lm' = mergedChanges (allParts rest) ∪ lm ∧
         patch' = patch ++ concat pss.
Proof.
  revert p0 lm patch. induction rest as [|cur rest IH]; intros p0 lm patch; simpl.
  - split.
    + intros [= <- <-]. split; [done|]. exists []. simpl.
      by rewrite app_nil_r, mergedChanges_nil, (left_id_L ∅ (∪)).
    + intros (_ & pss & [= <-] & -> & ->). simpl.
      by rewrite app_nil_r, mergedChanges_nil, (left_id_L ∅ (∪)).
  - destruct (cookieGap (pokeStart p0) (pokeStart cur)); simpl.
    { split; [done | by intros [? _]]. }
    rewrite mergeParts_spec.
    destruct (mapM (partPatch' schema) (parts cur)) as [ops|e] eqn:Hcur; simpl.
    + rewrite IH. split.
      * intros (Hgap & pss & Hrest & -> & ->). split; [done|].
        exists (ops ++ pss). rewrite (mapM_app _ _ _ _ _ Hcur Hrest).
        rewrite mergedChanges_app, concat_app, (assoc_L (∪)), app_assoc. done.
      * intros (Hgap & pss & Hall & -> & ->). split; [done|].
        apply mapM_Ok_Forall2 in Hall.
        apply Forall2_app_inv_l in Hall as (pss1 & pss2 & H1 & H2 & ->).
        apply mapM_Forall2 in H1, H2. rewrite Hcur in H1. inversion H1; subst.
        exists pss2. rewrite mergedChanges_app, concat_app, (assoc_L (∪)), app_assoc.
        done.
    + split; [done|]. intros (_ & pss & Hall & _).
      apply mapM_Ok_Forall2 in Hall.
      apply Forall2_app_inv_l in Hall as (pss1 & pss2 & H1 & H2 & ->).
      apply mapM_Forall2 in H1. congruence.
Qed.

Lemma last_cons {A} (a d : A) (l : list A) : List.last (a :: l) d = List.last l a.
Proof.
  revert a d. induction l as [|b l IH]; intros a d; [done|].
  change (List.last (a :: b :: l) d) with (List.last (b :: l) d).
  by rewrite !IH.
Qed.

Lemma mergePokes_Ok schema (first : Accum) (rest : list Accum) r :
  mergePokes' (first :: rest) schema = Ok r ↔
  noGapAfter (pokeStart first) rest = true ∧
  ∃ pss, mapM (partPatch' schema) (allParts (first :: rest)) = Ok pss ∧
         r = Some {| pi_baseCookie := baseCookie (pokeStart first);
                     pullResponse :=
                       {| pr_lastMutationIDChanges := mergedChanges (allParts (first :: rest));
                          pr_patch := concat pss;
                          pr_cookie := cookie (pokeStart (List.last rest first)) |} |}.
Proof.
  unfold mergePokes. rewrite last_cons.
  destruct (mergeLoop' schema None (∅, []) (first :: rest)) as [[lm' patch']|e] eqn:Hloop;
    simpl in Hloop |- *; rewrite mergeParts_spec in Hloop.
  - destruct (mapM (partPatch' schema) (parts first)) as [ops|e] eqn:Hfirst;
      simpl in Hloop; [|discriminate].
    apply mergeLoop_Ok in Hloop as (Hgap & pss & Hrest & -> & ->).
    split.
    + intros [= <-]. split; [done|]. exists (ops ++ pss).
      rewrite (mapM_app _ _ _ _ _ Hfirst Hrest).
      change (allParts (first :: rest)) with (parts first ++ allParts rest).
      by rewrite mergedChanges_app, concat_app, (assoc_L (∪)), (right_id_L ∅ (∪)).
    + intros (_ & pss' & Hall & ->).
      change (allParts (first :: rest)) with (parts first ++ allParts rest) in *.
      rewrite (mapM_app _ _ _ _ _ Hfirst Hrest) in Hall. inversion Hall; subst.
      by rewrite mergedChanges_app, concat_app, (assoc_L (∪)), (right_id_L ∅ (∪)).
  - split; [done|]. intros (Hgap & pss & Hall & _). exfalso.
    change (allParts (first :: rest)) with (parts first ++ allParts rest) in Hall.
    apply mapM_Ok_Forall2 in Hall.
    apply Forall2_app_inv_l in Hall as (pss1 & pss2 & H1 & H2 & ->).
    apply mapM_Forall2 in H1, H2. rewrite H1 in Hloop. simpl in Hloop.
    pose proof (proj2 (mergeLoop_Ok schema first rest
                         (mergedChanges (parts first) ∪ ∅) ([] ++ concat pss1)
                         _ _) (conj Hgap (ex_intro _ pss2 (conj H2 (conj eq_refl eq_refl)))))
      as Hok.
    simpl in Hok. congruence.
Qed.

Lemma rowsConvertible_mapM schema (ps : list Part) :
  Forall (fun pokePart => isOk (partPatch' schema pokePart) = true) ps →
  ∃ pss, mapM (partPatch' schema) ps = Ok pss.
Proof.
  induction 1 as [|p ps Hp _ [pss IH]]; simpl; [by exists []|].
  destruct (partPatch' schema p) as [ops|e]; [|discriminate].
  rewrite IH. simpl. eauto.
Qed.

(** C4 (amended): for a non-empty buffer, whenever [mergePokes] returns, the
    poke it returns has the base cookie of the first buffered poke and the
    cookie of the last one; it throws whenever some poke's base cookie is
    greater than the cookie of the poke immediately before it; and when it
    throws without such a gap, some row patch of the buffer could not be keyed
    (unknown table, or a key column that holds no primary-key value). *)
Theorem mergePokes_cookie_chain schema (first : Accum) (rest : list Accum) :
  (∀ r, mergePokes' (first :: rest) schema = Ok r →
     ∃ merged, r = Some merged ∧
       pi_baseCookie merged = baseCookie (pokeStart first) ∧
       pr_cookie (pullResponse merged)
       = cookie (pokeStart (List.last (first :: rest) first))) ∧
  (hasCookieGap (first :: rest) →
     ∃ e, mergePokes' (first :: rest) schema = Throw e) ∧
  (∀ e, mergePokes' (first :: rest) schema = Throw e →
     hasCookieGap (first :: rest) ∨ ¬ rowsConvertible' schema (first :: rest)).
Proof.
  split; [|split].
  - intros r (_ & pss & _ & ->)%mergePokes_Ok. eexists. split; [done|].
    by rewrite last_cons.
  - intros Hgap%noGapAfter_false.
    destruct (mergePokes' (first :: rest) schema) as [r|e] eqn:Hm; [|eauto].
    apply mergePokes_Ok in Hm as [Hno _]. congruence.
  - intros e He.
    destruct (noGapAfter (pokeStart first) rest) eqn:Hgap.
    + right. intros [pss Hpss]%rowsConvertible_mapM.
      pose proof (proj2 (mergePokes_Ok schema first rest _)
                    (conj Hgap (ex_intro _ pss (conj Hpss eq_refl)))) as Hok.
      congruence.
    + left. by apply noGapAfter_false.
Qed.

(** *** Last writer wins *)

Lemma mergedChanges_unset (ps : list Part) clientID :
  Forall (fun pokePart => partSets pokePart clientID = None) ps →
  mergedChanges ps !! clientID = None.
Proof.
  induction 1 as [|p ps Hp _ IH]; [done|].
  rewrite mergedChanges_cons. apply lookup_union_None. split; [done|].
  unfold partSets in Hp. by destruct (lastMutationIDChanges p).
Qed.

Lemma mergedChanges_last_writer (front back : list Part) (part : Part) clientID v :
  partSets part clientID = Some v →
  Forall (fun pokePart => partSets pokePart clientID = None) back →
  mergedChanges (front ++ part :: back) !! clientID = Some v.
Proof.
  intros Hset Hback. rewrite mergedChanges_app, mergedChanges_cons.
  apply lookup_union_Some_raw. left.
  apply lookup_union_Some_raw. right. split; [by apply mergedChanges_unset|].
  unfold partSets in Hset. by destruct (lastMutationIDChanges part).
Qed.

(** *** Merged delivery against delivery in order *)

Lemma lastMutationIDsAdvance_union (base lm mc : gmap string Z) :
  lastMutationIDsAdvance base lm →
  lastMutationIDsAdvance (lm ∪ base) mc →
  lastMutationIDsAdvance base (mc ∪ lm).
Proof.
  intros Hlm Hmc clientID v [Hv | [Hnone Hv]]%lookup_union_Some_raw.
  - specialize (Hmc clientID v Hv). simpl in Hmc.
    destruct (lm !! clientID) as [w|] eqn:Hw.
    + rewrite (lookup_union_Some_l _ _ _ _ Hw) in Hmc. simpl in Hmc.
      specialize (Hlm clientID w Hw). simpl in Hlm. lia.
    + by rewrite (lookup_union_r _ _ _ Hw) in Hmc.
  - exact (Hlm clientID v Hv).
Qed.

Lemma replicachePoke_Ok (poke : PokeInternal) (st st' : ClientState) :
  replicachePoke applyPatchOp poke st = Ok st' ↔
  cs_cookie st = pi_baseCookie poke ∧
  lastMutationIDsAdvance (cs_lastMutationIDs st)
    (pr_lastMutationIDChanges (pullResponse poke)) ∧
  st' = {| cs_cookie := Some (pr_cookie (pullResponse poke));
           cs_lastMutationIDs :=
             pr_lastMutationIDChanges (pullResponse poke) ∪ cs_lastMutationIDs st;
           cs_store := fold_left applyPatchOp (pr_patch (pullResponse poke))
                         (cs_store st) |}.
Proof.
  unfold replicachePoke. repeat case_bool_decide; split;
    try done; try (intros [= <-]; done); try (intros (? & ? & ?); done).
  intros (_ & _ & ->). done.
Qed.

Lemma applyInOrder_mergeLoop schema (rest : list Accum) :
  ∀ (p0 : Accum) lm patch (st0 st st' : ClientState),
  cs_cookie st = Some (cookie (pokeStart p0)) →
  cs_lastMutationIDs st = lm ∪ cs_lastMutationIDs st0 →
  cs_store st = fold_left applyPatchOp patch (cs_store st0) →
  lastMutationIDsAdvance (cs_lastMutationIDs st0) lm →
  applyInOrder' schema rest st = Ok st' →
  ∃ lm' patch',
    mergeLoop' schema (Some (pokeStart p0)) (lm, patch) rest = Ok (lm', patch') ∧
    cs_cookie st' = Some (cookie (pokeStart (List.last rest p0))) ∧
    cs_lastMutationIDs st' = lm' ∪ cs_lastMutationIDs st0 ∧
    cs_store st' = fold_left applyPatchOp patch' (cs_store st0) ∧
    lastMutationIDsAdvance (cs_lastMutationIDs st0) lm'.
Proof.
  induction rest as [|cur rest IH]; intros p0 lm patch st0 st st' Hc Hl Hs Ha Happ.
  - simpl in Happ. inversion Happ; subst st'. exists lm, patch. by simpl.
  - cbn [applyInOrder] in Happ.
    destruct (mergePokes' [cur] schema) as [[single|]|e] eqn:Hsingle;
      [| by apply mergePokes_Ok in Hsingle as (_ & ? & _ & ?) | done].
    apply mergePokes_Ok in Hsingle as (_ & pss & Hpss & [= ->]).
    change (allParts [cur]) with (parts cur ++ []) in Hpss |- *.
    rewrite app_nil_r in *.
    destruct (replicachePoke applyPatchOp _ st) as [st1|e] eqn:Hpoke;
      simpl in Happ; [|done].
    apply replicachePoke_Ok in Hpoke as (Hbase & Hadv & ->). simpl in *.
    assert (cookieGap (pokeStart p0) (pokeStart cur) = false) as Hnogap.
    { unfold cookieGap. rewrite <- Hbase, Hc. by rewrite str_gt_irrefl, andb_false_r. }
    rewrite Hnogap. simpl. rewrite mergeParts_spec, Hpss. simpl.
    replace (match rest with [] => cur | _ :: _ => List.last rest p0 end)
      with (List.last rest cur) by (symmetry; apply (last_cons cur p0 rest)).
    eapply (IH cur _ _ st0); [| | | |exact Happ]; simpl; try done.
    + by rewrite Hl, (assoc_L (∪)).
    + by rewrite Hs, fold_left_app.
    + apply lastMutationIDsAdvance_union; [done|]. by rewrite <- Hl.
Qed.

(** *** The merged patch against the patches of the parts *)

Lemma rowsPatchOp_specified schema (op : RowPatchOp (number:=number)) r :
  rowsPatchOpToReplicachePatchOp (AST:=AST) Number_toString JSON_stringify_number h128
    op schema = Ok r →
  specifiedRowOp (AST:=AST) Number_toString JSON_stringify_number h128 schema op = Some r.
Proof.
  unfold rowsPatchOpToReplicachePatchOp, specifiedRowOp, specifiedRowID, rowKey.
  destruct op as [t value|t id|t id merge constrain|]; simpl;
    try (by intros [= <-]);
    destruct (tables schema !! t) as [ts|]; simpl; try done;
    destruct (toPrimaryKeyString _ _ _ _ _ _) as [key|e]; simpl; try done;
    by intros [= <-].
Qed.

Lemma rowsPatch_specified schema (ops : list (RowPatchOp (number:=number))) rs :
  mapM (fun op => rowsPatchOpToReplicachePatchOp (AST:=AST) Number_toString
                    JSON_stringify_number h128 op schema) ops = Ok rs →
  map (specifiedRowOp (AST:=AST) Number_toString JSON_stringify_number h128 schema) ops
  = map Some rs.
Proof.
  revert rs. induction ops as [|op ops IH]; intros rs; simpl.
  - by intros [= <-].
  - destruct (rowsPatchOpToReplicachePatchOp _ _ _ op schema) as [r|e] eqn:Hop;
      simpl; [|done].
    destruct (mapM _ ops) as [rs'|e]; simpl; [|done].
    intros [= <-]. simpl. by rewrite (rowsPatchOp_specified _ _ _ Hop), (IH rs').
Qed.

Lemma partPatch_specified schema (pokePart : Part) ops :
  partPatch' schema pokePart = Ok ops →
  specifiedPartPatch Number_toString JSON_stringify_number h128 schema pokePart
  = map Some ops.
Proof.
  unfold partPatch, specifiedPartPatch.
  destruct (match rowsPatch pokePart with
            | Some ops => mapM _ ops
            | None => Ok []
            end) as [rows|e] eqn:Hrows; simpl; [|done].
  intros [= <-]. rewrite !map_app. f_equal; [|f_equal; [|f_equal]].
  - destruct (clientsPatch pokePart) as [cs|]; simpl; [|done].
    rewrite map_map. apply map_ext. by intros [| |].
  - destruct (desiredQueriesPatches pokePart) as [entries|]; simpl; [|done].
    induction entries as [|[clientID qs] entries IH]; simpl; [done|].
    rewrite map_app, IH. f_equal. rewrite map_map. apply map_ext. by intros [| |].
  - destruct (gotQueriesPatch pokePart) as [qs|]; simpl; [|done].
    rewrite map_map. apply map_ext. by intros [| |].
  - destruct (rowsPatch pokePart) as [rs|]; simpl.
    + by apply rowsPatch_specified.
    + by inversion Hrows.
Qed.

Lemma parts_specified schema (ps : list Part) pss :
  mapM (partPatch' schema) ps = Ok pss →
  flat_map (specifiedPartPatch Number_toString JSON_stringify_number h128 schema) ps
  = map Some (concat pss).
Proof.
  revert pss. induction ps as [|p ps IH]; intros pss; simpl.
  - by intros [= <-].
  - destruct (partPatch' schema p) as [ops|e] eqn:Hp; simpl; [|done].
    destruct (mapM _ ps) as [pss'|e]; simpl; [|done].
    intros [= <-]. simpl. by rewrite map_app, (partPatch_specified _ _ _ Hp), (IH pss').
Qed.

(** C1 (amended): poke merge correctness.  Whenever the Replicache client
    accepts the buffered pokes [p1, ..., pn] one after the other, [mergePokes]
    returns one poke whose delivery leads to the same final client state, and
    that is what [#processPokesForFrame] does with the buffer.  And whenever
    [mergePokes] returns a poke, every client has in it the last mutation ID
    of the last part that sets one for it (and none if no part does), and its
    patch is made of the client, query and row patches of the parts, in the
    order of the parts and in their own order within a part. *)
Theorem mergePokes_same_as_in_order schema (first : Accum) (rest : list Accum) :
  (∀ client client' : ClientState,
     applyInOrder' schema (first :: rest) client = Ok client' →
     ∃ merged,
       mergePokes' (first :: rest) schema = Ok (Some merged) ∧
       replicachePoke applyPatchOp merged client = Ok client' ∧
       ∀ h : PokeHandler',
         pokeBuffer h = first :: rest →
         processPokesForFrame' schema h client
         = ({| receivingPoke := receivingPoke h;
               pokeBuffer := [];
               pokePlaybackLoopRunning := pokePlaybackLoopRunning h;
               onPokeErrorCalls := onPokeErrorCalls h |}, client')) ∧
  (∀ merged,
     mergePokes' (first :: rest) schema = Ok (Some merged) →
     (∀ clientID front part back v,
        allParts (first :: rest) = front ++ part :: back →
        partSets part clientID = Some v →
        Forall (fun pokePart => partSets pokePart clientID = None) back →
        pr_lastMutationIDChanges (pullResponse merged) !! clientID = Some v) ∧
     (∀ clientID,
        Forall (fun pokePart => partSets pokePart clientID = None)
               (allParts (first :: rest)) →
        pr_lastMutationIDChanges (pullResponse merged) !! clientID = None) ∧
     map Some (pr_patch (pullResponse merged)) = specifiedPatch' schema (first :: rest)).
Proof.
  split.
  - intros client client' Happ. cbn [applyInOrder] in Happ.
    destruct (mergePokes' [first] schema) as [[single|]|e] eqn:Hsingle;
      [| by apply mergePokes_Ok in Hsingle as (_ & ? & _ & ?) | done].
    apply mergePokes_Ok in Hsingle as (_ & ops & Hops & [= ->]).
    change (allParts [first]) with (parts first ++ []) in Hops |- *.
    rewrite app_nil_r in *.
    destruct (replicachePoke applyPatchOp _ client) as [st1|e] eqn:Hpoke;
      simpl in Happ; [|done].
    apply replicachePoke_Ok in Hpoke as (Hbase & Hadv & ->). simpl in *.
    edestruct (applyInOrder_mergeLoop schema rest first
                 (mergedChanges (parts first)) (concat ops) client)
      as (lm' & patch' & Hloop & Hcookie & Hlmids & Hstore & Hadv');
      [| | | exact Hadv | exact Happ |]; [done..|].
    apply mergeLoop_Ok in Hloop as (Hgap & pss & Hrest & -> & ->).
    pose proof (mapM_app _ _ _ _ _ Hops Hrest) as Hall.
    change (parts first ++ allParts rest) with (allParts (first :: rest)) in Hall.
    pose proof (proj2 (mergePokes_Ok schema first rest _)
                  (conj Hgap (ex_intro _ _ (conj Hall eq_refl)))) as Hmerged.
    eexists. split; [exact Hmerged|].
    match goal with |- ?P ∧ _ => assert P as Hdelivered end.
    { apply replicachePoke_Ok. simpl.
      change (allParts (first :: rest)) with (parts first ++ allParts rest).
      rewrite mergedChanges_app. split; [done|]. split; [done|].
      destruct client' as [c l s]. simpl in *. subst.
      by rewrite concat_app. }
    split; [exact Hdelivered|].
    intros h Hbuffer. unfold processPokesForFrame.
    by rewrite Hbuffer, Hmerged, Hdelivered.
  - intros merged (_ & pss & Hall & [= ->])%mergePokes_Ok. simpl.
    split; [|split].
    + intros clientID front part back v Heq Hset Hback. rewrite Heq.
      by apply mergedChanges_last_writer.
    + intros clientID Hunset. by apply mergedChanges_unset.
    + unfold specifiedPatch. by rewrite (parts_specified _ _ _ Hall).
Qed.

End PokesProperties.

Section PokesSamples.
Import Keys Pokes Samples.

Lemma handlePokeStart_while_receiving_witness :
  receivingPoke (handlePokeStart receivingHandler (pokeStart gapPoke)) = None ∧
  pokeBuffer (handlePokeStart receivingHandler (pokeStart gapPoke)) = [] ∧
  onPokeErrorCalls (handlePokeStart receivingHandler (pokeStart gapPoke)) = 1%nat ∧
  pokePlaybackLoopRunning (handlePokeStart receivingHandler (pokeStart gapPoke)) = true.
Proof.
  exact (handlePokeStart_while_receiving receivingHandler (pokeStart gapPoke)
           _ eq_refl).
Defined.

(** C4 (counterexample): a one-poke buffer, hence without any cookie gap, on
    which [mergePokes] throws: the key column of its row patch holds [null]. *)
Lemma mergePokes_throws_without_gap :
  [badRowPoke] ≠ [] ∧
  ¬ hasCookieGap [badRowPoke] ∧
  mergePokes pretty pretty hash [badRowPoke] issuesSchema
  = Throw (BadKey (InvalidPrimaryKeyValue "id")).
Proof.
  split; [done|]. split; [apply hasCookieGap_single | reflexivity].
Qed.

Lemma mergePokes_cookie_chain_witness :
  (∃ merged,
     mergePokes pretty pretty hash [poke1; poke2] issuesSchema = Ok (Some merged) ∧
     pi_baseCookie merged = None ∧
     pr_cookie (pullResponse merged) = "02") ∧
  (∃ e, mergePokes pretty pretty hash [poke1; gapPoke] issuesSchema = Throw e).
Proof.
  pose proof (mergePokes_cookie_chain pretty pretty hash issuesSchema poke1 [poke2])
    as (Hret & _ & _).
  pose proof (mergePokes_cookie_chain pretty pretty hash issuesSchema poke1 [gapPoke])
    as (_ & Hgap & _).
  split.
  - destruct (Hret _ eq_refl) as (merged & Hm & Hb & Hc).
    exists merged. inversion Hm; subst merged. done.
  - apply Hgap. exists [], poke1, gapPoke, []. split; [done|].
    exists "04". done.
Defined.

(** C1 (counterexample): the handler accepts two pokes into its buffer, the
    first from [null] to ["03"], the second from ["01"] to ["04"]; no base
    cookie exceeds the cookie before it.  Delivered in order to a fresh
    client, the first poke is applied and the second is refused, which leaves
    the client at ["03"] with last mutation ID 5; [mergePokes] returns one poke
    from [null] to ["04"], which the client accepts and which leaves it at
    ["04"] with last mutation ID 3.  And on a buffer with a cookie gap there
    is no merged poke at all. *)
Lemma merged_poke_differs_from_in_order :
  pokeBuffer
    (receivePoke "c1"
       (receivePoke "c1" idleHandler (pokeStart aheadPoke) (parts aheadPoke)
          {| end_pokeID := "p5"; cancel := false |})
       (pokeStart behindPoke) (parts behindPoke)
       {| end_pokeID := "p6"; cancel := false |})
  = [aheadPoke; behindPoke] ∧
  ¬ hasCookieGap [aheadPoke; behindPoke] ∧
  applyInOrder pretty pretty hash journal issuesSchema [aheadPoke] freshClient
  = Ok {| cs_cookie := Some "03";
          cs_lastMutationIDs := {[ "c1" := 5 ]};
          cs_store := [] |} ∧
  applyInOrder pretty pretty hash journal issuesSchema [aheadPoke; behindPoke]
    freshClient
  = Throw UnexpectedBaseCookie ∧
  ∃ merged,
    mergePokes pretty pretty hash [aheadPoke; behindPoke] issuesSchema
    = Ok (Some merged) ∧
    replicachePoke journal merged freshClient
    = Ok {| cs_cookie := Some "04";
            cs_lastMutationIDs := {[ "c1" := 3 ]};
            cs_store := [] |} ∧
    mergePokes pretty pretty hash [poke1; gapPoke] issuesSchema
    = Throw (CookieGap (pokeStart poke1) (pokeStart gapPoke)).
Proof.
  split; [reflexivity|]. split.
  { intros Hgap%noGapAfter_false. vm_compute in Hgap. discriminate. }
  split; [vm_compute; reflexivity|]. split; [vm_compute; reflexivity|].
  eexists. repeat split; vm_compute; reflexivity.
Qed.

Lemma mergePokes_same_as_in_order_witness :
  ∃ client',
    applyInOrder pretty pretty hash journal issuesSchema [poke1; poke2] freshClient
    = Ok client' ∧
    ∃ merged,
      mergePokes pretty pretty hash [poke1; poke2] issuesSchema = Ok (Some merged) ∧
      replicachePoke journal merged freshClient = Ok client' ∧
      pr_lastMutationIDChanges (pullResponse merged) !! "c1" = Some 3 ∧
      map Some (pr_patch (pullResponse merged))
      = specifiedPatch pretty pretty hash issuesSchema [poke1; poke2].
Proof.
  eexists. split; [vm_compute; reflexivity|].
  destruct (mergePokes_same_as_in_order pretty pretty hash journal issuesSchema
              poke1 [poke2]) as [Hsame Hmerged].
  destruct (Hsame freshClient _ ltac:(vm_compute; reflexivity))
    as (merged & Hm & Hp & _).
  destruct (Hmerged merged Hm) as (Hlast & _ & Hpatch).
  exists merged. split; [exact Hm|]. split; [exact Hp|]. split; [|exact Hpatch].
  apply (Hlast "c1" [List.hd (emptyPart "") (parts poke1);
                     List.hd (emptyPart "") (parts poke2)]
               (List.last (parts poke2) (emptyPart "")) []); [done..|constructor].
Defined.

(** The patch that [mergePokes] makes of [poke1] and [poke2], operation by
    operation. *)
Example merged_patch_of_two_pokes :
  ∃ merged,
    mergePokes pretty pretty hash [poke1; poke2] issuesSchema = Ok (Some merged) ∧
    pr_patch (pullResponse merged)
    = [ OpPut "c/c1" ValTrue;
        OpPut "d/c1/h1" (ValAST "issues-ast");
        OpPut "e/issues/a" (ValRow {[ "id" := VString "a" ]});
        OpPut "g/h1" (ValAST "issues-ast");
        OpDel "e/issues/a";
        OpPut "e/issues/7" (ValRow {[ "id" := VNumber 7 ]}) ].
Proof. eexists. split; vm_compute; reflexivity. Qed.

End PokesSamples.

(** ** The connect handler *)

Section ConnectProperties.
Import Connect.

Variable parseInt : string → option Z.
Variable decodeUserID : string → option (option string).
Variable USER_DATA_HEADER_NAME : string.

Local Abbreviation getConnectRequest' :=
  (getConnectRequest parseInt decodeUserID USER_DATA_HEADER_NAME).
Local Abbreviation handleConnection' :=
  (handleConnection parseInt decodeUserID USER_DATA_HEADER_NAME).

Lemma theSocket_insert ws s (m : gmap nat Socket) : theSocket (<[ws := s]> m) ws = s.
Proof. unfold theSocket. by rewrite lookup_insert_eq. Qed.

Lemma theSocket_insert_ne ws x s (m : gmap nat Socket) :
  ws ≠ x → theSocket (<[ws := s]> m) x = theSocket m x.
Proof. intros. unfold theSocket. by rewrite lookup_insert_ne. Qed.

Lemma sent_socketSend ws frame m :
  sent (theSocket (socketSend ws frame m) ws) = sent (theSocket m ws) ++ [frame].
Proof. unfold socketSend. by rewrite theSocket_insert. Qed.

Lemma isClosed_socketSend ws frame m x :
  isClosed (theSocket (socketSend ws frame m) x) = isClosed (theSocket m x).
Proof.
  unfold socketSend. destruct (decide (ws = x)) as [->|].
  - by rewrite theSocket_insert.
  - by rewrite theSocket_insert_ne.
Qed.

Lemma sent_addEventListener ws l m x :
  sent (theSocket (addEventListener ws l m) x) = sent (theSocket m x).
Proof.
  unfold addEventListener. destruct (decide (ws = x)) as [->|].
  - by rewrite theSocket_insert.
  - by rewrite theSocket_insert_ne.
Qed.

Lemma isClosed_addEventListener ws l m x :
  isClosed (theSocket (addEventListener ws l m) x) = isClosed (theSocket m x).
Proof.
  unfold addEventListener. destruct (decide (ws = x)) as [->|].
  - by rewrite theSocket_insert.
  - by rewrite theSocket_insert_ne.
Qed.

Lemma sent_socketClose ws m x :
  sent (theSocket (socketClose ws m) x) = sent (theSocket m x).
Proof.
  unfold socketClose. destruct (decide (ws = x)) as [->|].
  - by rewrite theSocket_insert.
  - by rewrite theSocket_insert_ne.
Qed.

Lemma isClosed_socketClose ws m : isClosed (theSocket (socketClose ws m) ws) = true.
Proof. unfold socketClose. by rewrite theSocket_insert. Qed.

Lemma sendError_spec ws error w :
  sent (theSocket (sockets (sendError ws error w)) ws)
  = sent (theSocket (sockets w) ws) ++ [ErrorFrame error] ∧
  isClosed (theSocket (sockets (sendError ws error w)) ws) = true ∧
  storage (sendError ws error w) = storage w ∧
  clients (sendError ws error w) = clients w.
Proof.
  unfold sendError. simpl.
  by rewrite sent_socketClose, sent_socketSend, isClosed_socketClose.
Qed.

(** C6: for every connect request that parses, [handleConnection] rejects it
    (an error frame is sent on the socket, the socket is closed, nothing is
    registered or stored) when its [lmid] exceeds the last mutation ID of the
    stored client record (0 without a record) or its [baseCookie] exceeds the
    current version; otherwise it closes the socket previously registered for
    the client ID, if any, registers the new socket and sends the [connected]
    frame on it. *)
Theorem handleConnection_validates ws url headers w req :
  getConnectRequest' url headers = Ok req →
  ((lmid req > default 0 (lastMutationID <$> clientRecords (storage w) !! clientID req)
    ∨ compareVersions (baseCookie req) (version (storage w)) > 0) →
   ∃ error,
     sent (theSocket (sockets (handleConnection' ws url headers w)) ws)
     = sent (theSocket (sockets w) ws) ++ [ErrorFrame error] ∧
     isClosed (theSocket (sockets (handleConnection' ws url headers w)) ws) = true ∧
     storage (handleConnection' ws url headers w) = storage w ∧
     clients (handleConnection' ws url headers w) = clients w) ∧
  (¬ (lmid req > default 0 (lastMutationID <$> clientRecords (storage w) !! clientID req)
      ∨ compareVersions (baseCookie req) (version (storage w)) > 0) →
   (∀ existing, clients w !! clientID req = Some existing →
      isClosed (theSocket (sockets (handleConnection' ws url headers w))
                          (socket existing)) = true) ∧
   clients (handleConnection' ws url headers w)
   = <[clientID req := {| socket := ws;
                          userData := req_userData req;
                          clockBehindByMs := None;
                          pending := [] |}]> (clients w) ∧
   sent (theSocket (sockets (handleConnection' ws url headers w)) ws)
   = sent (theSocket (sockets w) ws) ++ [ConnectedFrame]).
Proof.
  intros Hreq. unfold handleConnection. rewrite Hreq. unfold getClientRecord, getVersion.
  destruct (Z.gtb_spec (lmid req)
              (default 0 (lastMutationID <$> clientRecords (storage w) !! clientID req)))
    as [Hlmid|Hlmid].
  { split; [|intros Hno; exfalso; apply Hno; left; lia].
    intros _. eexists. apply sendError_spec. }
  destruct (Z.gtb_spec (compareVersions (baseCookie req) (version (storage w))) 0)
    as [Hver|Hver].
  { split; [|intros Hno; exfalso; apply Hno; right; lia].
    intros _. eexists. apply sendError_spec. }
  split; [intros [?|?]; lia|]. intros _. simpl. split; [|split; [done|]].
  - intros existing ->.
    by rewrite isClosed_socketSend, !isClosed_addEventListener, isClosed_socketClose.
  - rewrite sent_socketSend, !sent_addEventListener.
    destruct (clients w !! clientID req); [|done]. by rewrite sent_socketClose.
Qed.

End ConnectProperties.

Lemma handleConnection_validates_witness :
  (∃ error,
     Connect.sent (Connect.theSocket
       (Connect.sockets (Connect.handleConnection Samples.parseDecimal
          Samples.plainUserID "x-user-data" 2%nat Samples.connectURL
          Samples.connectHeaders Samples.staleRoom)) 2%nat)
     = [Connect.ErrorFrame error]) ∧
  Connect.isClosed (Connect.theSocket
    (Connect.sockets (Connect.handleConnection Samples.parseDecimal
       Samples.plainUserID "x-user-data" 2%nat Samples.connectURL
       Samples.connectHeaders Samples.room)) 1%nat) = true ∧
  Connect.sent (Connect.theSocket
    (Connect.sockets (Connect.handleConnection Samples.parseDecimal
       Samples.plainUserID "x-user-data" 2%nat Samples.connectURL
       Samples.connectHeaders Samples.room)) 2%nat) = [Connect.ConnectedFrame].
Proof.
  pose proof (handleConnection_validates Samples.parseDecimal Samples.plainUserID
                "x-user-data" 2%nat Samples.connectURL Samples.connectHeaders
                Samples.staleRoom _ eq_refl) as [Hreject _].
  pose proof (handleConnection_validates Samples.parseDecimal Samples.plainUserID
                "x-user-data" 2%nat Samples.connectURL Samples.connectHeaders
                Samples.room _ eq_refl) as [_ Haccept].
  split; [|split].
  - destruct Hreject as (error & Hsent & _); [left; vm_compute; reflexivity|].
    exists error. exact Hsent.
  - destruct Haccept as (Hold & _ & _); [intros [H|H]; vm_compute in H; discriminate|].
    exact (Hold _ eq_refl).
  - destruct Haccept as (_ & _ & Hsent); [intros [H|H]; vm_compute in H; discriminate|].
    exact Hsent.
Defined.

(** ** The connection loop *)

Section ConnLoopProperties.
Import ConnLoop.

Lemma prune_mostRecent (sendRecords : list SendRecord) :
  prune sendRecords = mostRecent 9 sendRecords.
Proof.
  unfold mostRecent. induction sendRecords as [|r rest IH]; [done|].
  cbn [prune]. unfold CONNECTION_MEMORY_COUNT in *.
  destruct (Nat.ltb_spec 9 (length (r :: rest))) as [Hlt|Hge]; simpl in *.
  - rewrite IH. replace (length rest - 8)%nat with (S (length rest - 9)) by lia.
    done.
  - by replace (length rest - 8)%nat with 0%nat by lia.
Qed.

Lemma mostRecent_short {A} (n : nat) (l : list A) :
  (length l <= n)%nat → mostRecent n l = l.
Proof. intros. unfold mostRecent. by replace (length l - n)%nat with 0%nat by lia. Qed.

Lemma odd_mod2 (n : nat) : Nat.odd n = (n mod 2 =? 1)%nat.
Proof.
  assert (Nat.odd n = (n mod 2 =? 1)%nat ∧ Nat.odd (S n) = (S n mod 2 =? 1)%nat)
    as [H _]; [|exact H].
  induction n as [|n [IH1 IH2]]; [done|]. split; [done|].
  replace (S (S n)) with (n + 1 * 2)%nat at 2 by lia.
  by rewrite Nat.Div0.mod_add, <- IH1.
Qed.

Lemma median_medianOf (values : list Z) :
  Array_sort values = numericSort values → median values = medianOf values.
Proof.
  intros Hsort. unfold median, medianOf. rewrite Hsort.
  rewrite Nat.shiftr_div_pow2. change (2 ^ 1)%nat with 2%nat.
  by rewrite odd_mod2.
Qed.

(** C7 (amended): when a send follows a failed request or overlaps requests
    in flight, the computed inter-send delay is the new delay clamped to
    [[minDelayMs, maxDelayMs]], where the new delay is
    - the old delay, while no request has completed;
    - after a failed request, [minDelayMs] if the old delay was 0 and twice
      the old delay otherwise;
    - after the first success that follows a failure, [minDelayMs];
    - otherwise the median of the successful durations among the last at most
      9 requests, divided by [maxConnections] and truncated to a 32-bit
      integer, for durations that the default sort orders numerically. *)
Theorem delayForNextSend_cases
    (counter : nat) (delay : Z) (delegate : ConnectionLoopDelegate)
    (sendRecords : list SendRecord) :
  ((0 < counter)%nat ∨ didLastSendRequestFail sendRecords = true) →
  ∃ newDelay,
    delayForNextSend counter delay delegate sendRecords
    = (newDelay,
       Z.min (maxDelayMs delegate) (Z.max (minDelayMs delegate) newDelay),
       match last sendRecords with
       | Some lastRecord =>
           if ok lastRecord then mostRecent 9 sendRecords else sendRecords
       | None => sendRecords
       end) ∧
    (sendRecords = [] → newDelay = delay) ∧
    (∀ lastRecord, last sendRecords = Some lastRecord →
       (ok lastRecord = false →
          newDelay = if (delay =? 0)%Z then minDelayMs delegate else delay * 2) ∧
       (ok lastRecord = true →
          (∀ previous,
             sendRecords !! (length sendRecords - 2)%nat = Some previous →
             (1 < length sendRecords)%nat → ok previous = false →
             newDelay = minDelayMs delegate) ∧
          (((length sendRecords <= 1)%nat ∨
            ∃ previous,
              sendRecords !! (length sendRecords - 2)%nat = Some previous ∧
              ok previous = true) →
           Array_sort (successfulDurations (mostRecent 9 sendRecords))
           = numericSort (successfulDurations (mostRecent 9 sendRecords)) →
           newDelay = divToInt32
                        (medianOf (successfulDurations (mostRecent 9 sendRecords)))
                        (maxConnections delegate)))).
Proof.
  intros Hbranch. unfold delayForNextSend.
  replace ((0 <? counter)%nat || didLastSendRequestFail sendRecords) with true.
  2:{ symmetry. destruct Hbranch as [Hc| ->]; [|by rewrite orb_true_r].
      by apply Nat.ltb_lt in Hc as ->. }
  unfold computeDelayAndUpdateDurations.
  destruct (last sendRecords) as [lastRecord|] eqn:Hlast.
  2:{ eexists. split; [done|]. split; [done|]. by intros ? [=]. }
  assert (sendRecords ≠ []) as Hne by (by intros ->).
  destruct (ok lastRecord) eqn:Hok; simpl.
  2:{ eexists. split; [done|]. split; [done|].
      intros ? [= <-]. rewrite Hok. by split. }
  destruct (Nat.ltb_spec 1 (length sendRecords)) as [Hlen|Hlen].
  - rewrite prune_mostRecent.
    destruct (sendRecords !! (length sendRecords - 2)%nat) as [previous|] eqn:Hprev.
    + destruct (ok previous) eqn:Hpok; simpl.
      * eexists. split; [done|]. split; [done|]. intros ? [= <-].
        split; [by rewrite Hok|]. intros _. split.
        -- intros p [= <-] _ ?. congruence.
        -- intros _ Hsort. fold (successfulDurations (mostRecent 9 sendRecords)).
           by rewrite (median_medianOf _ Hsort).
      * eexists. split; [done|]. split; [done|]. intros ? [= <-].
        split; [by rewrite Hok|]. intros _. split; [done|].
        intros [?|(p & [= <-] & ?)]; [lia | congruence].
    + apply lookup_ge_None in Hprev. lia.
  - rewrite (mostRecent_short 9 sendRecords) by lia.
    eexists. split; [done|]. split; [done|]. intros ? [= <-].
    split; [by rewrite Hok|]. intros _. split.
    + intros; lia.
    + intros _ Hsort. fold (successfulDurations sendRecords).
      by rewrite (median_medianOf _ Hsort).
Qed.

(** *** [send] and [close] *)

Lemma countSuspended_app cs cs' :
  countSuspended (cs ++ cs') = (countSuspended cs + countSuspended cs')%nat.
Proof. unfold countSuspended. by rewrite filter_app, length_app. Qed.

Lemma countSuspended_insert cs c old new :
  cs !! c = Some old →
  (countSuspended (<[c := new]> cs) + (if suspended old then 1 else 0)
   = countSuspended cs + (if suspended new then 1 else 0))%nat.
Proof.
  unfold countSuspended. revert c. induction cs as [|x cs IH]; intros c Hc; [done|].
  destruct c as [|c]; simpl in *.
  - inversion Hc; subst x. rewrite !filter_cons.
    destruct old, new; simpl; repeat case_decide; simpl; try done; lia.
  - rewrite !filter_cons. specialize (IH c Hc).
    case_decide; simpl; lia.
Qed.

Lemma resolve_length r v rs : length (resolve r v rs) = length rs.
Proof. unfold resolve. destruct (rs !! r) as [[?|]|]; by rewrite ?length_insert. Qed.

Lemma resolve_resolved r v rs w : rs !! r = Some (Some w) → resolve r v rs = rs.
Proof. unfold resolve. by intros ->. Qed.

Lemma last_Some_nonempty {A} (l : list A) x : last l = Some x → (0 < length l)%nat.
Proof. destruct l; [done|]. simpl. lia. Qed.

Lemma OpenLoop_initial : OpenLoop initial.
Proof.
  split; try done.
  intros r Hr. unfold sendResolver in Hr. simpl in Hr. lia.
Qed.

Lemma OpenLoop_current_lookup loop :
  OpenLoop loop → resolvers loop !! sendResolver loop = Some None.
Proof.
  intros [_ Hcur _ _ _]. unfold sendResolver.
  rewrite last_lookup in Hcur. by replace (length (resolvers loop) - 1)%nat
    with (pred (length (resolvers loop))) by lia.
Qed.

Lemma OpenLoop_step loop ev :
  OpenLoop loop → closed (step loop ev) = false → OpenLoop (step loop ev).
Proof.
  intros Hopen Hstill. pose proof (OpenLoop_current_lookup loop Hopen) as Hcurrent.
  destruct Hopen as [Hclosed Hcur Hpast Hcount Hawait].
  pose proof (last_Some_nonempty _ _ Hcur) as Hne.
  destruct ev as [now|c|c|error|]; simpl in *.
  - (* send *)
    unfold send in *. rewrite Hclosed in *. split; simpl; try done.
    + rewrite countSuspended_app, Hcount. destruct now; unfold countSuspended; simpl; lia.
    + intros c r [Hc|[Hlen Hc]]%lookup_app_Some; [by eapply Hawait|].
      destruct (c - length (calls loop))%nat; [|done].
      destruct now; simpl in Hc; [|done]. by inversion Hc.
  - (* the call becomes visible *)
    unfold becomeVisible in *.
    destruct (calls loop !! c) as [[| |]|] eqn:Hc; try (by split).
    split; simpl; try done.
    + pose proof (countSuspended_insert _ c _
                    (AwaitingSendResolver (sendResolver loop)) Hc) as H.
      simpl in H. lia.
    + intros c' r Hc'. destruct (decide (c = c')) as [<-|Hne'].
      * rewrite list_lookup_insert_eq in Hc' by (by eapply lookup_lt_Some).
        by inversion Hc'.
      * rewrite list_lookup_insert_ne in Hc' by done. by eapply Hawait.
  - (* the call resumes *)
    unfold resume in *.
    destruct (calls loop !! c) as [[|r|]|] eqn:Hc; try (by split).
    destruct (resolvers loop !! r) as [[v|]|] eqn:Hr; try (by split).
    split; simpl; try done.
    + pose proof (countSuspended_insert _ c _ (Returned v) Hc) as H.
      simpl in H. lia.
    + intros c' r' Hc'. destruct (decide (c = c')) as [<-|Hne'].
      * rewrite list_lookup_insert_eq in Hc' by (by eapply lookup_lt_Some). done.
      * rewrite list_lookup_insert_ne in Hc' by done. by eapply Hawait.
  - (* a request completes *)
    unfold requestDone in *. rewrite Hclosed in *.
    set (v := match error with Some e => SendError e | None => SendOk end).
    assert (resolve (sendResolver loop) v (resolvers loop ++ [None])
            = <[sendResolver loop := Some v]> (resolvers loop) ++ [None]) as Hres.
    { unfold resolve. rewrite lookup_app_l by (unfold sendResolver; lia).
      rewrite Hcurrent. apply insert_app_l. unfold sendResolver; lia. }
    split; simpl; try done; rewrite Hres.
    + by rewrite last_snoc.
    + unfold sendResolver at 1. simpl. rewrite length_app, length_insert. simpl.
      intros r Hr.
      destruct (decide (r = sendResolver loop)) as [->|Hne'].
      * exists v. rewrite lookup_app_l by (rewrite length_insert; unfold sendResolver; lia).
        apply list_lookup_insert_eq. unfold sendResolver; lia.
      * destruct (Hpast r) as [w Hw]; [unfold sendResolver in *; lia|].
        exists w. rewrite lookup_app_l by (rewrite length_insert; unfold sendResolver in *; lia).
        by rewrite list_lookup_insert_ne.
    + intros c r Hc. specialize (Hawait c r Hc).
      unfold sendResolver in *. simpl. rewrite length_app, length_insert. simpl. lia.
  - done.
Qed.

Lemma closed_step loop ev : closed loop = true → closed (step loop ev) = true.
Proof.
  intros Hc. destruct ev as [now|c|c|error|]; simpl.
  - unfold send. by rewrite Hc.
  - unfold becomeVisible. by destruct (calls loop !! c) as [[| |]|].
  - unfold resume. destruct (calls loop !! c) as [[|r|]|]; try done.
    by destruct (resolvers loop !! r) as [[|]|].
  - unfold requestDone. by rewrite Hc.
  - done.
Qed.

Lemma closed_run events loop : closed loop = true → closed (runEvents events loop) = true.
Proof.
  revert loop. induction events as [|ev events IH]; intros loop Hc; [done|].
  simpl. apply IH. by apply closed_step.
Qed.

Lemma OpenLoop_run events loop :
  OpenLoop loop → closed (runEvents events loop) = false → OpenLoop (runEvents events loop).
Proof.
  revert loop. induction events as [|ev events IH]; intros loop Hopen Hstill; [done|].
  simpl in *. apply IH; [|done]. apply OpenLoop_step; [done|].
  destruct (closed (step loop ev)) eqn:Hc; [|done].
  by rewrite (closed_run events _ Hc) in Hstill.
Qed.

Lemma suspended_counted cs c call :
  cs !! c = Some call → suspended call = true → (0 < countSuspended cs)%nat.
Proof.
  intros Hc Hs. pose proof (countSuspended_insert cs c call (Returned SendOk) Hc) as H.
  rewrite Hs in H. simpl in H. lia.
Qed.

Lemma close_ClosedFor loop c :
  OpenLoop loop → pendingSend loop c → ClosedFor c (close loop).
Proof.
  intros Hopen Hpending.
  pose proof (OpenLoop_current_lookup loop Hopen) as Hcurrent.
  destruct Hopen as [Hclosed Hcur Hpast Hcount Hawait].
  assert (0 < sendCounter loop)%nat as Hpos.
  { rewrite Hcount. destruct Hpending as [Hc|(r & Hc & _)];
      by eapply suspended_counted. }
  assert (sendResolver (close loop) = sendResolver loop) as Hsame.
  { unfold sendResolver, close. simpl.
    destruct (0 <? sendCounter loop)%nat; by rewrite ?resolve_length. }
  split; simpl.
  - done.
  - rewrite Hsame. apply Nat.ltb_lt in Hpos as ->.
    unfold resolve. rewrite Hcurrent. apply list_lookup_insert_eq.
    by eapply lookup_lt_Some.
  - rewrite Hsame. destruct Hpending as [Hc|(r & Hc & Hr)]; [by left|].
    right; left. rewrite Hc. do 2 f_equal.
    specialize (Hawait c r Hc).
    destruct (decide (r = sendResolver loop)) as [->|Hne]; [done|].
    destruct (Hpast r) as [v Hv]; [lia|]. congruence.
Qed.

Lemma ClosedFor_step loop c ev : ClosedFor c loop → ClosedFor c (step loop ev).
Proof.
  intros [Hclosed Hcur Hcall].
  destruct ev as [now|c'|c'|error|]; simpl.
  - unfold send. rewrite Hclosed. split; simpl; try done.
    destruct Hcall as [H|[H|H]]; [left|right; left|right; right];
      by apply lookup_app_l_Some.
  - unfold becomeVisible.
    destruct (calls loop !! c') as [[| |]|] eqn:Hc'; try (by split).
    split; simpl; try done.
    destruct (decide (c' = c)) as [->|Hne].
    + right; left. apply list_lookup_insert_eq. by eapply lookup_lt_Some.
    + by rewrite list_lookup_insert_ne.
  - unfold resume.
    destruct (calls loop !! c') as [[|r|]|] eqn:Hc'; try (by split).
    destruct (resolvers loop !! r) as [[v|]|] eqn:Hr; try (by split).
    split; simpl; try done.
    destruct (decide (c' = c)) as [->|Hne].
    + right; right. rewrite list_lookup_insert_eq by (by eapply lookup_lt_Some).
      destruct Hcall as [H|[H|H]]; congruence.
    + by rewrite list_lookup_insert_ne.
  - unfold requestDone. rewrite Hclosed. by split.
  - assert (resolvers (close loop) = resolvers loop) as Hres.
    { unfold close. simpl. destruct (0 <? sendCounter loop)%nat; [|done].
      by eapply resolve_resolved. }
    assert (sendResolver (close loop) = sendResolver loop) as Hsame.
    { unfold sendResolver. by rewrite Hres. }
    split; [done| |]; rewrite Hsame; [|done].
    by rewrite Hres.
Qed.

Lemma ClosedFor_run events loop c : ClosedFor c loop → ClosedFor c (runEvents events loop).
Proof.
  revert loop. induction events as [|ev events IH]; intros loop H; [done|].
  simpl. apply IH. by apply ClosedFor_step.
Qed.

Lemma resolve_keeps r v rs r' w :
  rs !! r' = Some (Some w) → resolve r v rs !! r' = Some (Some w).
Proof.
  intros Hr'. destruct (decide (r = r')) as [->|Hne].
  - by rewrite (resolve_resolved _ _ _ _ Hr').
  - unfold resolve. destruct (rs !! r) as [[|]|]; [done| |done].
    by rewrite list_lookup_insert_ne.
Qed.

Lemma AnsweredBy_step c r v loop ev :
  AnsweredBy c r v loop → AnsweredBy c r v (step loop ev).
Proof.
  intros [Hres Hcall].
  assert (c < length (calls loop))%nat as Hlen.
  { destruct Hcall as [Hcall|Hcall]; by eapply lookup_lt_Some. }
  destruct ev as [now|c'|c'|error|]; simpl.
  - unfold send. destruct (closed loop); split; simpl; try done.
    all: destruct Hcall as [Hcall|Hcall]; [left|right].
    all: by rewrite lookup_app_l.
  - unfold becomeVisible.
    destruct (calls loop !! c') as [[| |]|] eqn:Hc'; try done.
    split; simpl; [done|].
    assert (c' ≠ c) as Hne by (intros ->; destruct Hcall; congruence).
    by rewrite list_lookup_insert_ne.
  - unfold resume.
    destruct (calls loop !! c') as [[|r'|]|] eqn:Hc'; try done.
    destruct (resolvers loop !! r') as [[result|]|] eqn:Hr'; try done.
    split; simpl; [done|].
    destruct (decide (c' = c)) as [->|Hne].
    + right. rewrite list_lookup_insert_eq by done.
      destruct Hcall as [Hcall|Hcall]; congruence.
    + by rewrite list_lookup_insert_ne.
  - unfold requestDone. destruct (closed loop); [done|].
    split; simpl; [|done].
    apply resolve_keeps. rewrite lookup_app_l; [done|by eapply lookup_lt_Some].
  - split; simpl; [|done].
    destruct (0 <? sendCounter loop)%nat; [|done]. by apply resolve_keeps.
Qed.

Lemma AnsweredBy_run events c r v : ∀ loop,
  AnsweredBy c r v loop → AnsweredBy c r v (runEvents events loop).
Proof.
  induction events as [|ev events IH]; intros loop Hinv; [done|].
  simpl. apply IH. by apply AnsweredBy_step.
Qed.

(** A call that is past its wait for visibility never waits for it again. *)
Lemma pastVisible_step loop c ev :
  (c < length (calls loop))%nat → calls loop !! c ≠ Some WaitingForVisible →
  (c < length (calls (step loop ev)))%nat ∧
  calls (step loop ev) !! c ≠ Some WaitingForVisible.
Proof.
  intros Hlen Hcall. destruct ev as [now|c'|c'|error|]; simpl.
  - unfold send. destruct (closed loop); simpl;
      rewrite length_app, lookup_app_l by done; split; [lia|done|lia|done].
  - unfold becomeVisible.
    destruct (calls loop !! c') as [[| |]|] eqn:Hc'; try done.
    simpl. rewrite length_insert. split; [done|].
    destruct (decide (c' = c)) as [->|Hne]; [congruence|].
    by rewrite list_lookup_insert_ne.
  - unfold resume.
    destruct (calls loop !! c') as [[|r|]|] eqn:Hc'; try done.
    destruct (resolvers loop !! r) as [[v|]|]; try done.
    simpl. rewrite length_insert. split; [done|].
    destruct (decide (c' = c)) as [->|Hne].
    + by rewrite list_lookup_insert_eq.
    + by rewrite list_lookup_insert_ne.
  - unfold requestDone. by destruct (closed loop).
  - done.
Qed.

Lemma pastVisible_run events c : ∀ loop,
  (c < length (calls loop))%nat → calls loop !! c ≠ Some WaitingForVisible →
  calls (runEvents events loop) !! c ≠ Some WaitingForVisible.
Proof.
  induction events as [|ev events IH]; intros loop Hlen Hcall; [done|].
  simpl. destruct (pastVisible_step loop c ev Hlen Hcall). by apply IH.
Qed.

(** Nothing but the document becoming visible for it moves a call that waits
    for visibility; [close] does not. *)
Lemma waitingForVisible_run events c : ∀ loop,
  EvVisible c ∉ events →
  calls loop !! c = Some WaitingForVisible →
  calls (runEvents events loop) !! c = Some WaitingForVisible.
Proof.
  induction events as [|ev events IH]; intros loop Hno Hcall; [done|].
  apply not_elem_of_cons in Hno as [Hev Hno].
  simpl. apply IH; [done|].
  assert (c < length (calls loop))%nat as Hlen by (by eapply lookup_lt_Some).
  destruct ev as [now|c'|c'|error|]; simpl.
  - unfold send. destruct (closed loop); simpl; by rewrite lookup_app_l.
  - unfold becomeVisible.
    destruct (calls loop !! c') as [[| |]|] eqn:Hc'; try done.
    simpl. rewrite list_lookup_insert_ne; [done|congruence].
  - unfold resume.
    destruct (calls loop !! c') as [[|r|]|] eqn:Hc'; try done.
    destruct (resolvers loop !! r) as [[v|]|]; try done.
    simpl. rewrite list_lookup_insert_ne; [done|congruence].
  - unfold requestDone. by destruct (closed loop).
  - done.
Qed.

(** C8 (amended): after [close()] no send promise rejects, and what a send
    that was pending when the loop was closed resolves with depends on where it
    stood, which is one of three places:
    - its request had already completed: it resolves with the result of that
      request, as soon as it resumes;
    - it waited for a request: it resolves with [{error: Error('Closed')}], as
      soon as it resumes;
    - it waited for the document to become visible: [close()] does not wake
      it, it stays pending until the document becomes visible and then
      resolves with [{error: Error('Closed')}].
    Any later [send()] resolves at once with [{error: Error('Closed')}]. *)
Theorem close_settles_sends (before after : list Event) (c : nat) :
  closed (runEvents before initial) = false →
  (c < length (calls (runEvents before initial)))%nat →
  sendPromise (runEvents before initial) c = Pending →
  (∀ e, sendPromise (runEvents after (close (runEvents before initial))) c ≠ Rejected e) ∧
  (calls (runEvents before initial) !! c = Some WaitingForVisible ∨
   ∃ r, calls (runEvents before initial) !! c = Some (AwaitingSendResolver r) ∧
        (resolvers (runEvents before initial) !! r = Some None ∨
         ∃ v, resolvers (runEvents before initial) !! r = Some (Some v))) ∧
  (∀ r v,
     calls (runEvents before initial) !! c = Some (AwaitingSendResolver r) →
     resolvers (runEvents before initial) !! r = Some (Some v) →
     (∀ result,
        sendPromise (runEvents after (close (runEvents before initial))) c = Resolved result →
        result = v) ∧
     sendPromise (resume c (runEvents after (close (runEvents before initial)))) c
     = Resolved v) ∧
  (∀ r,
     calls (runEvents before initial) !! c = Some (AwaitingSendResolver r) →
     resolvers (runEvents before initial) !! r = Some None →
     (∀ result,
        sendPromise (runEvents after (close (runEvents before initial))) c = Resolved result →
        result = SendError closeError) ∧
     sendPromise (resume c (runEvents after (close (runEvents before initial)))) c
     = Resolved (SendError closeError)) ∧
  (calls (runEvents before initial) !! c = Some WaitingForVisible →
     (EvVisible c ∉ after →
      sendPromise (runEvents after (close (runEvents before initial))) c = Pending) ∧
     (∀ result,
        sendPromise (runEvents after (close (runEvents before initial))) c = Resolved result →
        result = SendError closeError) ∧
     sendPromise
       (resume c (becomeVisible c (runEvents after (close (runEvents before initial))))) c
     = Resolved (SendError closeError)) ∧
  (∀ now,
     sendPromise (send now (runEvents after (close (runEvents before initial))))
                 (length (calls (runEvents after (close (runEvents before initial)))))
     = Resolved (SendError closeError)).
Proof.
  intros Hstill Hlen Hpromise.
  pose proof (OpenLoop_run before initial OpenLoop_initial Hstill) as Hopen.
  set (atClose := runEvents before initial) in *.
  set (loop := runEvents after (close atClose)).
  assert (∀ result, calls loop !! c = Some WaitingForVisible ∨
                    calls loop !! c = Some (AwaitingSendResolver (sendResolver loop)) ∨
                    calls loop !! c = Some (Returned (SendError closeError)) →
                    sendPromise loop c = Resolved result →
                    result = SendError closeError) as Hresult.
  { intros result Hcall. unfold sendPromise.
    destruct Hcall as [H|[H|H]]; rewrite H; [done..|]. by intros [= <-]. }
  split; [|split; [|split; [|split; [|split]]]].
  - intros e. unfold sendPromise. by destruct (calls loop !! c) as [[| |]|].
  - destruct (lookup_lt_is_Some_2 (calls atClose) c Hlen) as [call Hcall].
    unfold sendPromise in Hpromise. rewrite Hcall in *.
    destruct call as [|r|result]; [by left| |done].
    right. exists r. split; [done|].
    pose proof (open_await _ Hopen c r Hcall) as Hr.
    destruct (decide (r = sendResolver atClose)) as [->|Hne].
    + left. by apply OpenLoop_current_lookup.
    + right. apply (open_past _ Hopen). lia.
  - intros r v Hcall Hr.
    assert (AnsweredBy c r v atClose) as Hanswered by (split; [done|by left]).
    assert (AnsweredBy c r v loop) as [Hres Hc].
    { apply AnsweredBy_run. exact (AnsweredBy_step c r v _ EvClose Hanswered). }
    unfold sendPromise, resume.
    destruct Hc as [Hc|Hc]; rewrite Hc.
    + split; [done|]. rewrite Hres. simpl.
      rewrite list_lookup_insert_eq; [done|by eapply lookup_lt_Some].
    + split; [by intros result [= <-]|]. by rewrite Hc.
  - intros r Hcall Hr.
    assert (pendingSend atClose c) as Hpending by (right; by exists r).
    pose proof (ClosedFor_run after _ c (close_ClosedFor _ c Hopen Hpending))
      as [Hclosed Hcur Hafter].
    fold loop in Hclosed, Hcur, Hafter.
    split; [intros result; by apply Hresult|].
    assert (calls loop !! c ≠ Some WaitingForVisible) as Hpast.
    { apply pastVisible_run; [done|]. simpl. by rewrite Hcall. }
    unfold sendPromise, resume.
    destruct Hafter as [Hc|[Hc|Hc]]; [done| |]; rewrite Hc.
    + rewrite Hcur. simpl.
      rewrite list_lookup_insert_eq; [done|by eapply lookup_lt_Some].
    + by rewrite Hc.
  - intros Hcall.
    assert (pendingSend atClose c) as Hpending by (by left).
    pose proof (ClosedFor_run after _ c (close_ClosedFor _ c Hopen Hpending)) as Hafter.
    fold loop in Hafter.
    split; [|split].
    + intros Hno. unfold sendPromise, loop.
      by rewrite (waitingForVisible_run after c (close atClose) Hno Hcall).
    + intros result. apply Hresult. by destruct Hafter.
    + pose proof (ClosedFor_step _ c (EvVisible c) Hafter) as [_ Hcur Hvis].
      simpl in *. unfold sendPromise.
      destruct Hvis as [Hv|[Hv|Hv]].
      * exfalso. unfold becomeVisible in Hv.
        destruct (calls loop !! c) as [[| |]|] eqn:Hc; simpl in Hv; try congruence.
        rewrite list_lookup_insert_eq in Hv by (by eapply lookup_lt_Some). done.
      * unfold resume. rewrite Hv, Hcur. simpl.
        rewrite list_lookup_insert_eq by (by eapply lookup_lt_Some). done.
      * unfold resume. rewrite Hv. by rewrite Hv.
  - intros now. unfold sendPromise, send.
    assert (closed loop = true) as ->.
    { apply closed_run. done. }
    simpl. by rewrite lookup_app_r, Nat.sub_diag.
Qed.

End ConnLoopProperties.

(** C7 (counterexample): the send follows a failed request and the old delay
    is 500 ms; the computed delay is 1000 ms (the doubled delay), not the 75 ms
    that the median of the successful durations gives.  And when a send
    overlaps a request in flight right after the success that follows a
    failure, the computed delay is [minDelayMs] = 30 ms, not those 75 ms. *)
Lemma delay_after_failure_is_backoff :
  (ConnLoop.didLastSendRequestFail Samples.failedLast = true ∧
   ConnLoop.delayForNextSend 0 500 Samples.loopDelegate Samples.failedLast
   = (1000, 1000, Samples.failedLast) ∧
   ConnLoop.specifiedDelay Samples.loopDelegate Samples.failedLast = 75 ∧
   1000 ≠ 75) ∧
  (ConnLoop.delayForNextSend 1 600 Samples.loopDelegate Samples.recoveredLast
   = (30, 30, Samples.recoveredLast) ∧
   ConnLoop.specifiedDelay Samples.loopDelegate Samples.recoveredLast = 75 ∧
   30 ≠ 75).
Proof. vm_compute. repeat split; congruence. Qed.

Lemma delayForNextSend_cases_witness :
  ConnLoop.delayForNextSend 1 0 Samples.loopDelegate Samples.steady
  = (100, 100, Samples.steady) ∧
  ConnLoop.delayForNextSend 0 500 Samples.loopDelegate Samples.failedLast
  = (1000, 1000, Samples.failedLast).
Proof.
  destruct (delayForNextSend_cases 1 0 Samples.loopDelegate Samples.steady
              ltac:(left; lia)) as (d1 & H1 & _ & Hcases1).
  destruct (delayForNextSend_cases 0 500 Samples.loopDelegate Samples.failedLast
              ltac:(right; reflexivity)) as (d2 & H2 & _ & Hcases2).
  split.
  - rewrite H1. destruct (Hcases1 _ eq_refl) as [_ Hmed].
    destruct (Hmed eq_refl) as [_ Hm].
    rewrite (Hm ltac:(right; eexists; split; reflexivity) ltac:(vm_compute; reflexivity)).
    vm_compute. reflexivity.
  - rewrite H2. destruct (Hcases2 _ eq_refl) as [Hfail _].
    rewrite (Hfail eq_refl). reflexivity.
Defined.

(** The default sort compares decimal renderings, so durations of different
    lengths are not put in numeric order and [median] can return a value that
    is not the median. *)
Example median_of_mixed_lengths :
  ConnLoop.Array_sort [100; 5; 10] = [10; 100; 5] ∧
  ConnLoop.median [100; 5; 10] = Some (inject_Z 100) ∧
  ConnLoop.medianOf [100; 5; 10] = Some (inject_Z 10).
Proof. vm_compute. done. Qed.

(** C8 (counterexample): a send waits for a request, the loop is closed, the
    send resumes: its promise is resolved, not rejected, and the error it
    carries is a plain [Error] with message ['Closed'].  A send whose request
    completed just before the loop was closed is still pending then (its call
    has not resumed and [#sendCounter] is 1), and resolves with [undefined],
    the result of its request.  A send that waits for the document to become
    visible is still pending after the loop was closed. *)
Lemma closed_send_resolves :
  (ConnLoop.sendPromise (ConnLoop.runEvents [ConnLoop.EvSend true] ConnLoop.initial) 0
   = ConnLoop.Pending ∧
   ConnLoop.sendPromise
     (ConnLoop.runEvents [ConnLoop.EvSend true; ConnLoop.EvClose; ConnLoop.EvResume 0]
        ConnLoop.initial) 0
   = ConnLoop.Resolved
       (ConnLoop.SendError {| ConnLoop.errorClass := "Error";
                              ConnLoop.message := "Closed" |}) ∧
   (∀ e, ConnLoop.sendPromise
           (ConnLoop.runEvents [ConnLoop.EvSend true; ConnLoop.EvClose; ConnLoop.EvResume 0]
              ConnLoop.initial) 0
         ≠ ConnLoop.Rejected e)) ∧
  (ConnLoop.sendPromise
     (ConnLoop.runEvents [ConnLoop.EvSend true; ConnLoop.EvRequestDone None]
        ConnLoop.initial) 0
   = ConnLoop.Pending ∧
   ConnLoop.sendCounter
     (ConnLoop.runEvents [ConnLoop.EvSend true; ConnLoop.EvRequestDone None]
        ConnLoop.initial)
   = 1%nat ∧
   ConnLoop.sendPromise
     (ConnLoop.runEvents [ConnLoop.EvSend true; ConnLoop.EvRequestDone None;
                          ConnLoop.EvClose; ConnLoop.EvResume 0]
        ConnLoop.initial) 0
   = ConnLoop.Resolved ConnLoop.SendOk) ∧
  (ConnLoop.sendPromise (ConnLoop.runEvents [ConnLoop.EvSend false] ConnLoop.initial) 0
   = ConnLoop.Pending ∧
   ConnLoop.sendPromise
     (ConnLoop.runEvents [ConnLoop.EvSend false; ConnLoop.EvClose; ConnLoop.EvResume 0]
        ConnLoop.initial) 0
   = ConnLoop.Pending).
Proof.
  split; [|split].
  - split; [reflexivity|]. split; [reflexivity|]. intros e. discriminate.
  - repeat split; reflexivity.
  - split; reflexivity.
Qed.

Lemma close_settles_sends_witness :
  ConnLoop.sendPromise
    (ConnLoop.resume 0
       (ConnLoop.runEvents [ConnLoop.EvRequestDone None]
          (ConnLoop.close
             (ConnLoop.runEvents [ConnLoop.EvSend true; ConnLoop.EvRequestDone None;
                            ConnLoop.EvSend false]
                ConnLoop.initial)))) 0
  = ConnLoop.Resolved ConnLoop.SendOk ∧
  ConnLoop.sendPromise
    (ConnLoop.resume 1 (ConnLoop.becomeVisible 1
       (ConnLoop.runEvents [ConnLoop.EvRequestDone None]
          (ConnLoop.close
             (ConnLoop.runEvents [ConnLoop.EvSend true; ConnLoop.EvRequestDone None;
                            ConnLoop.EvSend false]
                ConnLoop.initial))))) 1
  = ConnLoop.Resolved (ConnLoop.SendError ConnLoop.closeError).
Proof.
  pose proof (close_settles_sends
                [ConnLoop.EvSend true; ConnLoop.EvRequestDone None; ConnLoop.EvSend false]
                [ConnLoop.EvRequestDone None] 0 eq_refl ltac:(simpl; lia) eq_refl)
    as (_ & _ & Hanswered & _).
  pose proof (close_settles_sends
                [ConnLoop.EvSend true; ConnLoop.EvRequestDone None; ConnLoop.EvSend false]
                [ConnLoop.EvRequestDone None] 1 eq_refl ltac:(simpl; lia) eq_refl)
    as (_ & _ & _ & _ & Hvisible & _).
  split.
  - exact (proj2 (Hanswered 0%nat ConnLoop.SendOk eq_refl eq_refl)).
  - exact (proj2 (proj2 (Hvisible eq_refl))).
Defined.

(** ** View-syncer: rows *)

Set Warnings "-clear-no-such-hyp".

Section ReceivedProperties.
Import CVR.

(** Case analysis on whether the row is live once the entry is merged in. *)
Ltac caseLive :=
  repeat match goal with
         | |- context [isLive (Some (mergedRefCounts ?u ?existing ?id ?update))] =>
             destruct (isLive (Some (mergedRefCounts u existing id update))) eqn:?
         end.

Lemma receivedRow_fixed u id update :
  newVersion (receivedRow u id update).1 = newVersion u ∧
  existingRows (receivedRow u id update).1 = existingRows u ∧
  removedOrExecutedQueryIDs (receivedRow u id update).1 = removedOrExecutedQueryIDs u ∧
  receivedRows (receivedRow u id update).1
  = <[id := mergedRefCounts u (snd <$> priorRecord (existingRows u) id update) id update]>
      (receivedRows u).
Proof.
  unfold receivedRow.
  destruct (priorRecord (existingRows u) id update) as [[old r]|]; simpl;
    by caseLive.
Qed.

Lemma receivedRow_other u id update id' :
  id' ∉ touched (existingRows u) id update →
  rowRecords (receivedRow u id update).1 !! id' = rowRecords u !! id' ∧
  receivedRows (receivedRow u id update).1 !! id' = receivedRows u !! id'.
Proof.
  unfold touched, receivedRow.
  destruct (priorRecord (existingRows u) id update) as [[old r]|]; simpl;
    caseLive; simpl; rewrite ?not_elem_of_cons; intros Hne;
    rewrite ?lookup_insert_ne, ?lookup_delete_ne by naive_solver; done.
Qed.

Lemma receivedRow_patches u id update p :
  p ∈ (receivedRow u id update).2 → patch p = RowPut id (contents update).
Proof.
  unfold receivedRow.
  destruct (priorRecord (existingRows u) id update) as [[old r]|]; simpl;
    caseLive; simpl; intros Hp; try (by apply elem_of_nil in Hp);
    by apply list_elem_of_singleton in Hp as ->.
Qed.

Lemma received_cons u id update rest :
  received u ((id, update) :: rest)
  = ((received (receivedRow u id update).1 rest).1,
     (receivedRow u id update).2 ++ (received (receivedRow u id update).1 rest).2).
Proof.
  simpl. destruct (receivedRow u id update) as [u1 p1]. simpl.
  by destruct (received u1 rest).
Qed.

Lemma received_app u rows rows' :
  received u (rows ++ rows')
  = ((received (received u rows).1 rows').1,
     (received u rows).2 ++ (received (received u rows).1 rows').2).
Proof.
  revert u. induction rows as [|[id update] rows IH]; intros u.
  - simpl. by destruct (received u rows').
  - rewrite <- app_comm_cons, !received_cons, IH. simpl. by rewrite app_assoc.
Qed.

Lemma received_fixed u rows :
  newVersion (received u rows).1 = newVersion u ∧
  existingRows (received u rows).1 = existingRows u ∧
  removedOrExecutedQueryIDs (received u rows).1 = removedOrExecutedQueryIDs u.
Proof.
  revert u. induction rows as [|[id update] rows IH]; intros u; [done|].
  rewrite received_cons. simpl.
  destruct (IH (receivedRow u id update).1) as (-> & -> & ->).
  by destruct (receivedRow_fixed u id update) as (-> & -> & -> & _).
Qed.

(** Rows that the received entries do not touch are left alone, and no patch
    mentions them. *)
Lemma received_frame u rows id :
  Forall (fun entry => id ∉ touched (existingRows u) entry.1 entry.2) rows →
  rowRecords (received u rows).1 !! id = rowRecords u !! id ∧
  receivedRows (received u rows).1 !! id = receivedRows u !! id ∧
  ∀ p contents, p ∈ (received u rows).2 → patch p ≠ RowPut id contents.
Proof.
  revert u. induction rows as [|[id' update] rows IH]; intros u Hrows.
  - split; [done|]. split; [done|]. intros p contents Hp. by apply elem_of_nil in Hp.
  - apply Forall_cons in Hrows as [Hid Hrows]. simpl in Hid.
    rewrite received_cons. simpl.
    destruct (receivedRow_fixed u id' update) as (_ & Hexisting & _).
    destruct (IH (receivedRow u id' update).1) as (Hrec & Hrcv & Hpatches).
    { by rewrite Hexisting. }
    destruct (receivedRow_other u id' update id Hid) as [Hrec1 Hrcv1].
    split; [by rewrite Hrec, Hrec1|]. split; [by rewrite Hrcv, Hrcv1|].
    intros p contents [Hp|Hp]%elem_of_app; [|by eapply Hpatches].
    apply receivedRow_patches in Hp. rewrite Hp.
    unfold touched in Hid. apply not_elem_of_cons in Hid as [Hne _]. congruence.
Qed.

(** C2: for every row processed by [received], with its existing record
    looked up under its key or a prior key: if the received row version is
    greater than the stored one, or the row crosses the live/dead boundary, the
    record's [patchVersion] becomes the updater's [newVersion]; otherwise the
    prior [patchVersion] is preserved.  Every [put] emitted for the row carries
    that effective [patchVersion]; for a row that was already present (live) at
    the received version it is the prior one, however old.  The record is
    written under the key of the row, and a record under a prior key is gone.
    The other rows of the call are taken to be other rows: none is received
    under, or stored under, a key of this one. *)
Theorem received_patchVersion
    (u : QueryDrivenUpdater) (front back : list (RowID * RowUpdate))
    (id : RowID) (update : RowUpdate) :
  Forall (fun entry => id ∉ touched (existingRows u) entry.1 entry.2) (front ++ back) →
  (∀ old r, priorRecord (existingRows u) id update = Some (old, r) →
     ∃ r', rowRecords (received u (front ++ (id, update) :: back)).1 !! id = Some r' ∧
       ((str_gt (version update) (rowVersion r) = true ∨
         isLive (refCounts r)
         ≠ isLive (Some (mergedRefCounts u (Some r) id update))) →
        patchVersion r' = newVersion u) ∧
       (¬ (str_gt (version update) (rowVersion r) = true ∨
           isLive (refCounts r)
           ≠ isLive (Some (mergedRefCounts u (Some r) id update))) →
        patchVersion r' = patchVersion r)) ∧
  (priorRecord (existingRows u) id update = None →
   isLive (Some (mergedRefCounts u None id update)) = true →
   ∃ r', rowRecords (received u (front ++ (id, update) :: back)).1 !! id = Some r' ∧
         patchVersion r' = newVersion u) ∧
  (∀ p contents,
     p ∈ (received u (front ++ (id, update) :: back)).2 →
     patch p = RowPut id contents →
     ∃ r', rowRecords (received u (front ++ (id, update) :: back)).1 !! id = Some r' ∧
           toVersion p = patchVersion r') ∧
  (∀ old r, priorRecord (existingRows u) id update = Some (old, r) →
     isLive (refCounts r) = true →
     rowVersion r = version update →
     isLive (Some (mergedRefCounts u (Some r) id update)) = true →
     {| patch := RowPut id (contents update); toVersion := patchVersion r |}
     ∈ (received u (front ++ (id, update) :: back)).2) ∧
  (∀ old r, priorRecord (existingRows u) id update = Some (old, r) →
     old ≠ id →
     Forall (fun entry => old ∉ touched (existingRows u) entry.1 entry.2) (front ++ back) →
     rowRecords (received u (front ++ (id, update) :: back)).1 !! old = None).
Proof.
  intros [Hfront Hback]%Forall_app.
  rewrite received_app, received_cons. simpl.
  destruct (received_frame u front id Hfront) as (Hrec1 & Hrcv1 & Hpatch1).
  destruct (received_fixed u front) as (Hver1 & Hex1 & Hq1).
  set (u1 := (received u front).1) in *.
  assert (∀ existing, mergedRefCounts u1 existing id update
                      = mergedRefCounts u existing id update) as Hmerged.
  { intros existing. unfold mergedRefCounts. by rewrite Hrcv1, Hq1. }
  destruct (receivedRow_fixed u1 id update) as (_ & Hex2 & _).
  destruct (received_frame (receivedRow u1 id update).1 back id) as (Hrec3 & _ & Hpatch3).
  { by rewrite Hex2, Hex1. }
  rewrite Hrec3.
  split; [|split; [|split; [|split]]].
  - intros old r Hprior. unfold receivedRow. rewrite Hex1, Hprior, Hver1. simpl.
    rewrite Hmerged.
    set (merged := mergedRefCounts u (Some r) id update).
    destruct (isLive (Some merged)) eqn:Hlive; simpl;
      rewrite lookup_insert_eq; eexists; (split; [done|]); simpl;
      unfold crossesLiveBoundary; simpl; rewrite Hlive;
      destruct (str_gt (version update) (rowVersion r)),
               (isLive (refCounts r)); simpl; split; try done;
      try (intros [?|?]; done); try (intros Hno; exfalso; apply Hno; auto).
  - intros Hprior Hlive. unfold receivedRow. rewrite Hex1, Hprior, Hver1. simpl.
    rewrite Hmerged, Hlive. simpl. rewrite lookup_insert_eq. eauto.
  - intros p contents Hp Hput.
    apply elem_of_app in Hp as [Hp|[Hp|Hp]%elem_of_app];
      [by destruct (Hpatch1 p contents Hp) | | by destruct (Hpatch3 p contents Hp)].
    unfold receivedRow in *. rewrite Hex1 in *.
    destruct (priorRecord (existingRows u) id update) as [[old r]|]; simpl in *;
      destruct (isLive (Some (mergedRefCounts u1 _ id update))) eqn:Hlive; simpl in *;
      try (by apply elem_of_nil in Hp);
      apply list_elem_of_singleton in Hp as ->; simpl;
      rewrite lookup_insert_eq; eauto.
  - intros old r Hprior Hwas Hsame Hlive.
    unfold receivedRow. rewrite Hex1, Hprior. simpl. rewrite Hmerged, Hlive. simpl.
    apply elem_of_app. right. apply elem_of_cons. left.
    unfold crossesLiveBoundary. simpl.
    by rewrite Hlive, Hwas, Hsame, str_gt_irrefl.
  - intros old r Hprior Hne [Hfront' Hback']%Forall_app.
    destruct (received_frame (receivedRow u1 id update).1 back old) as (-> & _).
    { by rewrite Hex2, Hex1. }
    unfold receivedRow. rewrite Hex1, Hprior. simpl.
    destruct (isLive (Some (mergedRefCounts u1 _ id update))); simpl;
      by rewrite lookup_insert_ne, lookup_delete_eq.
Qed.

(** *** Reporting a row again *)

Lemma addRefCounts_zero_again (counts deltas : gmap string Z) :
  (∀ q n, deltas !! q = Some n → n = 0) →
  addRefCounts (addRefCounts counts deltas) deltas = addRefCounts counts deltas.
Proof.
  intros Hzero. unfold addRefCounts. apply map_eq. intros q.
  rewrite !lookup_union_with.
  destruct (counts !! q) as [a|], (deltas !! q) as [b|] eqn:Hb;
    simpl; try done; rewrite (Hzero q b Hb); f_equal; lia.
Qed.

Lemma received_single u id update :
  received u [(id, update)] = receivedRow u id update.
Proof.
  simpl. destruct (receivedRow u id update) as [u1 p1]. by rewrite app_nil_r.
Qed.

Lemma insert_delete_again {A} (m : gmap RowID A) (id old : RowID) (x : A) :
  <[id := x]> (delete old (<[id := x]> (delete old m))) = <[id := x]> (delete old m).
Proof.
  apply map_eq. intros k.
  destruct (decide (k = id)) as [->|Hid]; [by rewrite !lookup_insert_eq|].
  rewrite !lookup_insert_ne by done.
  destruct (decide (k = old)) as [->|Hold]; [by rewrite !lookup_delete_eq|].
  by rewrite !lookup_delete_ne, lookup_insert_ne, lookup_delete_ne.
Qed.

(** C5: [received] is idempotent on an entry whose reference-count deltas are
    all 0: handing the same [(rowID, contents, version)] entry to the updater a
    second time leaves the CVR as the first application left it and returns
    the first application's output again, no patch beyond it. *)
Theorem received_idempotent (u : QueryDrivenUpdater) (id : RowID) (update : RowUpdate) :
  (∀ q n, refCountDeltas update !! q = Some n → n = 0) →
  (received (received u [(id, update)]).1 [(id, update)]).1
  = (received u [(id, update)]).1 ∧
  (received (received u [(id, update)]).1 [(id, update)]).2
  = (received u [(id, update)]).2.
Proof.
  intros Hzero. rewrite !received_single.
  assert (receivedRow (receivedRow u id update).1 id update = receivedRow u id update)
    as ->; [|done].
  destruct (receivedRow_fixed u id update) as (Hver & Hex & Hq & Hrcv).
  set (existing := snd <$> priorRecord (existingRows u) id update) in *.
  set (merged := mergedRefCounts u existing id update) in *.
  assert (mergedRefCounts (receivedRow u id update).1 existing id update = merged)
    as Hagain.
  { unfold mergedRefCounts at 1. rewrite Hrcv, lookup_insert_eq.
    subst merged. unfold mergedRefCounts.
    destruct (receivedRows u !! id); by apply addRefCounts_zero_again. }
  unfold receivedRow at 1. rewrite Hex, Hver, Hq, Hrcv. fold existing.
  rewrite Hagain.
  unfold receivedRow. fold existing. fold merged.
  destruct (priorRecord (existingRows u) id update) as [[old r]|] eqn:Hprior;
    subst existing; simpl;
    destruct (isLive (Some merged)) eqn:Hlive; simpl;
    rewrite ?insert_insert_eq, ?insert_delete_again, ?delete_delete_eq; done.
Qed.

End ReceivedProperties.

(** The model against the test-suite: the patches that the calls of
    [received] and [deleteUnreferencedRows] return in each test, and the row
    records that are flushed. *)
Section ReceivedSamples.
Import CVR Samples.

(** Test 'desired to got': row 1 is received twice, and counted twice. *)
Example received_desired_to_got :
  let run := receivedAll desiredToGot [receivedRow1; receivedRows23; receivedRow1] in
  run.2 = [ [putAt (atState "1a0") ROW_ID1 [("id", "should-show-up-in-patch")]];
            [putAt (atState "1a0") ROW_ID2 [("id", "same column selection as twoHash")];
             putAt (atMinor "1aa" 1) ROW_ID3 [("id", "new version patch")]];
            [putAt (atState "1a0") ROW_ID1 [("id", "should-show-up-in-patch")]] ] ∧
  (CVR.deleteUnreferencedRows run.1).2 = [] ∧
  size (CVR.rowRecords (CVR.deleteUnreferencedRows run.1).1) = 5%nat ∧
  recordsAt (CVR.deleteUnreferencedRows run.1).1
    [ROW_ID1; ROW_ID2; ROW_ID3; issueRow "777"; issueRow "456"]
  = [ Some (rowRecord "03" (atState "1a0") (Some {[ "oneHash" := 2; "twoHash" := 1 ]}));
      Some (rowRecord "03" (atState "1a0") (Some {[ "oneHash" := 1; "twoHash" := 1 ]}));
      Some (rowRecord "09" (atMinor "1aa" 1) (Some {[ "oneHash" := 1 ]}));
      Some (rowRecord "03" (atState "189") None);
      Some (rowRecord "03" (atState "1aa") None) ].
Proof. repeat split; vm_compute; reflexivity. Qed.

(** Test 'new transformation hash': the stored counts of the executed query
    are replaced by the received ones, and row 3, which the query no longer
    yields, is deleted. *)
Example received_new_transformation_hash :
  let run := receivedAll newTransformationHash
      [ [(ROW_ID1, rowUpdate "03" {[ "oneHash" := 1 ]} [("id", "existing patch")])];
        [(ROW_ID2, rowUpdate "09" {[ "oneHash" := 1 ]}
                     [("id", "new-row-version-should-bump-cvr-version")])] ] in
  run.2 = [ [putAt (atMinor "1aa" 1) ROW_ID1 [("id", "existing patch")]];
            [putAt (atMinor "1ba" 1) ROW_ID2
               [("id", "new-row-version-should-bump-cvr-version")]] ] ∧
  (CVR.deleteUnreferencedRows run.1).2 = [delAt (atMinor "1ba" 1) ROW_ID3] ∧
  size (CVR.rowRecords (CVR.deleteUnreferencedRows run.1).1) = 5%nat ∧
  recordsAt (CVR.deleteUnreferencedRows run.1).1
    [ROW_ID1; issueRow "777"; issueRow "456"; ROW_ID2; ROW_ID3]
  = [ Some (rowRecord "03" (atMinor "1aa" 1) (Some {[ "oneHash" := 1; "twoHash" := 1 ]}));
      Some (rowRecord "03" (atState "189") None);
      Some (rowRecord "03" (atState "1ba") None);
      Some (rowRecord "09" (atMinor "1ba" 1) (Some {[ "oneHash" := 1; "twoHash" := 1 ]}));
      Some (rowRecord "09" (atMinor "1ba" 1) None) ].
Proof. repeat split; vm_compute; reflexivity. Qed.

(** Test 'multiple executed queries': a row is received once per query. *)
Example received_multiple_executed_queries :
  let run := receivedAll multipleExecutedQueries
      [ [(ROW_ID1, rowUpdate "03" {[ "oneHash" := 1 ]} [("id", "existing-patch")])];
        [(ROW_ID1, rowUpdate "03" {[ "twoHash" := 1 ]} [("id", "existing-patch")])];
        [(ROW_ID2, rowUpdate "09" {[ "oneHash" := 1 ]} [])];
        [(ROW_ID2, rowUpdate "09" {[ "twoHash" := 1 ]} [])] ] in
  take 2 run.2 = [ [putAt (atMinor "1aa" 1) ROW_ID1 [("id", "existing-patch")]];
                   [putAt (atMinor "1aa" 1) ROW_ID1 [("id", "existing-patch")]] ] ∧
  (CVR.deleteUnreferencedRows run.1).2 = [delAt (atMinor "1ba" 1) ROW_ID3] ∧
  size (CVR.rowRecords (CVR.deleteUnreferencedRows run.1).1) = 5%nat ∧
  recordsAt (CVR.deleteUnreferencedRows run.1).1
    [issueRow "777"; issueRow "456"; ROW_ID1; ROW_ID2; ROW_ID3]
  = [ Some (rowRecord "03" (atState "189") None);
      Some (rowRecord "03" (atState "1ba") None);
      Some (rowRecord "03" (atMinor "1aa" 1) (Some {[ "oneHash" := 1; "twoHash" := 1 ]}));
      Some (rowRecord "09" (atMinor "1ba" 1) (Some {[ "oneHash" := 1; "twoHash" := 1 ]}));
      Some (rowRecord "09" (atMinor "1ba" 1) None) ].
Proof. repeat split; vm_compute; reflexivity. Qed.

(** Test 'removed query': row 1 stays live through the other query and keeps
    its [patchVersion]; row 3 is deleted. *)
Example deleteUnreferencedRows_removed_query :
  (CVR.deleteUnreferencedRows removedQuery).2 = [delAt (atMinor "1ba" 1) ROW_ID3] ∧
  size (CVR.rowRecords (CVR.deleteUnreferencedRows removedQuery).1) = 5%nat ∧
  recordsAt (CVR.deleteUnreferencedRows removedQuery).1
    [issueRow "777"; issueRow "456"; ROW_ID2; ROW_ID1; ROW_ID3]
  = [ Some (rowRecord "03" (atState "189") None);
      Some (rowRecord "03" (atState "19z") None);
      Some (rowRecord "03" (atState "1ba") (Some {[ "twoHash" := 1 ]}));
      Some (rowRecord "03" (atMinor "1aa" 1) (Some {[ "twoHash" := 1 ]}));
      Some (rowRecord "09" (atMinor "1ba" 1) None) ].
Proof. repeat split; vm_compute; reflexivity. Qed.

(** Test 'unchanged queries': the row records are left as they were. *)
Example received_unchanged_queries :
  let run := receivedAll unchangedQueries
      [ [(ROW_ID1, rowUpdate "03" {[ "oneHash" := 1 ]} [("id", "existing-patch")])];
        [(ROW_ID1, rowUpdate "03" {[ "twoHash" := 1 ]} [("id", "existing-patch")])];
        [(ROW_ID3, rowUpdate "09" {[ "oneHash" := 1 ]} [])];
        [(ROW_ID2, rowUpdate "03" {[ "twoHash" := 1 ]} [])] ] in
  take 2 run.2 = [ [putAt (atMinor "1aa" 1) ROW_ID1 [("id", "existing-patch")]];
                   [putAt (atMinor "1aa" 1) ROW_ID1 [("id", "existing-patch")]] ] ∧
  (CVR.deleteUnreferencedRows run.1).2 = [] ∧
  size (CVR.rowRecords (CVR.deleteUnreferencedRows run.1).1) = 5%nat ∧
  recordsAt (CVR.deleteUnreferencedRows run.1).1
    [issueRow "777"; issueRow "456"; ROW_ID1; ROW_ID2; ROW_ID3]
  = recordsAt unchangedQueries
      [issueRow "777"; issueRow "456"; ROW_ID1; ROW_ID2; ROW_ID3].
Proof. repeat split; vm_compute; reflexivity. Qed.

(** Test 'row key changed': the record of row 1 moves to the new key with
    its [patchVersion]; the row received under [newID = 3baz] is new to the
    CVR; row 2 is not received and is deleted. *)
Example received_row_key_changed :
  let run := receivedAll rowKeyChanged
      [ [(rekeyedRow "1foo", rekeyedUpdate1)]; [(rekeyedRow "3baz", rekeyedUpdate3)] ] in
  run.2 = [ [putAt (atMinor "1aa" 1) (rekeyedRow "1foo")
               [("id", "123"); ("newID", "1foo"); ("value", "foobar")]];
            [putAt (atState "1bb") (rekeyedRow "3baz")
               [("id", "888"); ("newID", "3baz"); ("value", "barfoo")]] ] ∧
  (CVR.deleteUnreferencedRows run.1).2 = [delAt (atState "1bb") ROW_ID2] ∧
  size (CVR.rowRecords (CVR.deleteUnreferencedRows run.1).1) = 3%nat ∧
  recordsAt (CVR.deleteUnreferencedRows run.1).1
    [rekeyedRow "1foo"; ROW_ID2; rekeyedRow "3baz"; ROW_ID1]
  = [ Some (rowRecord "03" (atMinor "1aa" 1) (Some {[ "oneHash" := 1 ]}));
      Some (rowRecord "03" (atState "1bb") None);
      Some (rowRecord "09" (atState "1bb") (Some {[ "oneHash" := 1 ]}));
      None ].
Proof. repeat split; vm_compute; reflexivity. Qed.

(** Test 'advance with delete that cancels out add': a new row version is
    put at the new version; a row unknown to the CVR that no query references
    leaves no patch and no record. *)
Example received_advance_with_delete :
  let run := receivedAll advanceOnly
      [ [(ROW_ID1, rowUpdate "04" {[ "oneHash" := 0 ]} [("id", "should-show-up-in-patch")]);
         (ROW_ID3, rowUpdate "01" {[ "oneHash" := 0 ]}
                     [("id", "should-not-show-up-in-patch")])] ] in
  run.2 = [ [putAt (atState "1ba") ROW_ID1 [("id", "should-show-up-in-patch")]] ] ∧
  size (CVR.rowRecords run.1) = 2%nat ∧
  recordsAt run.1 [ROW_ID2; ROW_ID1; ROW_ID3]
  = [ Some (rowRecord "03" (atState "1a0") (Some {[ "oneHash" := 1 ]}));
      Some (rowRecord "04" (atState "1ba") (Some {[ "oneHash" := 1 ]}));
      None ].
Proof. repeat split; vm_compute; reflexivity. Qed.

Lemma received_patchVersion_witness :
  putAt (atState "1a0") ROW_ID2 [("id", "same column selection as twoHash")]
  ∈ (CVR.received desiredToGot receivedRows23).2 ∧
  (∃ r', CVR.rowRecords
           (CVR.received rowKeyChanged [(rekeyedRow "1foo", rekeyedUpdate1)]).1
           !! rekeyedRow "1foo" = Some r' ∧
         CVR.patchVersion r' = atMinor "1aa" 1) ∧
  CVR.rowRecords (CVR.received rowKeyChanged [(rekeyedRow "1foo", rekeyedUpdate1)]).1
    !! ROW_ID1 = None.
Proof.
  assert (Forall (fun entry => ROW_ID2 ∉ CVR.touched (CVR.existingRows desiredToGot)
                                           entry.1 entry.2)
                 ([] ++ [(ROW_ID3, updateRow3)])) as Hothers.
  { refine (bool_decide_unpack _ _). vm_compute. exact I. }
  pose proof (received_patchVersion desiredToGot [] [(ROW_ID3, updateRow3)]
                ROW_ID2 updateRow2 Hothers) as (_ & _ & _ & Hput & _).
  pose proof (received_patchVersion rowKeyChanged [] [] (rekeyedRow "1foo")
                rekeyedUpdate1 (List.Forall_nil _)) as (Hrecord & _ & _ & _ & Hgone).
  assert (CVR.priorRecord (CVR.existingRows rowKeyChanged) (rekeyedRow "1foo")
            rekeyedUpdate1
          = Some (ROW_ID1, rowRecord "03" (atMinor "1aa" 1) (Some {[ "oneHash" := 1 ]})))
    as Hprior by (vm_compute; reflexivity).
  split; [|split].
  - apply (Hput ROW_ID2 (rowRecord "03" (atState "1a0") (Some {[ "twoHash" := 1 ]})));
      vm_compute; reflexivity.
  - destruct (Hrecord _ _ Hprior) as (r' & Hr' & _ & Hkept).
    exists r'. split; [exact Hr'|]. apply Hkept.
    intros [Hgt|Hlive]; [vm_compute in Hgt; discriminate|].
    apply Hlive. vm_compute. reflexivity.
  - apply (Hgone _ _ Hprior); [discriminate | apply List.Forall_nil].
Defined.

Lemma received_idempotent_witness :
  (CVR.received (CVR.received desiredToGot [(ROW_ID1, unchangedRow1)]).1
     [(ROW_ID1, unchangedRow1)]).2
  = [ putAt (atState "1a0") ROW_ID1 [("id", "should-show-up-in-patch")] ].
Proof.
  assert (∀ q n, CVR.refCountDeltas unchangedRow1 !! q = Some n → n = 0)
    as Hzero.
  { intros q n Hq. unfold unchangedRow1 in Hq. simpl in Hq.
    apply lookup_singleton_Some in Hq as [_ <-]. reflexivity. }
  rewrite (proj2 (received_idempotent desiredToGot ROW_ID1 unchangedRow1 Hzero)).
  vm_compute. reflexivity.
Defined.

End ReceivedSamples.

(** ** View-syncer: versions across flushes *)

Section FlushProperties.
Import CVR.

Lemma String_compare_refl (a : string) : String.compare a a = Eq.
Proof.
  pose proof (String.compare_antisym a a) as H.
  by destruct (String.compare a a).
Qed.

Lemma cmpVersions_refl v : cmpVersions v v = Eq.
Proof. unfold cmpVersions. by rewrite String_compare_refl, N.compare_refl. Qed.

Lemma versionLe_refl v : versionLe v v.
Proof. unfold versionLe. by rewrite cmpVersions_refl. Qed.

Lemma versionLt_le a b : versionLt a b → versionLe a b.
Proof. unfold versionLt, versionLe. by intros ->. Qed.

Lemma nextMinor_greater v : versionLt v (nextMinor v).
Proof.
  unfold versionLt, cmpVersions, nextMinor, minorOf. simpl.
  rewrite String_compare_refl. apply N.compare_lt_iff. lia.
Qed.

Lemma advance_greater v target :
  str_gt target (stateVersion v) = true → versionLt v (advance v target).
Proof.
  unfold str_gt, String.ltb, versionLt, cmpVersions, advance. simpl.
  by destruct (String.compare (stateVersion v) target).
Qed.

Lemma ensureNewVersion_orig u : orig (ensureNewVersion u) = orig u.
Proof. unfold ensureNewVersion. by destruct (cmpVersions _ _). Qed.

Lemma ensureNewVersion_le u :
  versionLe (cvr_version (orig u)) (cvr_version (edited u)) →
  versionLe (cvr_version (orig u)) (cvr_version (edited (ensureNewVersion u))).
Proof.
  intros Hle. unfold ensureNewVersion.
  destruct (cmpVersions _ _) eqn:Hcmp; simpl; [|done..].
  apply versionLt_le, nextMinor_greater.
Qed.

Lemma updaterFor_le st cvr w :
  versionLe (cvr_version (orig (updaterFor st cvr w)))
            (cvr_version (edited (updaterFor st cvr w))).
Proof.
  destruct w as [|changed|target replica changed]; simpl.
  - apply versionLe_refl.
  - destruct changed; [|apply versionLe_refl].
    rewrite ensureNewVersion_orig. apply ensureNewVersion_le, versionLe_refl.
  - assert (versionLe (cvr_version (orig (CVRQueryDrivenUpdater st cvr target replica)))
              (cvr_version (edited (CVRQueryDrivenUpdater st cvr target replica))))
      as Hle.
    { unfold CVRQueryDrivenUpdater. destruct (str_gt _ _) eqn:Hgt; simpl.
      - by apply versionLt_le, advance_greater.
      - apply versionLe_refl. }
    destruct changed; [|done].
    rewrite ensureNewVersion_orig. by apply ensureNewVersion_le.
Qed.

Lemma nonDecreasing_snoc vs a b :
  nonDecreasing vs → last vs = Some a → versionLe a b → nonDecreasing (vs ++ [b]).
Proof.
  intros Hvs Hlast Hab i x y Hx Hy.
  destruct (decide (S i < length vs)%nat) as [Hlt|Hge].
  - rewrite lookup_app_l in Hx, Hy by lia. by eapply Hvs.
  - assert (S i = length vs) as Hi.
    { apply lookup_lt_Some in Hy. rewrite length_app in Hy. simpl in Hy. lia. }
    rewrite lookup_app_l in Hx by lia.
    rewrite lookup_app_r, Hi, Nat.sub_diag in Hy by lia. inversion Hy; subst y.
    rewrite last_lookup in Hlast.
    replace (pred (length vs)) with i in Hlast by lia. congruence.
Qed.

Lemma flush_Ok u now inst inst' cvr' :
  flush u now inst = Ok (inst', cvr') →
  inst_version inst = cvr_version (orig u) ∧
  inst_version inst' = cvr_version (edited u) ∧
  cvr_version cvr' = cvr_version (edited u).
Proof.
  unfold flush. repeat case_bool_decide; simpl; try done.
  by intros [= <- <-].
Qed.

Lemma Consistent_step v0 s ev : Consistent v0 s → Consistent v0 (storeStep s ev).
Proof.
  intros [Hstored Hflushed Hupd]. destruct ev as [p task lastConnect w|p now]; simpl.
  - unfold load. case_bool_decide; [|by split]. split; simpl; try done.
    intros p' u' [[<- <-]|[Hne Hu]]%lookup_insert_Some; [|by eapply Hupd].
    apply updaterFor_le.
  - destruct (updaters s !! p) as [u|] eqn:Hu; [|by split].
    destruct (flush u now (instance s)) as [[inst' cvr']|e] eqn:Hflush.
    + apply flush_Ok in Hflush as (Hexp & Hnew & Hcvr).
      split; simpl.
      * rewrite app_comm_cons, last_snoc. congruence.
      * rewrite app_comm_cons. eapply nonDecreasing_snoc; [done..|].
        rewrite Hcvr, Hexp. by eapply Hupd.
      * intros p' u' [_ Hu']%lookup_delete_Some. by eapply Hupd.
    + split; simpl; try done.
      intros p' u' [_ Hu']%lookup_delete_Some. by eapply Hupd.
Qed.

Lemma Consistent_run v0 evs s : Consistent v0 s → Consistent v0 (storeRun s evs).
Proof.
  revert s. induction evs as [|ev evs IH]; intros s Hs; [done|].
  simpl. apply IH. by apply Consistent_step.
Qed.

Lemma updaterFor_orig st cvr w : orig (updaterFor st cvr w) = cvr.
Proof.
  destruct w as [|changed|target replica changed]; simpl; [done| |].
  - destruct changed; [|done]. by rewrite ensureNewVersion_orig.
  - assert (orig (CVRQueryDrivenUpdater st cvr target replica) = cvr) as Horig.
    { unfold CVRQueryDrivenUpdater. by destruct (str_gt _ _). }
    destruct changed; [|done]. by rewrite ensureNewVersion_orig.
Qed.

Lemma ensureNewVersion_greater u :
  versionLe (cvr_version (orig u)) (cvr_version (edited u)) →
  versionLt (cvr_version (orig u)) (cvr_version (edited (ensureNewVersion u))).
Proof.
  unfold versionLe, versionLt, ensureNewVersion. intros Hle.
  destruct (cmpVersions _ _) eqn:Hcmp; simpl; [|done..].
  apply nextMinor_greater.
Qed.

(** The version an updater will flush: the loaded one unless its work
    advances the version, and a greater one if it does. *)
Lemma updaterFor_version st cvr w :
  if advancesVersion cvr w
  then versionLt (cvr_version cvr) (cvr_version (edited (updaterFor st cvr w)))
  else cvr_version (edited (updaterFor st cvr w)) = cvr_version cvr.
Proof.
  destruct w as [|changed|target replica changed]; simpl; [done| |].
  - destruct changed; [|done].
    apply (ensureNewVersion_greater (CVRUpdater st cvr)), versionLe_refl.
  - pose proof (updaterFor_le st cvr (QueryUpdate target replica false)) as Hle.
    pose proof (updaterFor_orig st cvr (QueryUpdate target replica false)) as Horig.
    simpl in Hle, Horig.
    destruct changed; simpl.
    + rewrite <- Horig at 1. by apply ensureNewVersion_greater.
    + unfold CVRQueryDrivenUpdater. destruct (str_gt _ _) eqn:Hgt; simpl; [|done].
      by apply advance_greater.
Qed.

(** C3 (amended): whatever the syncer processes do to one CVR, the versions
    of its successful flushes, starting from the stored version, never
    decrease in the order on [(stateVersion, minorVersion)].  A successful
    flush of an updater that advanced its version (a change of the
    configuration, a change of the tracked queries, or a later state version)
    yields a version strictly greater than the one before it; a successful
    flush of any other updater (a [CVRUpdater], which only records presence,
    or a configuration or query update without change) yields the version
    before it again. *)
Theorem flushed_versions_nonDecreasing (inst : Instance) (events : list StoreEvent) :
  nonDecreasing (inst_version inst :: flushed (storeRun (startSystem inst) events)) ∧
  ∀ p now st cvr w v,
    updaters (storeRun (startSystem inst) events) !! p = Some (updaterFor st cvr w) →
    flushed (storeStep (storeRun (startSystem inst) events) (DoFlush p now))
    = flushed (storeRun (startSystem inst) events) ++ [v] →
    ∃ previous,
      last (inst_version inst :: flushed (storeRun (startSystem inst) events))
      = Some previous ∧
      if advancesVersion cvr w then versionLt previous v else v = previous.
Proof.
  assert (Consistent (inst_version inst) (storeRun (startSystem inst) events))
    as [Hstored Hflushed Hupd].
  { apply Consistent_run. split; simpl; [done| |done].
    intros i a b Ha Hb. by destruct i. }
  split; [done|].
  intros p now st cvr w v Hu Hflush. simpl in Hflush. rewrite Hu in Hflush.
  exists (inst_version (instance (storeRun (startSystem inst) events))).
  split; [done|].
  destruct (flush _ now _) as [[inst' cvr']|e] eqn:Hf; simpl in Hflush.
  - apply app_inv_head in Hflush. inversion Hflush; subst v.
    apply flush_Ok in Hf as (Hexp & _ & Hcvr).
    rewrite updaterFor_orig in Hexp. rewrite Hcvr, Hexp.
    apply updaterFor_version.
  - exfalso. apply (f_equal length) in Hflush. rewrite length_app in Hflush.
    simpl in Hflush. lia.
Qed.

End FlushProperties.

(** C3 (counterexample): two presence-only flushes of test 'update active
    time' both succeed and both leave the version at [1a9:02], so the flushed
    versions are not strictly increasing.  Nor are they when a flush that
    changed the configuration is followed by one that did not (test 'no-op
    change to desired query set'), or a flush at a later state version by one
    at that version with unchanged queries (test 'unchanged queries'). *)
Lemma presence_flush_keeps_version :
  (CVR.flushed
     (CVR.storeRun (CVR.startSystem Samples.activeInstance)
        [ CVR.DoLoad 0 "my-task" Samples.LAST_CONNECT CVR.RecordPresence;
          CVR.DoFlush 0 1713916800000;
          CVR.DoLoad 0 "my-task" (Samples.LAST_CONNECT + 60000) CVR.RecordPresence;
          CVR.DoFlush 0 1713916900000 ])
   = [Samples.atMinor "1a9" 2; Samples.atMinor "1a9" 2] ∧
   ¬ CVR.strictlyIncreasing [Samples.atMinor "1a9" 2; Samples.atMinor "1a9" 2]) ∧
  (CVR.flushed
     (CVR.storeRun (CVR.startSystem Samples.activeInstance)
        [ CVR.DoLoad 0 "my-task" Samples.LAST_CONNECT (CVR.ConfigUpdate true);
          CVR.DoFlush 0 1713916800000;
          CVR.DoLoad 0 "my-task" (Samples.LAST_CONNECT + 60000) (CVR.ConfigUpdate false);
          CVR.DoFlush 0 1713916900000 ])
   = [Samples.atMinor "1a9" 3; Samples.atMinor "1a9" 3] ∧
   ¬ CVR.strictlyIncreasing [Samples.atMinor "1a9" 3; Samples.atMinor "1a9" 3]) ∧
  (CVR.flushed
     (CVR.storeRun (CVR.startSystem Samples.activeInstance)
        [ CVR.DoLoad 0 "my-task" Samples.LAST_CONNECT (CVR.QueryUpdate "1aa" "112" false);
          CVR.DoFlush 0 1713916800000;
          CVR.DoLoad 0 "my-task" (Samples.LAST_CONNECT + 60000)
            (CVR.QueryUpdate "1aa" "112" false);
          CVR.DoFlush 0 1713916900000 ])
   = [Samples.atState "1aa"; Samples.atState "1aa"] ∧
   ¬ CVR.strictlyIncreasing [Samples.atState "1aa"; Samples.atState "1aa"]).
Proof.
  repeat split; try (vm_compute; reflexivity);
    intros H; specialize (H 0%nat _ _ eq_refl eq_refl); vm_compute in H; discriminate.
Qed.

Lemma flushed_versions_nonDecreasing_witness :
  (∃ previous,
     last (CVR.inst_version Samples.activeInstance
           :: CVR.flushed
                (CVR.storeRun (CVR.startSystem Samples.activeInstance)
                   [ CVR.DoLoad 0 "my-task" Samples.LAST_CONNECT CVR.RecordPresence ]))
     = Some previous ∧ Samples.atMinor "1a9" 2 = previous) ∧
  (∃ previous,
     last (CVR.inst_version Samples.activeInstance
           :: CVR.flushed
                (CVR.storeRun (CVR.startSystem Samples.activeInstance)
                   [ CVR.DoLoad 0 "my-task" Samples.LAST_CONNECT (CVR.ConfigUpdate true) ]))
     = Some previous ∧ CVR.versionLt previous (Samples.atMinor "1a9" 3)).
Proof.
  split.
  - refine (proj2 (flushed_versions_nonDecreasing Samples.activeInstance
              [ CVR.DoLoad 0 "my-task" Samples.LAST_CONNECT CVR.RecordPresence ])
              0%nat 1713916800000
              {| CVR.taskID := "my-task"; CVR.loadedAt := Samples.LAST_CONNECT |}
              {| CVR.cvr_id := "abc123"; CVR.cvr_version := Samples.atMinor "1a9" 2;
                 CVR.lastActive := 1713830400000; CVR.replicaVersion := Some "112" |}
              CVR.RecordPresence (Samples.atMinor "1a9" 2) _ _);
      vm_compute; reflexivity.
  - refine (proj2 (flushed_versions_nonDecreasing Samples.activeInstance
              [ CVR.DoLoad 0 "my-task" Samples.LAST_CONNECT (CVR.ConfigUpdate true) ])
              0%nat 1713916800000
              {| CVR.taskID := "my-task"; CVR.loadedAt := Samples.LAST_CONNECT |}
              {| CVR.cvr_id := "abc123"; CVR.cvr_version := Samples.atMinor "1a9" 2;
                 CVR.lastActive := 1713830400000; CVR.replicaVersion := Some "112" |}
              (CVR.ConfigUpdate true) (Samples.atMinor "1a9" 3) _ _);
      vm_compute; reflexivity.
Defined.

(** The version bumps agree with the test-suite: a presence flush keeps
    [1a9:02] ('update active time'); a change of the desired queries at [1aa]
    yields [1aa:01] ('update desired query set'); tracking a newly executed
    query at state version [1aa] yields [1aa:01] ('desired to got'); entering at
    a later state version yields that version with no minor version ('row key
    changed'); and unchanged queries keep [1ba] ('unchanged queries'). *)
Example updater_versions_of_the_tests :
  let st := {| CVR.taskID := "my-task"; CVR.loadedAt := Samples.LAST_CONNECT |} in
  let at_ v := {| CVR.cvr_id := "abc123"; CVR.cvr_version := v;
                  CVR.lastActive := 0; CVR.replicaVersion := Some "120" |} in
  CVR.cvr_version (CVR.edited (CVR.updaterFor st (at_ (Samples.atMinor "1a9" 2))
                                 CVR.RecordPresence))
  = Samples.atMinor "1a9" 2 ∧
  CVR.cvr_version (CVR.edited (CVR.updaterFor st (at_ (Samples.atState "1aa"))
                                 (CVR.ConfigUpdate true)))
  = Samples.atMinor "1aa" 1 ∧
  CVR.cvr_version (CVR.edited (CVR.updaterFor st (at_ (Samples.atState "1aa"))
                                 (CVR.QueryUpdate "1aa" "123" true)))
  = Samples.atMinor "1aa" 1 ∧
  CVR.cvr_version (CVR.edited (CVR.updaterFor st (at_ (Samples.atState "1ba"))
                                 (CVR.QueryUpdate "1bb" "123" true)))
  = Samples.atState "1bb" ∧
  CVR.cvr_version (CVR.edited (CVR.updaterFor st (at_ (Samples.atState "1ba"))
                                 (CVR.QueryUpdate "1ba" "120" false)))
  = Samples.atState "1ba".
Proof. vm_compute. done. Qed.

Set Warnings "-clear-no-such-hyp".

(** ** [mapM]: when it succeeds and where it stops *)

Lemma isOk_mapM {E A B} (f : A → result E B) (xs : list A) :
  isOk (mapM f xs) = true ↔ Forall (fun x => isOk (f x) = true) xs.
Proof.
  induction xs as [|x xs IH]; simpl; [by split|].
  rewrite Forall_cons. destruct (f x); simpl; [|naive_solver].
  destruct (mapM f xs); simpl in *; naive_solver.
Qed.

Lemma mapM_Throw {E A B} (f : A → result E B) (xs : list A) (e : E) :
  mapM f xs = Throw e ↔
  ∃ front x back,
    xs = front ++ x :: back ∧
    Forall (fun y => isOk (f y) = true) front ∧
    f x = Throw e.
Proof.
  revert e. induction xs as [|x xs IH]; intros e; simpl.
  - split; [done|]. intros (front & y & back & Hxs & _). by destruct front.
  - destruct (f x) as [y|e0] eqn:Hx; simpl.
    + destruct (mapM f xs) as [ys|e'] eqn:Hrest; simpl.
      * split; [done|]. intros (front & z & back & Hxs & Hfront & Hz).
        destruct front as [|c front]; simplify_eq/=; [congruence|].
        apply Forall_cons in Hfront as [_ Hfront].
        assert (Ok (E:=E) ys = Throw e) as Habs; [|done].
        apply IH. by exists front, z, back.
      * split.
        -- intros [= ->]. destruct (proj1 (IH e) eq_refl) as (front & z & back & -> & Hfront & Hz).
           exists (x :: front), z, back. split; [done|]. split; [|done].
           apply Forall_cons. split; [by rewrite Hx|done].
        -- intros (front & z & back & Hxs & Hfront & Hz).
           destruct front as [|c front]; simplify_eq/=; [congruence|].
           apply Forall_cons in Hfront as [_ Hfront].
           apply IH. by exists front, z, back.
    + split.
      * intros [= ->]. exists [], x, xs. by repeat split.
      * intros (front & z & back & Hxs & Hfront & Hz).
        destruct front as [|c front]; simplify_eq/=; [congruence|].
        apply Forall_cons in Hfront as [Hc _]. by rewrite Hx in Hc.
Qed.

(** ** keys.ts: which keys exist and when two of them meet *)

Lemma prefix_app (p s : string) : String.prefix p (p +:+ s) = true.
Proof.
  induction p as [|a p IH]; simpl; [by destruct s|].
  by destruct (ascii_dec a a).
Qed.

Lemma prefix_String (a b : ascii) (p s : string) :
  String.prefix (String a p) (String b s) = true ↔ a = b ∧ String.prefix p s = true.
Proof.
  simpl. destruct (ascii_dec a b); naive_solver.
Qed.

Lemma includesSlash_String (a : ascii) (s : string) :
  Keys.includesSlash (String a s) = false ↔ a ≠ "/"%char ∧ Keys.includesSlash s = false.
Proof.
  simpl. destruct (Ascii.eqb_spec a "/"%char); naive_solver.
Qed.

Lemma prefix_up_to_slash (c c' rest : string) :
  Keys.includesSlash c = false → Keys.includesSlash c' = false →
  String.prefix (c +:+ "/") (c' +:+ "/" +:+ rest) = true ↔ c = c'.
Proof.
  revert c'. induction c as [|a c IH]; intros c' Hc Hc'.
  - destruct c' as [|b c'].
    + split; [done|]. intros _. apply (prefix_app "/").
    + apply includesSlash_String in Hc' as [Hb _].
      change ("" +:+ "/") with (String "/"%char "").
      change (String b c' +:+ "/" +:+ rest) with (String b (c' +:+ "/" +:+ rest)).
      rewrite prefix_String. naive_solver.
  - apply includesSlash_String in Hc as [Ha Hc].
    destruct c' as [|b c'].
    + change (String a c +:+ "/") with (String a (c +:+ "/")).
      change ("" +:+ "/" +:+ rest) with (String "/"%char rest).
      rewrite prefix_String. naive_solver.
    + apply includesSlash_String in Hc' as [Hb Hc'].
      change (String a c +:+ "/") with (String a (c +:+ "/")).
      change (String b c' +:+ "/" +:+ rest) with (String b (c' +:+ "/" +:+ rest)).
      rewrite prefix_String, (IH c' Hc Hc'). naive_solver.
Qed.

(** X1.  A scan of the desired-query keys by the prefix of one client finds
    the keys of that client and of no other: for client IDs without ['/'],
    [desiredQueriesPrefixForClient clientID] is a prefix of
    [toDesiredQueriesKey clientID' hash] exactly when the two clients are the
    same. *)
Theorem desiredQueriesPrefix_selects_client (clientID clientID' hash : string) :
  Keys.includesSlash clientID = false → Keys.includesSlash clientID' = false →
  String.prefix (Keys.desiredQueriesPrefixForClient clientID)
                (Keys.toDesiredQueriesKey clientID' hash) = true
  ↔ clientID = clientID'.
Proof.
  intros Hc Hc'.
  unfold Keys.desiredQueriesPrefixForClient, Keys.toDesiredQueriesKey,
    Keys.DESIRED_QUERIES_KEY_PREFIX.
  change ("d/" +:+ clientID +:+ "/") with (String "d" (String "/" (clientID +:+ "/"))).
  change ("d/" +:+ clientID' +:+ "/" +:+ hash)
    with (String "d" (String "/" (clientID' +:+ "/" +:+ hash))).
  rewrite !prefix_String, (prefix_up_to_slash _ _ _ Hc Hc'). naive_solver.
Qed.

Section KeysFurther.
Import Keys.

Context {number : Type}.
Variable Number_toString : number → string.
Variable JSON_stringify_number : number → string.
Variable h128 : string → string.

Local Abbreviation toPrimaryKeyString' :=
  (toPrimaryKeyString Number_toString JSON_stringify_number h128).

Lemma isPrimaryKeyValue_parse (k : string) (v : option (Value number)) :
  (isPrimaryKeyValue v = true → ∃ pk, parsePrimaryKeyValue k v = Ok pk) ∧
  (isPrimaryKeyValue v = false →
   parsePrimaryKeyValue k v = Throw (InvalidPrimaryKeyValue k)).
Proof. destruct v as [[]|]; simpl; naive_solver. Qed.

Lemma toPrimaryKeyString_mapM (tableName : string) (primaryKey : list string)
    (value : gmap string (Value number)) :
  (∀ e, toPrimaryKeyString' tableName primaryKey value = Throw e ↔
        mapM (fun k => parsePrimaryKeyValue k (value !! k)) primaryKey = Throw e) ∧
  (isOk (toPrimaryKeyString' tableName primaryKey value)
   = isOk (mapM (fun k => parsePrimaryKeyValue k (value !! k)) primaryKey)).
Proof.
  destruct primaryKey as [|k [|k' ks]].
  - done.
  - simpl. destruct (parsePrimaryKeyValue k (value !! k)); simpl; naive_solver.
  - unfold toPrimaryKeyString.
    destruct (mapM _ (k :: k' :: ks)); simpl; naive_solver.
Qed.

(** X2.  [toPrimaryKeyString] yields a key exactly when every key column of
    the row holds a string, a number or a boolean; otherwise it throws, and
    the exception names the first key column, in the order of [primaryKey],
    that is missing or holds something else. *)
Theorem toPrimaryKeyString_first_invalid_column
    (tableName : string) (primaryKey : list string)
    (value : gmap string (Value number)) :
  (isOk (toPrimaryKeyString' tableName primaryKey value) = true ↔
   Forall (fun k => isPrimaryKeyValue (value !! k) = true) primaryKey) ∧
  (∀ e, toPrimaryKeyString' tableName primaryKey value = Throw e ↔
     ∃ front k back,
       primaryKey = front ++ k :: back ∧
       Forall (fun c => isPrimaryKeyValue (value !! c) = true) front ∧
       isPrimaryKeyValue (value !! k) = false ∧
       e = InvalidPrimaryKeyValue k).
Proof.
  destruct (toPrimaryKeyString_mapM tableName primaryKey value) as [HT HO].
  assert (∀ c, isOk (parsePrimaryKeyValue c (value !! c)) = isPrimaryKeyValue (value !! c))
    as Hparse by (intros c; by destruct (value !! c) as [[]|]).
  assert (∀ l, Forall (fun c => isOk (parsePrimaryKeyValue c (value !! c)) = true) l ↔
               Forall (fun c => isPrimaryKeyValue (value !! c) = true) l) as HForall.
  { intros l. apply Forall_iff. intros c. by rewrite Hparse. }
  split.
  - by rewrite HO, isOk_mapM, HForall.
  - intros e. rewrite HT, mapM_Throw. split.
    + intros (front & k & back & -> & Hfront & Hk). exists front, k, back.
      split; [done|]. split; [by apply HForall|].
      destruct (value !! k) as [[]|]; simpl in *; by simplify_eq.
    + intros (front & k & back & -> & Hfront & Hk & ->). exists front, k, back.
      split; [done|]. split; [by apply HForall|].
      by apply isPrimaryKeyValue_parse.
Qed.

Lemma toPrimaryKeyString_agree (tableName : string) (primaryKey : list string)
    (row row' : gmap string (Value number)) :
  (∀ k, k ∈ primaryKey → row !! k = row' !! k) →
  toPrimaryKeyString' tableName primaryKey row
  = toPrimaryKeyString' tableName primaryKey row'.
Proof.
  intros Hagree.
  assert (mapM (fun k => parsePrimaryKeyValue k (row !! k)) primaryKey
          = mapM (fun k => parsePrimaryKeyValue k (row' !! k)) primaryKey) as HmapM.
  { induction primaryKey as [|k ks IH]; [done|]. simpl.
    rewrite (Hagree k) by left. rewrite IH; [done|].
    intros c Hc. apply Hagree. by right. }
  destruct primaryKey as [|k [|k' ks]].
  - done.
  - simpl. rewrite (Hagree k) by left. done.
  - unfold toPrimaryKeyString. by rewrite HmapM.
Qed.

Lemma app_slash_inj (t t' s s' : string) :
  includesSlash t = false → includesSlash t' = false →
  t +:+ "/" +:+ s = t' +:+ "/" +:+ s' → t = t' ∧ s = s'.
Proof.
  revert t'. induction t as [|a t IH]; intros t' Ht Ht' Heq.
  - destruct t' as [|b t']; [by injection Heq|].
    apply includesSlash_String in Ht' as [Hb _].
    injection Heq as Hab _. congruence.
  - apply includesSlash_String in Ht as [Ha Ht].
    destruct t' as [|b t'].
    + injection Heq as Hab _. congruence.
    + apply includesSlash_String in Ht' as [_ Ht'].
      injection Heq as -> Heq.
      destruct (IH t' Ht Ht' Heq) as [-> ->]. done.
Qed.

(** X25.  When two single-column keys meet.  For table names without ['/']
    and rows whose key columns hold primary-key values, the keys made by
    [toPrimaryKeyString] for two single-column primary keys are equal
    exactly when the tables are the same and the two key values have the
    same string conversion; in particular rows of one table with different
    string IDs never share a key. *)
Theorem single_column_keys_meet
    (tableName tableName' k k' : string)
    (value value' : gmap string (Value number))
    (v v' : PrimaryKeyValue number) :
  includesSlash tableName = false → includesSlash tableName' = false →
  parsePrimaryKeyValue k (value !! k) = Ok v →
  parsePrimaryKeyValue k' (value' !! k') = Ok v' →
  (toPrimaryKeyString' tableName [k] value = toPrimaryKeyString' tableName' [k'] value'
   ↔ tableName = tableName' ∧
     primitiveString Number_toString v = primitiveString Number_toString v') ∧
  (∀ s s', v = PKString s → v' = PKString s' → tableName = tableName' →
     s ≠ s' →
     toPrimaryKeyString' tableName [k] value
     ≠ toPrimaryKeyString' tableName' [k'] value').
Proof.
  intros Ht Ht' Hv Hv'.
  assert (toPrimaryKeyString' tableName [k] value
          = toPrimaryKeyString' tableName' [k'] value'
          ↔ tableName = tableName' ∧
            primitiveString Number_toString v = primitiveString Number_toString v')
    as Hiff.
  { unfold toPrimaryKeyString. rewrite Hv, Hv'. simpl. split.
    - intros [= Heq]. by apply app_slash_inj.
    - by intros [-> ->]. }
  split; [done|].
  intros s s' -> -> -> Hne Heq. apply Hiff in Heq as [_ Heq]. by simpl in Heq.
Qed.

End KeysFurther.

Lemma desiredQueriesPrefix_selects_client_witness :
  String.prefix (Keys.desiredQueriesPrefixForClient "c1")
                (Keys.toDesiredQueriesKey "c1" "h1") = true ∧
  String.prefix (Keys.desiredQueriesPrefixForClient "c1")
                (Keys.toDesiredQueriesKey "c12" "h1") = false.
Proof.
  split.
  - apply (desiredQueriesPrefix_selects_client "c1" "c1" "h1"); reflexivity.
  - destruct (String.prefix _ _) eqn:Hprefix; [|reflexivity].
    apply (desiredQueriesPrefix_selects_client "c1" "c12" "h1") in Hprefix;
      [discriminate|reflexivity|reflexivity].
Defined.

(** ** context.ts: the poke handler between messages and frames *)

Lemma string_app_assoc (a b c : string) : (a +:+ b) +:+ c = a +:+ b +:+ c.
Proof.
  induction a as [|x a IH]; [done|].
  change (String x ((a +:+ b) +:+ c) = String x (a +:+ b +:+ c)). congruence.
Qed.

Section PokesFurther.
Import Keys Pokes.

Context {number AST Store : Type}.
Variable Number_toString : number → string.
Variable JSON_stringify_number : number → string.
Variable h128 : string → string.
Variable applyPatchOp : Store → PatchOperationInternal (number:=number) (AST:=AST) → Store.

Local Abbreviation toPrimaryKeyString' :=
  (toPrimaryKeyString Number_toString JSON_stringify_number h128).
Local Abbreviation rowKey' := (rowKey Number_toString JSON_stringify_number h128).
Local Abbreviation rowsPatchOpToReplicachePatchOp' :=
  (rowsPatchOpToReplicachePatchOp (AST:=AST)
     Number_toString JSON_stringify_number h128).
Local Abbreviation partPatch' := (partPatch Number_toString JSON_stringify_number h128).
Local Abbreviation mergePokes' := (mergePokes Number_toString JSON_stringify_number h128).
Local Abbreviation processPokesForFrame' :=
  (processPokesForFrame Number_toString JSON_stringify_number h128 applyPatchOp).
Local Abbreviation PokeHandler' := (PokeHandler (number:=number) (AST:=AST)).
Local Abbreviation Part := (PokePartBody (number:=number) (AST:=AST)).
Local Abbreviation Accum := (PokeAccumulator (number:=number) (AST:=AST)).
Local Abbreviation Row' := (gmap string (Value number)).

(** X3.  The key of a row patch depends on the key columns only: when a [put]
    of a row is turned into a put at [key], a [del] or an [update] whose [id]
    agrees with that row on the primary key of the table is turned into a del
    or an update at the same [key]. *)
Theorem row_del_and_update_address_the_put_key
    (schema : Schema) (tableName : string) (t : TableSchema)
    (value id : Row') (key : string)
    (merge : option Row') (constrain : option (list string)) :
  tables schema !! tableName = Some t →
  (∀ k, k ∈ primaryKey t → id !! k = value !! k) →
  rowsPatchOpToReplicachePatchOp' (RowPut tableName value) schema
  = Ok (OpPut key (ValRow value)) →
  rowsPatchOpToReplicachePatchOp' (RowDel tableName id) schema = Ok (OpDel key) ∧
  rowsPatchOpToReplicachePatchOp' (RowUpdate tableName id merge constrain) schema
  = Ok (OpUpdate key merge constrain).
Proof.
  intros Ht Hagree. simpl. unfold rowKey. rewrite Ht.
  rewrite (toPrimaryKeyString_agree Number_toString JSON_stringify_number h128
             tableName (primaryKey t) id value Hagree).
  destruct (toPrimaryKeyString _ _ _ _ _ _) as [k|e]; simpl; [|done].
  by intros [= ->].
Qed.

Lemma receiveParts_cons (clientID : string) (h : PokeHandler') (p : Part)
    (ps : list Part) :
  receiveParts clientID h (p :: ps)
  = receiveParts clientID (handlePokePart clientID h p).1 ps.
Proof. done. Qed.

Lemma receiveParts_matching (clientID : string) (start : PokeStartBody)
    (ps : list Part) : ∀ (h : PokeHandler') (received : list Part),
  receivingPoke h = Some {| pokeStart := start; parts := received |} →
  Forall (fun pokePart => part_pokeID pokePart = pokeID start) ps →
  receiveParts clientID h ps
  = {| receivingPoke := Some {| pokeStart := start; parts := received ++ ps |};
       pokeBuffer := pokeBuffer h;
       pokePlaybackLoopRunning := pokePlaybackLoopRunning h;
       onPokeErrorCalls := onPokeErrorCalls h |}.
Proof.
  induction ps as [|p ps IH]; intros h received Hh Hps.
  - rewrite app_nil_r. destruct h; simpl in *. by rewrite Hh.
  - apply Forall_cons in Hps as [Hp Hps].
    rewrite receiveParts_cons. unfold handlePokePart. rewrite Hh. simpl.
    rewrite Hp, String.eqb_refl. simpl.
    rewrite (IH _ (received ++ [p])); [|done|done].
    simpl. by rewrite <- app_assoc.
Qed.

(** X4.  A well-formed poke received by an idle handler: after [pokeStart],
    parts that all carry the poke's ID and a [pokeEnd] with that ID, the
    buffer has grown by exactly this poke with its parts in arrival order,
    the playback loop runs and [onPokeError] was not called; if the
    [pokeEnd] cancels, the handler is as it was before the poke. *)
Theorem receivePoke_buffers_the_poke
    (clientID : string) (h : PokeHandler') (start : PokeStartBody)
    (ps : list Part) (pokeEnd : PokeEndBody) :
  receivingPoke h = None →
  Forall (fun pokePart => part_pokeID pokePart = pokeID start) ps →
  end_pokeID pokeEnd = pokeID start →
  receivePoke clientID h start ps pokeEnd
  = if cancel pokeEnd then h
    else {| receivingPoke := None;
            pokeBuffer := pokeBuffer h ++ [{| pokeStart := start; parts := ps |}];
            pokePlaybackLoopRunning := true;
            onPokeErrorCalls := onPokeErrorCalls h |}.
Proof.
  intros Hidle Hps Hend. unfold receivePoke.
  rewrite (receiveParts_matching clientID start ps (handlePokeStart h start) []).
  - unfold handlePokeEnd, handlePokeStart. rewrite Hidle. simpl.
    rewrite Hend, String.eqb_refl.
    destruct (cancel pokeEnd); [|done].
    destruct h; simpl in *. by rewrite Hidle.
  - unfold handlePokeStart. by rewrite Hidle.
  - done.
Qed.

Lemma receiveParts_stray (clientID : string) (ps : list Part) : ∀ h : PokeHandler',
  receivingPoke h = None →
  receivingPoke (receiveParts clientID h ps) = None ∧
  pokeBuffer (receiveParts clientID h ps)
  = match ps with [] => pokeBuffer h | _ => [] end ∧
  pokePlaybackLoopRunning (receiveParts clientID h ps) = pokePlaybackLoopRunning h ∧
  onPokeErrorCalls (receiveParts clientID h ps)
  = (onPokeErrorCalls h + length ps)%nat.
Proof.
  induction ps as [|p ps IH]; intros h Hidle.
  - simpl. by rewrite Nat.add_0_r.
  - rewrite receiveParts_cons. unfold handlePokePart. rewrite Hidle. simpl.
    destruct (IH (handlePokeError h) eq_refl) as (H1 & H2 & H3 & H4).
    rewrite H1, H2, H3, H4. simpl.
    repeat split; [by destruct ps|lia].
Qed.

(** X5.  Messages of a poke that is not being received (after a disconnect
    or after an earlier error) are never buffered: each part and the
    [pokeEnd] calls [onPokeError] once, and the handler ends with no poke in
    reception and an empty buffer. *)
Theorem stray_poke_messages_are_rejected
    (clientID : string) (h : PokeHandler') (ps : list Part) (pokeEnd : PokeEndBody) :
  receivingPoke h = None →
  receivingPoke (handlePokeEnd (receiveParts clientID h ps) pokeEnd) = None ∧
  pokeBuffer (handlePokeEnd (receiveParts clientID h ps) pokeEnd) = [] ∧
  pokePlaybackLoopRunning (handlePokeEnd (receiveParts clientID h ps) pokeEnd)
  = pokePlaybackLoopRunning h ∧
  onPokeErrorCalls (handlePokeEnd (receiveParts clientID h ps) pokeEnd)
  = (onPokeErrorCalls h + length ps + 1)%nat ∧
  Forall (fun pokePart =>
            ∀ h' : PokeHandler', receivingPoke h' = None →
              (handlePokePart clientID h' pokePart).2 = None) ps.
Proof.
  intros Hidle.
  destruct (receiveParts_stray clientID ps h Hidle) as (H1 & H2 & H3 & H4).
  unfold handlePokeEnd. rewrite H1. simpl. rewrite H3, H4.
  repeat split; [lia|].
  apply Forall_forall. intros p _ h' Hh'. unfold handlePokePart. by rewrite Hh'.
Qed.

Lemma hasCookieGap_mergePokes_Throw (schema : Schema) (buffer : list Accum) :
  hasCookieGap buffer → ∃ e, mergePokes' buffer schema = Throw e.
Proof.
  intros Hgap. destruct buffer as [|first rest].
  - destruct Hgap as (front & prev & cur & back & Hb & _). by destruct front.
  - destruct (mergePokes' (first :: rest) schema) as [r|e] eqn:Hm; [|by eexists].
    apply mergePokes_Ok in Hm as [Hno _].
    apply noGapAfter_false in Hgap. congruence.
Qed.

Lemma processPokesForFrame_empties_buffer
    (schema : Schema) (h : PokeHandler') (client : ClientState (Store:=Store)) :
  pokeBuffer (processPokesForFrame' schema h client).1 = [].
Proof.
  unfold processPokesForFrame.
  destruct (mergePokes' (pokeBuffer h) schema) as [[merged|]|e]; simpl; [|done..].
  by destruct (replicachePoke applyPatchOp merged client).
Qed.

(** X6.  A frame is processed as a whole.  A cookie gap anywhere in the
    buffer discards every buffered poke, those before the gap included, and
    the poke in reception, calls [onPokeError] once and does not poke the
    client.  In every case the buffer is empty after
    [#processPokesForFrame], and either [onPokeError] was not called and the
    poke in reception is kept, or it was called exactly once and the poke in
    reception is dropped. *)
Theorem failed_frame_is_dropped
    (schema : Schema) (h : PokeHandler') (client : ClientState (Store:=Store)) :
  (hasCookieGap (pokeBuffer h) →
   processPokesForFrame' schema h client = (handlePokeError h, client)) ∧
  pokeBuffer (processPokesForFrame' schema h client).1 = [] ∧
  pokePlaybackLoopRunning (processPokesForFrame' schema h client).1
  = pokePlaybackLoopRunning h ∧
  ((onPokeErrorCalls (processPokesForFrame' schema h client).1 = onPokeErrorCalls h ∧
    receivingPoke (processPokesForFrame' schema h client).1 = receivingPoke h)
   ∨
   (onPokeErrorCalls (processPokesForFrame' schema h client).1
    = S (onPokeErrorCalls h) ∧
    receivingPoke (processPokesForFrame' schema h client).1 = None)).
Proof.
  split.
  - intros Hgap. destruct (hasCookieGap_mergePokes_Throw schema _ Hgap) as [e He].
    unfold processPokesForFrame. by rewrite He.
  - unfold processPokesForFrame.
    destruct (mergePokes' (pokeBuffer h) schema) as [[merged|]|e]; simpl.
    + destruct (replicachePoke applyPatchOp merged client); simpl; naive_solver.
    + naive_solver.
    + naive_solver.
Qed.

Lemma noGapAfter_app (l1 l2 : list Accum) : ∀ p0 : Accum,
  noGapAfter (pokeStart p0) (l1 ++ l2)
  = noGapAfter (pokeStart p0) l1 && noGapAfter (pokeStart (List.last l1 p0)) l2.
Proof.
  induction l1 as [|c l1 IH]; intros p0; [done|].
  change ((c :: l1) ++ l2) with (c :: (l1 ++ l2)).
  replace (List.last (c :: l1) p0) with (List.last l1 c)
    by (symmetry; apply last_cons).
  simpl. rewrite IH. by rewrite andb_assoc.
Qed.

Lemma last_app_cons_default {A} (l l' : list A) (a d : A) :
  List.last (l ++ a :: l') d = List.last l' a.
Proof.
  revert d. induction l as [|x l IH]; intros d.
  - apply last_cons.
  - change ((x :: l) ++ a :: l') with (x :: (l ++ a :: l')).
    rewrite last_cons. apply IH.
Qed.

(** X7.  Merging composes.  If two buffers merge into [merged1] and
    [merged2] and the base cookie of the second is not greater than the
    cookie of the first, then the concatenated buffer merges into the poke
    that goes from the base cookie of [merged1] to the cookie of [merged2],
    with the patch of [merged1] followed by that of [merged2] and the last
    mutation IDs of [merged2] taking precedence; if it is greater, merging
    the concatenated buffer throws. *)
Theorem mergePokes_of_concatenation
    (schema : Schema) (buffer1 buffer2 : list Accum)
    (merged1 merged2 : PokeInternal (number:=number) (AST:=AST)) :
  mergePokes' buffer1 schema = Ok (Some merged1) →
  mergePokes' buffer2 schema = Ok (Some merged2) →
  ((∀ b, pi_baseCookie merged2 = Some b →
         str_gt b (pr_cookie (pullResponse merged1)) = false) →
   mergePokes' (buffer1 ++ buffer2) schema
   = Ok (Some {| pi_baseCookie := pi_baseCookie merged1;
                 pullResponse :=
                   {| pr_lastMutationIDChanges :=
                        pr_lastMutationIDChanges (pullResponse merged2)
                        ∪ pr_lastMutationIDChanges (pullResponse merged1);
                      pr_patch :=
                        pr_patch (pullResponse merged1)
                        ++ pr_patch (pullResponse merged2);
                      pr_cookie := pr_cookie (pullResponse merged2) |} |})) ∧
  ((∃ b, pi_baseCookie merged2 = Some b ∧
         str_gt b (pr_cookie (pullResponse merged1)) = true) →
   ∃ e, mergePokes' (buffer1 ++ buffer2) schema = Throw e).
Proof.
  intros H1 H2.
  destruct buffer1 as [|f1 r1]; [done|]. destruct buffer2 as [|f2 r2]; [done|].
  apply mergePokes_Ok in H1 as (Hno1 & pss1 & Hpss1 & Hm1).
  apply mergePokes_Ok in H2 as (Hno2 & pss2 & Hpss2 & Hm2).
  injection Hm1 as ->. injection Hm2 as ->. simpl.
  change ((f1 :: r1) ++ f2 :: r2) with (f1 :: (r1 ++ f2 :: r2)).
  assert (noGapAfter (pokeStart f1) (r1 ++ f2 :: r2)
          = negb (cookieGap (pokeStart (List.last r1 f1)) (pokeStart f2))) as Hno.
  { rewrite noGapAfter_app, Hno1. simpl. by rewrite Hno2, andb_true_r. }
  split.
  - intros Hjoin. apply mergePokes_Ok. split.
    + rewrite Hno. unfold cookieGap.
      destruct (baseCookie (pokeStart f2)) as [b|]; [|done].
      by rewrite (Hjoin b eq_refl), andb_false_r.
    + exists (pss1 ++ pss2). split.
      * change (f1 :: (r1 ++ f2 :: r2)) with ((f1 :: r1) ++ f2 :: r2).
        unfold allParts. rewrite flat_map_app. by apply mapM_app.
      * rewrite last_app_cons_default, concat_app.
        change (f1 :: (r1 ++ f2 :: r2)) with ((f1 :: r1) ++ f2 :: r2).
        unfold allParts. rewrite flat_map_app.
        by rewrite (mergedChanges_app (flat_map parts (f1 :: r1))).
  - intros (b & Hb & Hgt).
    destruct (mergePokes' (f1 :: (r1 ++ f2 :: r2)) schema) as [r|e] eqn:Hm;
      [|by eexists].
    apply mergePokes_Ok in Hm as [Hno' _]. rewrite Hno in Hno'.
    unfold cookieGap in Hno'. rewrite Hb, Hgt in Hno'.
    destruct (String.eqb_spec b "") as [->|_]; [|done].
    by rewrite str_gt_empty in Hgt.
Qed.

Lemma mapM_Forall_out {E A B} (f : A → result E B) (P : B → Prop)
    (xs : list A) (ys : list B) :
  mapM f xs = Ok ys → (∀ x y, f x = Ok y → P y) → Forall P ys.
Proof.
  intros HmapM Hf. apply mapM_Ok_Forall2 in HmapM.
  induction HmapM as [|x y xs ys Hxy _ IH]; [done|].
  apply Forall_cons. split; [by eapply Hf|done].
Qed.

Lemma toPrimaryKeyString_entity (tableName : string) (primaryKey : list string)
    (value : Row') (key : string) :
  toPrimaryKeyString' tableName primaryKey value = Ok key →
  String.prefix (ENTITIES_KEY_PREFIX +:+ tableName +:+ "/") key = true.
Proof.
  assert (∀ seg, String.prefix (ENTITIES_KEY_PREFIX +:+ tableName +:+ "/")
                   (ENTITIES_KEY_PREFIX +:+ tableName +:+ "/" +:+ seg) = true) as Hseg.
  { intros seg.
    rewrite <- (string_app_assoc tableName "/" seg).
    rewrite <- (string_app_assoc ENTITIES_KEY_PREFIX (tableName +:+ "/") seg).
    apply prefix_app. }
  destruct primaryKey as [|k [|k' ks]]; unfold toPrimaryKeyString.
  - simpl. intros [= <-]. apply Hseg.
  - destruct (parsePrimaryKeyValue k (value !! k)); simpl; [|done].
    intros [= <-]. apply Hseg.
  - destruct (mapM _ (k :: k' :: ks)); simpl; [|done].
    intros [= <-]. apply Hseg.
Qed.

Lemma rowKey_entity (schema : Schema) (tableName : string) (row : Row') (key : string) :
  rowKey' schema tableName row = Ok key → isEntityKey schema key.
Proof.
  unfold rowKey. destruct (tables schema !! tableName) as [t|] eqn:Ht; [|done].
  destruct (toPrimaryKeyString _ _ _ _ _ _) as [k|] eqn:Hk; [|done].
  intros [= <-]. exists tableName. split; [by rewrite Ht|].
  by eapply toPrimaryKeyString_entity.
Qed.

Lemma partPatch_namespaces (schema : Schema) (pokePart : Part) ops :
  partPatch' schema pokePart = Ok ops → Forall (inItsNamespace schema) ops.
Proof.
  unfold partPatch.
  destruct (match rowsPatch pokePart with
            | Some ops0 => mapM (fun p => rowsPatchOpToReplicachePatchOp' p schema) ops0
            | None => Ok []
            end) as [fromRows|] eqn:Hrows; simpl; [|done].
  intros [= <-]. repeat apply Forall_app_2.
  - destruct (clientsPatch pokePart) as [cs|]; [|done].
    apply Forall_fmap, Forall_forall. intros [c|c|] _; simpl; [| |done].
    + apply (prefix_app CLIENTS_KEY_PREFIX).
    + left. apply (prefix_app CLIENTS_KEY_PREFIX).
  - destruct (desiredQueriesPatches pokePart) as [entries|]; [|done].
    apply Forall_forall. intros op Hop.
    apply list_elem_of_In, in_flat_map in Hop as ([clientID queriesPatch] & _ & Hop).
    apply in_map_iff in Hop as (q & <- & _).
    destruct q as [hash ast|hash|]; simpl; [| |done].
    + left. apply (prefix_app DESIRED_QUERIES_KEY_PREFIX).
    + right. left. apply (prefix_app DESIRED_QUERIES_KEY_PREFIX).
  - destruct (gotQueriesPatch pokePart) as [qs|]; [|done].
    apply Forall_forall. intros op Hop.
    apply list_elem_of_In, in_map_iff in Hop as (q & <- & _).
    destruct q as [hash ast|hash|]; simpl; [| |done].
    + right. apply (prefix_app GOT_QUERIES_KEY_PREFIX).
    + right. right. left. apply (prefix_app GOT_QUERIES_KEY_PREFIX).
  - destruct (rowsPatch pokePart) as [rs|]; [|by injection Hrows as <-].
    eapply mapM_Forall_out; [exact Hrows|].
    intros [t value|t id|t id merge constrain|] op; simpl.
    + destruct (rowKey' schema t value) as [key|] eqn:Hkey; simpl; [|done].
      intros [= <-]. by eapply rowKey_entity.
    + destruct (rowKey' schema t id) as [key|] eqn:Hkey; simpl; [|done].
      intros [= <-]. simpl. right. right. right. by eapply rowKey_entity.
    + destruct (rowKey' schema t id) as [key|] eqn:Hkey; simpl; [|done].
      intros [= <-]. by eapply rowKey_entity.
    + by intros [= <-].
Qed.

Lemma prefix_first_char (a b : ascii) (p q key : string) :
  String.prefix (String a p) key = true → String.prefix (String b q) key = true →
  a = b.
Proof.
  destruct key as [|c key]; [done|]. rewrite !prefix_String. naive_solver.
Qed.

(** X8.  A merged poke writes every value in the namespace of its kind:
    client puts go under ["c/"], query puts under ["d/"] or ["g/"], row puts
    and updates under ["e/<table>/"] for a table of the schema, and a del
    addresses one of the four.  Hence a put whose key starts with ["e/"]
    always carries a row. *)
Theorem merged_patch_respects_namespaces
    (schema : Schema) (buffer : list Accum)
    (merged : PokeInternal (number:=number) (AST:=AST)) :
  mergePokes' buffer schema = Ok (Some merged) →
  Forall (inItsNamespace schema) (pr_patch (pullResponse merged)) ∧
  (∀ key value,
     OpPut key value ∈ pr_patch (pullResponse merged) →
     String.prefix ENTITIES_KEY_PREFIX key = true →
     ∃ row, value = ValRow row).
Proof.
  intros Hm. destruct buffer as [|first rest]; [done|].
  apply mergePokes_Ok in Hm as (_ & pss & Hpss & Hmerged).
  injection Hmerged as ->. simpl.
  assert (Forall (inItsNamespace schema) (concat pss)) as Hall.
  { apply Forall_concat. eapply mapM_Forall_out; [exact Hpss|].
    intros part ops. apply partPatch_namespaces. }
  split; [done|].
  intros key value Hin He.
  rewrite Forall_forall in Hall. specialize (Hall _ Hin).
  destruct value as [|ast|row]; simpl in Hall.
  - by pose proof (prefix_first_char _ _ _ _ _ Hall He).
  - destruct Hall as [Hd|Hg].
    + by pose proof (prefix_first_char _ _ _ _ _ Hd He).
    + by pose proof (prefix_first_char _ _ _ _ _ Hg He).
  - by eexists.
Qed.

Local Abbreviation rafCallback' :=
  (rafCallback Number_toString JSON_stringify_number h128 applyPatchOp).

(** X23.  The playback loop stops by itself.  Whatever the handler holds,
    two consecutive frame callbacks with no poke completed in between leave
    the buffer empty and the loop stopped, and the second callback does not
    touch the client nor call [onPokeError]. *)
Theorem playback_loop_stops_when_idle
    (schema : Schema) (h : PokeHandler') (client : ClientState (Store:=Store)) :
  pokeBuffer (rafCallback' schema h client).1 = [] ∧
  rafCallback' schema (rafCallback' schema h client).1 (rafCallback' schema h client).2
  = ({| receivingPoke := receivingPoke (rafCallback' schema h client).1;
        pokeBuffer := [];
        pokePlaybackLoopRunning := false;
        onPokeErrorCalls := onPokeErrorCalls (rafCallback' schema h client).1 |},
     (rafCallback' schema h client).2).
Proof.
  assert (pokeBuffer (rafCallback' schema h client).1 = []) as Hempty.
  { unfold rafCallback. destruct (pokeBuffer h) as [|p ps] eqn:Hbuffer; [done|].
    apply processPokesForFrame_empties_buffer. }
  split; [done|].
  destruct (rafCallback' schema h client) as [h1 client1]. simpl in *.
  unfold rafCallback. by rewrite Hempty.
Qed.

End PokesFurther.

Section PokesFurtherSamples.
Import Keys Pokes Samples.

Local Abbreviation ZRow := (gmap string (Value Z)).

Lemma row_del_and_update_address_the_put_key_witness :
  rowsPatchOpToReplicachePatchOp (AST:=string) pretty pretty hash
    (RowDel "issues" ({[ "id" := VString "a" ]} : ZRow)) issuesSchema
  = Ok (OpDel "e/issues/a") ∧
  rowsPatchOpToReplicachePatchOp (AST:=string) pretty pretty hash
    (RowUpdate "issues" ({[ "id" := VString "a" ]} : ZRow) None None) issuesSchema
  = Ok (OpUpdate "e/issues/a" None None).
Proof.
  apply (row_del_and_update_address_the_put_key (AST:=string) pretty pretty hash
           issuesSchema "issues" {| primaryKey := ["id"] |}
           ({[ "id" := VString "a"; "title" := VString "fix" ]} : ZRow)
           ({[ "id" := VString "a" ]} : ZRow) "e/issues/a" None None).
  - reflexivity.
  - intros k Hk. apply list_elem_of_singleton in Hk as ->. reflexivity.
  - reflexivity.
Defined.

Lemma receivePoke_buffers_the_poke_witness :
  receivePoke "c1"
    {| receivingPoke := None; pokeBuffer := [poke1];
       pokePlaybackLoopRunning := false; onPokeErrorCalls := 0 |}
    (pokeStart poke2) (parts poke2) {| end_pokeID := "p2"; cancel := false |}
  = {| receivingPoke := None;
       pokeBuffer := [poke1] ++ [{| pokeStart := pokeStart poke2; parts := parts poke2 |}];
       pokePlaybackLoopRunning := true;
       onPokeErrorCalls := 0 |}.
Proof.
  apply (receivePoke_buffers_the_poke "c1"
           {| receivingPoke := None; pokeBuffer := [poke1];
              pokePlaybackLoopRunning := false; onPokeErrorCalls := 0 |}
           (pokeStart poke2) (parts poke2) {| end_pokeID := "p2"; cancel := false |}).
  - reflexivity.
  - repeat constructor.
  - reflexivity.
Defined.

Lemma stray_poke_messages_are_rejected_witness :
  pokeBuffer (handlePokeEnd
                (receiveParts "c1" (handleDisconnect receivingHandler) (parts poke2))
                {| end_pokeID := "p2"; cancel := false |}) = [] ∧
  onPokeErrorCalls (handlePokeEnd
                      (receiveParts "c1" (handleDisconnect receivingHandler) (parts poke2))
                      {| end_pokeID := "p2"; cancel := false |}) = 3%nat.
Proof.
  destruct (stray_poke_messages_are_rejected "c1" (handleDisconnect receivingHandler)
              (parts poke2) {| end_pokeID := "p2"; cancel := false |} eq_refl)
    as (_ & Hbuffer & _ & Hcalls & _).
  split; [exact Hbuffer | exact Hcalls].
Defined.

Lemma failed_frame_is_dropped_witness :
  processPokesForFrame pretty pretty hash journal issuesSchema
    {| receivingPoke := Some {| pokeStart := pokeStart poke2; parts := [] |};
       pokeBuffer := [poke1; gapPoke];
       pokePlaybackLoopRunning := true; onPokeErrorCalls := 0 |}
    freshClient
  = ({| receivingPoke := None; pokeBuffer := [];
        pokePlaybackLoopRunning := true; onPokeErrorCalls := 1 |},
     freshClient).
Proof.
  apply (proj1 (failed_frame_is_dropped pretty pretty hash journal issuesSchema
                  {| receivingPoke := Some {| pokeStart := pokeStart poke2; parts := [] |};
                     pokeBuffer := [poke1; gapPoke];
                     pokePlaybackLoopRunning := true; onPokeErrorCalls := 0 |}
                  freshClient)).
  exists [], poke1, gapPoke, []. split; [reflexivity|].
  exists "04". split; reflexivity.
Defined.

Lemma mergePokes_of_concatenation_witness :
  ∃ merged1 merged2,
    mergePokes pretty pretty hash [poke1] issuesSchema = Ok (Some merged1) ∧
    mergePokes pretty pretty hash [poke2] issuesSchema = Ok (Some merged2) ∧
    mergePokes pretty pretty hash ([poke1] ++ [poke2]) issuesSchema
    = Ok (Some {| pi_baseCookie := pi_baseCookie merged1;
                  pullResponse :=
                    {| pr_lastMutationIDChanges :=
                         pr_lastMutationIDChanges (pullResponse merged2)
                         ∪ pr_lastMutationIDChanges (pullResponse merged1);
                       pr_patch :=
                         pr_patch (pullResponse merged1)
                         ++ pr_patch (pullResponse merged2);
                       pr_cookie := pr_cookie (pullResponse merged2) |} |}).
Proof.
  eexists. eexists.
  split; [vm_compute; reflexivity|]. split; [vm_compute; reflexivity|].
  apply (proj1 (mergePokes_of_concatenation pretty pretty hash issuesSchema
                  [poke1] [poke2] _ _
                  ltac:(vm_compute; reflexivity) ltac:(vm_compute; reflexivity))).
  intros b [= <-]. reflexivity.
Defined.

Lemma merged_patch_respects_namespaces_witness :
  ∃ merged,
    mergePokes pretty pretty hash [poke1; poke2] issuesSchema = Ok (Some merged) ∧
    Forall (inItsNamespace issuesSchema) (pr_patch (pullResponse merged)).
Proof.
  eexists. split; [vm_compute; reflexivity|].
  apply (merged_patch_respects_namespaces pretty pretty hash issuesSchema
           [poke1; poke2] _ ltac:(vm_compute; reflexivity)).
Defined.

End PokesFurtherSamples.

(** ** connection-loop.ts: the send counter, request results and the delays *)

Section ConnLoopFurther.
Import ConnLoop.

Lemma counterCounts_step loop ev : counterCounts loop → counterCounts (step loop ev).
Proof.
  unfold counterCounts. intros Hinv. destruct ev as [now|c|c|error|]; simpl.
  - unfold send. destruct (closed loop); simpl; rewrite countSuspended_app, Hinv.
    + unfold countSuspended. simpl. lia.
    + destruct now; unfold countSuspended; simpl; lia.
  - unfold becomeVisible. destruct (calls loop !! c) as [[| |]|] eqn:Hc; try done.
    simpl. pose proof (countSuspended_insert _ _ _
                         (AwaitingSendResolver (sendResolver loop)) Hc) as Hins.
    simpl in Hins. lia.
  - unfold resume. destruct (calls loop !! c) as [[|r|]|] eqn:Hc; try done.
    destruct (resolvers loop !! r) as [[result|]|]; try done.
    simpl. pose proof (countSuspended_insert _ _ _ (Returned result) Hc) as Hins.
    simpl in Hins. lia.
  - unfold requestDone. by destruct (closed loop).
  - done.
Qed.

(** X9.  [#sendCounter] is, as its comment says, the number of pending send
    calls: in every state the loop can reach, through any sequence of sends,
    visibility changes, resumptions, request completions and closes, it
    equals the number of calls of [send] that have not returned yet. *)
Theorem sendCounter_counts_pending_sends (events : list Event) :
  sendCounter (runEvents events initial)
  = countSuspended (calls (runEvents events initial)).
Proof.
  assert (∀ loop, counterCounts loop → counterCounts (runEvents events loop)) as Hrun.
  { induction events as [|ev events IH]; intros loop Hinv; [done|].
    simpl. apply IH. by apply counterCounts_step. }
  by apply (Hrun initial).
Qed.

(** X10.  The result of a request belongs to the sends that waited for it.
    If call [c] waits on the current send resolver of an open loop when a
    request completes, then whatever happens afterwards (further sends,
    further requests, [close]) the promise of [c] is pending or resolved
    with the outcome of that request, never with another value, and once
    the call resumes it is resolved with that outcome. *)
Theorem request_result_reaches_waiting_send
    (before after : list Event) (c : nat) (error : option JSError) :
  closed (runEvents before initial) = false →
  calls (runEvents before initial) !! c
  = Some (AwaitingSendResolver (sendResolver (runEvents before initial))) →
  (sendPromise (runEvents after (requestDone error (runEvents before initial))) c
   = Pending ∨
   sendPromise (runEvents after (requestDone error (runEvents before initial))) c
   = Resolved (requestResult error)) ∧
  sendPromise
    (resume c (runEvents after (requestDone error (runEvents before initial)))) c
  = Resolved (requestResult error).
Proof.
  intros Hopen Hcall.
  pose proof (OpenLoop_run before initial OpenLoop_initial Hopen) as Hinv.
  pose proof (OpenLoop_current_lookup _ Hinv) as Hcur.
  set (loop0 := runEvents before initial) in *.
  assert (AnsweredBy c (sendResolver loop0) (requestResult error)
            (requestDone error loop0)) as Hdone.
  { unfold requestDone. rewrite Hopen. split; simpl; [|by left].
    unfold resolve.
    assert (sendResolver loop0 < length (resolvers loop0))%nat as Hlt
      by (by eapply lookup_lt_Some).
    rewrite lookup_app_l, Hcur by done.
    rewrite list_lookup_insert_eq; [by destruct error|].
    rewrite length_app. lia. }
  pose proof (AnsweredBy_run after _ _ _ _ Hdone) as [Hres Hc].
  set (loop := runEvents after (requestDone error loop0)) in *.
  unfold sendPromise, resume. destruct Hc as [Hc|Hc]; rewrite Hc.
  - split; [by left|]. rewrite Hres. simpl.
    rewrite list_lookup_insert_eq; [done|by eapply lookup_lt_Some].
  - split; [by right|]. by rewrite Hc.
Qed.

Lemma Unsettled_step loop ev :
  Unsettled loop → settles ev = false → Unsettled (step loop ev).
Proof.
  intros [Hclosed Hres Hcalls] Hev. destruct ev as [now|c|c|error|]; try done; simpl.
  - unfold send. rewrite Hclosed. split; simpl; [done..|].
    apply Forall_app. split; [done|]. apply Forall_singleton. by destruct now.
  - unfold becomeVisible. destruct (calls loop !! c) as [[| |]|] eqn:Hc; try done.
    split; simpl; [done..|].
    rewrite Forall_forall in Hcalls |- *. intros call Hin.
    apply list_elem_of_lookup in Hin as [i Hi].
    destruct (decide (i = c)) as [->|Hne].
    + rewrite list_lookup_insert_eq in Hi by (by eapply lookup_lt_Some).
      by injection Hi as <-.
    + rewrite list_lookup_insert_ne in Hi by done.
      apply Hcalls. by eapply list_elem_of_lookup_2.
  - unfold resume. destruct (calls loop !! c) as [[|r|]|] eqn:Hc; try done.
    rewrite Hres. by destruct r as [|[|r]].
Qed.

(** X11.  A send is answered only by a request or by [close]: as long as no
    request has completed and the loop was not closed, every call of [send]
    made so far is still pending, whatever sends, visibility changes and
    resumptions took place. *)
Theorem send_waits_for_request_or_close (events : list Event) (c : nat) :
  Forall (fun ev => settles ev = false) events →
  sendPromise (runEvents events initial) c = Pending.
Proof.
  intros Hevents.
  assert (∀ loop, Unsettled loop → Unsettled (runEvents events loop)) as Hrun.
  { induction Hevents as [|ev events Hev _ IH]; intros loop Hinv; [done|].
    simpl. apply IH. by apply Unsettled_step. }
  destruct (Hrun initial) as [_ _ Hcalls]; [by split|].
  unfold sendPromise.
  destruct (calls (runEvents events initial) !! c) as [call|] eqn:Hc; [|done].
  apply list_elem_of_lookup_2 in Hc.
  rewrite Forall_forall in Hcalls. specialize (Hcalls _ Hc).
  by destruct call.
Qed.

Lemma didLastSendRequestFail_snoc records outcome :
  didLastSendRequestFail (records ++ [outcome]) = negb (ok outcome).
Proof. unfold didLastSendRequestFail. by rewrite last_snoc. Qed.

Lemma delayForNextSend_after_failure delegate delay records outcome :
  ok outcome = false →
  delayForNextSend 0 delay delegate (records ++ [outcome])
  = (if (delay =? 0)%Z then minDelayMs delegate else delay * 2,
     Z.min (maxDelayMs delegate)
       (Z.max (minDelayMs delegate)
          (if (delay =? 0)%Z then minDelayMs delegate else delay * 2)),
     records ++ [outcome]).
Proof.
  intros Hfailed. unfold delayForNextSend.
  rewrite didLastSendRequestFail_snoc, Hfailed. simpl.
  unfold computeDelayAndUpdateDurations. rewrite last_snoc, Hfailed. done.
Qed.

Lemma clampedDelaysAfter_failures delegate (outcomes : list SendRecord) :
  ∀ delay records,
  minDelayMs delegate <= delay → 0 < delay →
  Forall (fun outcome => ok outcome = false) outcomes →
  clampedDelaysAfter delegate delay records outcomes
  = map (fun i => Z.min (maxDelayMs delegate) (delay * 2 ^ Z.of_nat (S i)))
        (seq 0 (length outcomes)).
Proof.
  induction outcomes as [|outcome outcomes IH]; intros delay records Hmin Hpos Hall;
    [done|].
  apply Forall_cons in Hall as [Hfailed Hall].
  simpl clampedDelaysAfter. rewrite delayForNextSend_after_failure by done.
  destruct (Z.eqb_spec delay 0) as [->|_]; [lia|].
  rewrite IH by (done || lia).
  simpl length. rewrite <- cons_seq, <- seq_shift, map_cons, map_map.
  f_equal.
  - f_equal. change (Z.of_nat 1) with 1. rewrite Z.pow_1_r. lia.
  - apply map_ext. intros i. f_equal.
    rewrite (Nat2Z.inj_succ (S i)), Z.pow_succ_r by lia. lia.
Qed.

(** X12.  Exponential backoff.  When the requests of successive iterations
    all fail, starting from a delay of 0 with a positive [minDelayMs], the
    loop waits [minDelayMs] before the first retry and doubles the wait with
    every further failure, capped by [maxDelayMs]: the wait before retry
    number [i] is [min(maxDelayMs, minDelayMs * 2^i)], whatever the earlier
    history of requests. *)
Theorem consecutive_failures_back_off
    (delegate : ConnectionLoopDelegate) (sendRecords outcomes : list SendRecord) :
  0 < minDelayMs delegate →
  Forall (fun outcome => ok outcome = false) outcomes →
  clampedDelaysAfter delegate 0 sendRecords outcomes
  = map (fun i => Z.min (maxDelayMs delegate) (minDelayMs delegate * 2 ^ Z.of_nat i))
        (seq 0 (length outcomes)).
Proof.
  intros Hmin Hall. destruct outcomes as [|outcome outcomes]; [done|].
  apply Forall_cons in Hall as [Hfailed Hall].
  simpl clampedDelaysAfter. rewrite delayForNextSend_after_failure by done.
  simpl (0 =? 0)%Z. cbv iota.
  rewrite clampedDelaysAfter_failures by (done || lia).
  simpl length. rewrite <- cons_seq, <- seq_shift, map_cons, map_map.
  f_equal. f_equal. change (Z.of_nat 0) with 0. rewrite Z.pow_0_r. lia.
Qed.

Lemma last_lookup_pred {A} (l : list A) : last l = l !! (length l - 1)%nat.
Proof. rewrite last_lookup. f_equal. lia. Qed.

(** X13.  The delay is reset once the connection works again.  Right after
    a recovery (the last request succeeded and the one before it failed), or
    when the last request did not fail and no request is in flight, the loop
    waits [minDelayMs] (capped by [maxDelayMs]) before the next send,
    whatever delay the backoff had reached. *)
Theorem delay_resets_after_success
    (counter : nat) (delay : Z) (delegate : ConnectionLoopDelegate)
    (sendRecords : list SendRecord) :
  0 <= minDelayMs delegate →
  (recovered sendRecords = true ∨
   (counter = 0%nat ∧ didLastSendRequestFail sendRecords = false)) →
  (delayForNextSend counter delay delegate sendRecords).1.2
  = Z.min (maxDelayMs delegate) (minDelayMs delegate).
Proof.
  intros Hmin Hcase.
  assert (didLastSendRequestFail sendRecords = false) as Hlast.
  { destruct Hcase as [Hrec|[_ Hlast]]; [|done].
    unfold recovered in Hrec. unfold didLastSendRequestFail.
    rewrite last_lookup_pred.
    destruct (1 <? length sendRecords)%nat; [|done].
    destruct (sendRecords !! (length sendRecords - 2)%nat); [|done].
    destruct (sendRecords !! (length sendRecords - 1)%nat) as [lastRecord|]; [|done].
    simpl in Hrec. apply andb_true_iff in Hrec as [_ ->]. done. }
  unfold delayForNextSend. rewrite Hlast, orb_false_r.
  destruct (0 <? counter)%nat eqn:Hcounter.
  - destruct Hcase as [Hrec|[-> _]]; [|done].
    unfold recovered in Hrec. unfold computeDelayAndUpdateDurations.
    rewrite last_lookup_pred.
    destruct (1 <? length sendRecords)%nat; [|done].
    destruct (sendRecords !! (length sendRecords - 2)%nat) as [previous|]; [|done].
    destruct (sendRecords !! (length sendRecords - 1)%nat) as [lastRecord|]; [|done].
    simpl in Hrec. apply andb_true_iff in Hrec as [Hprev Hok].
    rewrite Hok, Hprev. simpl. f_equal. lia.
  - simpl. f_equal. lia.
Qed.

Lemma insertSorted_Forall (le : Z → Z → bool) (P : Z → Prop) x l :
  P x → Forall P l → Forall P (insertSorted le x l).
Proof.
  intros Hx Hl. induction Hl as [|y l Hy Hl IH]; simpl.
  - by apply Forall_singleton.
  - destruct (le x y); repeat (apply Forall_cons; split); done.
Qed.

Lemma insertSorted_length (le : Z → Z → bool) x l :
  length (insertSorted le x l) = S (length l).
Proof.
  induction l as [|y l IH]; simpl; [done|]. destruct (le x y); simpl; by rewrite ?IH.
Qed.

Lemma sortWith_Forall (le : Z → Z → bool) (P : Z → Prop) l :
  Forall P l → Forall P (sortWith le l).
Proof.
  intros Hl. induction Hl as [|x l Hx Hl IH]; simpl; [done|].
  by apply insertSorted_Forall.
Qed.

Lemma sortWith_length (le : Z → Z → bool) l : length (sortWith le l) = length l.
Proof.
  induction l as [|x l IH]; simpl; [done|]. by rewrite insertSorted_length, IH.
Qed.

(** X14.  Whatever order the comparator-less [sort()] puts the durations in,
    the median of a non-empty array is a number between its smallest and its
    largest element: it is one of the elements or the mean of two of them,
    and never [NaN]. *)
Theorem median_between_extremes (values : list Z) (lo hi : Z) :
  values ≠ [] →
  Forall (fun v => lo <= v <= hi) values →
  ∃ q, median values = Some q ∧ (inject_Z lo <= q)%Q ∧ (q <= inject_Z hi)%Q.
Proof.
  intros Hne Hall. unfold median, Array_sort.
  pose proof (sortWith_Forall defaultSortLe _ _ Hall) as Hsorted.
  pose proof (sortWith_length defaultSortLe values) as Hlen.
  set (sorted := sortWith defaultSortLe values) in *.
  assert (0 < length sorted)%nat as Hpos
    by (rewrite Hlen; destruct values; [done|simpl; lia]).
  rewrite Nat.shiftr_div_pow2. change (2 ^ 1)%nat with 2%nat.
  rewrite Forall_forall in Hsorted.
  destruct (Nat.eqb_spec (length sorted mod 2) 1) as [Hodd|Heven].
  - destruct (lookup_lt_is_Some_2 sorted (length sorted / 2)) as [a Ha].
    { apply Nat.div_lt; lia. }
    rewrite Ha. exists (inject_Z a). split; [done|].
    pose proof (Hsorted a (list_elem_of_lookup_2 _ _ _ Ha)) as Hbounds.
    unfold Qle. simpl. lia.
  - assert (length sorted mod 2 = 0)%nat as Hmod.
    { pose proof (Nat.mod_upper_bound (length sorted) 2). lia. }
    pose proof (Nat.div_mod_eq (length sorted) 2) as Hdiv.
    destruct (lookup_lt_is_Some_2 sorted (length sorted / 2 - 1)) as [a Ha]; [lia|].
    destruct (lookup_lt_is_Some_2 sorted (length sorted / 2)) as [b Hb]; [lia|].
    rewrite Ha, Hb. eexists. split; [done|].
    pose proof (Hsorted a (list_elem_of_lookup_2 _ _ _ Ha)) as Hboundsa.
    pose proof (Hsorted b (list_elem_of_lookup_2 _ _ _ Hb)) as Hboundsb.
    unfold Qle. simpl. lia.
Qed.

End ConnLoopFurther.

Lemma request_result_reaches_waiting_send_witness :
  ConnLoop.sendPromise
    (ConnLoop.resume 0
       (ConnLoop.runEvents [ConnLoop.EvSend true; ConnLoop.EvClose]
          (ConnLoop.requestDone None
             (ConnLoop.runEvents [ConnLoop.EvSend true] ConnLoop.initial)))) 0
  = ConnLoop.Resolved ConnLoop.SendOk.
Proof.
  exact (proj2 (request_result_reaches_waiting_send
                  [ConnLoop.EvSend true] [ConnLoop.EvSend true; ConnLoop.EvClose]
                  0 None eq_refl eq_refl)).
Defined.

Lemma send_waits_for_request_or_close_witness :
  ConnLoop.sendPromise
    (ConnLoop.runEvents
       [ConnLoop.EvSend true; ConnLoop.EvSend false; ConnLoop.EvVisible 1;
        ConnLoop.EvResume 0]
       ConnLoop.initial) 0
  = ConnLoop.Pending.
Proof.
  apply send_waits_for_request_or_close. repeat constructor.
Defined.

Lemma consecutive_failures_back_off_witness :
  ConnLoop.clampedDelaysAfter Samples.loopDelegate 0 [Samples.sendOk 100]
    [Samples.sendFailed 1; Samples.sendFailed 1; Samples.sendFailed 1]
  = [30; 60; 120].
Proof.
  apply (consecutive_failures_back_off Samples.loopDelegate [Samples.sendOk 100]
           [Samples.sendFailed 1; Samples.sendFailed 1; Samples.sendFailed 1]).
  - reflexivity.
  - repeat constructor.
Defined.

Lemma delay_resets_after_success_witness :
  (ConnLoop.delayForNextSend 2 480 Samples.loopDelegate
     [Samples.sendFailed 5; Samples.sendOk 7]).1.2 = 30.
Proof.
  apply (delay_resets_after_success 2 480 Samples.loopDelegate
           [Samples.sendFailed 5; Samples.sendOk 7]).
  - discriminate.
  - left. reflexivity.
Defined.

Lemma median_between_extremes_witness :
  ∃ q, ConnLoop.median [100; 5; 10] = Some q ∧
       (inject_Z 5 <= q)%Q ∧ (q <= inject_Z 100)%Q.
Proof.
  apply median_between_extremes.
  - discriminate.
  - repeat constructor; discriminate.
Defined.

(** ** The connect handler: parsing, refusals and what is stored *)

Section ConnectFurther.
Import Connect.

Variable parseInt : string → option Z.
Variable decodeUserID : string → option (option string).
Variable USER_DATA_HEADER_NAME : string.

Local Abbreviation getParam' := getParam.
Local Abbreviation getIntegerParam' := (getIntegerParam parseInt).
Local Abbreviation getUserData' := (getUserData decodeUserID USER_DATA_HEADER_NAME).
Local Abbreviation getConnectRequest' :=
  (getConnectRequest parseInt decodeUserID USER_DATA_HEADER_NAME).
Local Abbreviation handleConnection' :=
  (handleConnection parseInt decodeUserID USER_DATA_HEADER_NAME).
Local Abbreviation integerParam' := (integerParam parseInt).

Lemma getParam_required url name value :
  (v ←! getParam url name true; required name v) = Ok value ↔
  searchParams_get url name = Some value ∧ value ≠ "".
Proof.
  unfold getParam. destruct (searchParams_get url name) as [s|]; simpl.
  - destruct (String.eqb_spec s ""); simpl; naive_solver.
  - naive_solver.
Qed.

Lemma getIntegerParam_required url name n :
  (v ←! getIntegerParam' url name true; required name v) = Ok n ↔
  integerParam' url name n.
Proof.
  unfold getIntegerParam, getParam, integerParam.
  destruct (searchParams_get url name) as [s|]; simpl.
  - destruct (String.eqb_spec s ""); simpl; [naive_solver|].
    destruct (parseInt s) eqn:Hint; simpl; naive_solver.
  - naive_solver.
Qed.

Lemma getIntegerParam_optional url name o :
  getIntegerParam' url name false = Ok o ↔
  (o = None ∧ missingParam url name) ∨
  (∃ n, o = Some n ∧ integerParam' url name n).
Proof.
  unfold getIntegerParam, getParam, integerParam, missingParam.
  destruct (searchParams_get url name) as [s|]; simpl.
  - destruct (String.eqb_spec s ""); simpl; [naive_solver|].
    destruct (parseInt s) eqn:Hint; simpl; naive_solver.
  - naive_solver.
Qed.

Lemma getUserData_Ok headers u :
  getUserData' headers = Ok u ↔
  ∃ encodedValue,
    headers !! USER_DATA_HEADER_NAME = Some encodedValue ∧ encodedValue ≠ "" ∧
    decodeUserID encodedValue = Some (Some (userID u)) ∧ userID u ≠ "".
Proof.
  unfold getUserData. destruct (headers !! USER_DATA_HEADER_NAME) as [enc|]; simpl.
  - destruct (String.eqb_spec enc ""); simpl; [naive_solver|].
    destruct (decodeUserID enc) as [[id|]|] eqn:Hdecode; simpl; [|naive_solver..].
    destruct (String.eqb_spec id ""); simpl.
    + split; [done|]. intros (? & [= <-] & _ & Hid & Hne). congruence.
    + destruct u as [id']. simpl. split.
      * intros [= <-]. by exists enc.
      * intros (? & [= <-] & _ & Hid & _). congruence.
  - naive_solver.
Qed.

(** X15.  Which connect requests parse.  [getConnectRequest] returns a
    request exactly when [clientID] is present and not empty, [ts] and
    [lmid] are present, not empty and read as integers, [baseCookie] is
    absent or empty (then it is [null]) or reads as an integer, and the
    user-data header is present, not empty and decodes to a value with a
    non-empty string [userID]; the fields of the request are those values. *)
Theorem getConnectRequest_accepts url headers req :
  getConnectRequest' url headers = Ok req ↔
  (searchParams_get url "clientID" = Some (clientID req) ∧ clientID req ≠ "") ∧
  ((baseCookie req = None ∧ missingParam url "baseCookie") ∨
   (∃ n, baseCookie req = Some n ∧ integerParam' url "baseCookie" n)) ∧
  integerParam' url "ts" (timestamp req) ∧
  integerParam' url "lmid" (lmid req) ∧
  (∃ encodedValue,
     headers !! USER_DATA_HEADER_NAME = Some encodedValue ∧ encodedValue ≠ "" ∧
     decodeUserID encodedValue = Some (Some (userID (req_userData req))) ∧
     userID (req_userData req) ≠ "").
Proof.
  rewrite <- getParam_required, <- getIntegerParam_optional,
    <- !getIntegerParam_required, <- getUserData_Ok.
  unfold getConnectRequest.
  destruct (v ←! getParam url "clientID" true; required "clientID" v)
    as [id|] eqn:Hid; simpl; [|naive_solver].
  destruct (getIntegerParam' url "baseCookie" false) as [base|]; simpl;
    [|naive_solver].
  destruct (v ←! getIntegerParam' url "ts" true; required "ts" v) as [ts|];
    simpl; [|naive_solver].
  destruct (v ←! getIntegerParam' url "lmid" true; required "lmid" v) as [l|];
    simpl; [|naive_solver].
  destruct (getUserData' headers) as [u|]; simpl; [|naive_solver].
  destruct req; simpl. naive_solver.
Qed.

Lemma missing_clientID_Throw url headers :
  missingParam url "clientID" →
  getConnectRequest' url headers = Throw "Error: invalid querystring - missing clientID".
Proof.
  intros Hmissing. unfold getConnectRequest, getParam.
  destruct Hmissing as [-> | ->]; done.
Qed.

(** X16.  A connect request that does not parse is refused without a trace:
    the socket receives the single frame [['error', message]] with the
    message of the parse error and is closed, and neither the storage nor
    the client map changes.  When [clientID] is absent or empty the message
    is ["Error: invalid querystring - missing clientID"], whatever else the
    request holds. *)
Theorem handleConnection_refuses_unparsable ws url headers w :
  (∀ error, getConnectRequest' url headers = Throw error →
     sent (theSocket (sockets (handleConnection' ws url headers w)) ws)
     = sent (theSocket (sockets w) ws) ++ [ErrorFrame error] ∧
     isClosed (theSocket (sockets (handleConnection' ws url headers w)) ws) = true ∧
     storage (handleConnection' ws url headers w) = storage w ∧
     clients (handleConnection' ws url headers w) = clients w) ∧
  (missingParam url "clientID" →
     sent (theSocket (sockets (handleConnection' ws url headers w)) ws)
     = sent (theSocket (sockets w) ws)
       ++ [ErrorFrame "Error: invalid querystring - missing clientID"]).
Proof.
  assert (∀ error, getConnectRequest' url headers = Throw error →
            handleConnection' ws url headers w = sendError ws error w) as Hrefuse.
  { intros error Herror. unfold handleConnection. by rewrite Herror. }
  split.
  - intros error Herror. rewrite (Hrefuse _ Herror). apply sendError_spec.
  - intros Hmissing.
    rewrite (Hrefuse _ (missing_clientID_Throw url headers Hmissing)).
    apply sendError_spec.
Qed.

(** X17.  Connecting never changes what the room knows about mutations:
    whatever the request and whether it is accepted or refused,
    [handleConnection] leaves the version of the room and the last mutation
    ID stored for every client (0 without a record) as they were, and no
    client leaves the set of connected clients. *)
Theorem handleConnection_keeps_mutation_state ws url headers w :
  version (storage (handleConnection' ws url headers w)) = version (storage w) ∧
  (∀ id, storedLastMutationID (storage (handleConnection' ws url headers w)) id
         = storedLastMutationID (storage w) id) ∧
  connectedClients (storage w)
  ⊆ connectedClients (storage (handleConnection' ws url headers w)).
Proof.
  unfold handleConnection.
  destruct (getConnectRequest' url headers) as [req|error]; [|done].
  destruct (_ >? _)%Z; [done|]. destruct (_ >? _)%Z; [done|].
  simpl. split; [done|]. split; [|set_solver].
  intros id. unfold storedLastMutationID, getClientRecord. simpl.
  destruct (decide (clientID req = id)) as [<-|Hne].
  - by rewrite lookup_insert_eq.
  - by rewrite lookup_insert_ne.
Qed.

Lemma sent_socketSend_ne ws frame m x :
  ws ≠ x → sent (theSocket (socketSend ws frame m) x) = sent (theSocket m x).
Proof. intros Hne. unfold socketSend. by rewrite theSocket_insert_ne. Qed.

Lemma handleConnection_connected_inv ws url headers w req :
  getConnectRequest' url headers = Ok req →
  sent (theSocket (sockets (handleConnection' ws url headers w)) ws)
  = sent (theSocket (sockets w) ws) ++ [ConnectedFrame] →
  (lmid req >? storedLastMutationID (storage w) (clientID req))%Z = false ∧
  (compareVersions (baseCookie req) (getVersion (storage w)) >? 0)%Z = false.
Proof.
  intros Hreq. unfold handleConnection. rewrite Hreq.
  fold (storedLastMutationID (storage w) (clientID req)).
  destruct (_ >? _)%Z.
  { destruct (sendError_spec ws ("Unexpected lmid. " +:+ maybeOldClientStateMessage) w)
      as [-> _].
    intros Heq. by apply app_inj_tail in Heq as [_ ?]. }
  destruct (_ >? _)%Z.
  { destruct (sendError_spec ws
                ("Unexpected baseCookie. " +:+ maybeOldClientStateMessage) w)
      as [-> _].
    intros Heq. by apply app_inj_tail in Heq as [_ ?]. }
  done.
Qed.

(** X18.  Reconnecting.  If a request was answered with [connected] on
    socket [ws1], the same request presented again on another socket [ws2]
    is accepted too: [ws2] receives [connected] as its only new frame, [ws1]
    is closed, the client map points the client to [ws2], and the storage is
    the one the first connection left. *)
Theorem reconnect_replaces_socket ws1 ws2 url headers w req :
  getConnectRequest' url headers = Ok req →
  ws1 ≠ ws2 →
  sent (theSocket (sockets (handleConnection' ws1 url headers w)) ws1)
  = sent (theSocket (sockets w) ws1) ++ [ConnectedFrame] →
  sent (theSocket (sockets (handleConnection' ws2 url headers
                              (handleConnection' ws1 url headers w))) ws2)
  = sent (theSocket (sockets w) ws2) ++ [ConnectedFrame] ∧
  isClosed (theSocket (sockets (handleConnection' ws2 url headers
                                  (handleConnection' ws1 url headers w))) ws1)
  = true ∧
  socket <$> clients (handleConnection' ws2 url headers
                        (handleConnection' ws1 url headers w)) !! clientID req
  = Some ws2 ∧
  storage (handleConnection' ws2 url headers (handleConnection' ws1 url headers w))
  = storage (handleConnection' ws1 url headers w).
Proof.
  intros Hreq Hne Hfirst.
  destruct (handleConnection_connected_inv _ _ _ _ _ Hreq Hfirst) as [Hlmid Hversion].
  set (w1 := handleConnection' ws1 url headers w).
  assert (w1 = handleConnection' ws1 url headers w) as Hw1 by done.
  unfold handleConnection in Hw1. rewrite Hreq in Hw1.
  fold (storedLastMutationID (storage w) (clientID req)) in Hw1.
  rewrite Hlmid, Hversion in Hw1.
  assert (storedLastMutationID (storage w1) (clientID req)
          = storedLastMutationID (storage w) (clientID req)) as Hstored.
  { rewrite Hw1. unfold storedLastMutationID at 1, getClientRecord. simpl.
    by rewrite lookup_insert_eq. }
  assert (getVersion (storage w1) = getVersion (storage w)) as Hv by (by rewrite Hw1).
  assert (clients w1 !! clientID req
          = Some {| socket := ws1; userData := req_userData req;
                    clockBehindByMs := None; pending := [] |}) as Hclient.
  { rewrite Hw1. simpl. by rewrite lookup_insert_eq. }
  assert (sent (theSocket (sockets w1) ws2) = sent (theSocket (sockets w) ws2))
    as Hsent.
  { rewrite Hw1. simpl.
    rewrite sent_socketSend_ne, !sent_addEventListener by done.
    destruct (clients w !! clientID req); [|done]. by rewrite sent_socketClose. }
  unfold handleConnection at 1 2 3 4. rewrite Hreq.
  fold (storedLastMutationID (storage w1) (clientID req)).
  rewrite Hstored, Hv, Hlmid, Hversion, Hclient. simpl.
  split; [|split; [|split]].
  - by rewrite sent_socketSend, !sent_addEventListener, sent_socketClose, Hsent.
  - by rewrite isClosed_socketSend, !isClosed_addEventListener, isClosed_socketClose.
  - by rewrite lookup_insert_eq.
  - rewrite Hw1. unfold putClientRecord, addConnectedClient. simpl. f_equal.
    + by rewrite insert_insert_eq.
    + set_solver.
Qed.

Lemma theSocket_socketSend_ne ws frame m x :
  ws ≠ x → theSocket (socketSend ws frame m) x = theSocket m x.
Proof. intros Hne. unfold socketSend. by rewrite theSocket_insert_ne. Qed.

Lemma theSocket_addEventListener_ne ws l m x :
  ws ≠ x → theSocket (addEventListener ws l m) x = theSocket m x.
Proof. intros Hne. unfold addEventListener. by rewrite theSocket_insert_ne. Qed.

Lemma theSocket_socketClose_ne ws m x :
  ws ≠ x → theSocket (socketClose ws m) x = theSocket m x.
Proof. intros Hne. unfold socketClose. by rewrite theSocket_insert_ne. Qed.

(** X24.  [handleConnection] touches two sockets at most.  A socket other
    than the one of the request is left exactly as it was, unless the
    request is accepted and the socket is the one the client map held for
    the client of the request: that socket is closed, and nothing is sent
    on it nor any listener added to it.  In particular a refused request
    never closes the socket the client is connected through. *)
Theorem handleConnection_touches_only_its_sockets ws url headers w x :
  x ≠ ws →
  theSocket (sockets (handleConnection' ws url headers w)) x = theSocket (sockets w) x
  ∨
  (∃ req existing,
     getConnectRequest' url headers = Ok req ∧
     clients w !! clientID req = Some existing ∧
     socket existing = x ∧
     sent (theSocket (sockets (handleConnection' ws url headers w)) ws)
     = sent (theSocket (sockets w) ws) ++ [ConnectedFrame] ∧
     theSocket (sockets (handleConnection' ws url headers w)) x
     = {| sent := sent (theSocket (sockets w) x);
          isClosed := true;
          listeners := listeners (theSocket (sockets w) x) |}).
Proof.
  intros Hne.
  assert (∀ error, theSocket (sockets (sendError ws error w)) x = theSocket (sockets w) x)
    as Hrefused.
  { intros error. unfold sendError. simpl.
    by rewrite theSocket_socketClose_ne, theSocket_socketSend_ne. }
  unfold handleConnection.
  destruct (getConnectRequest' url headers) as [req|error] eqn:Hreq; [|by left].
  destruct (_ >? _)%Z; [by left|]. destruct (_ >? _)%Z; [by left|].
  simpl.
  rewrite theSocket_socketSend_ne, !theSocket_addEventListener_ne by done.
  rewrite sent_socketSend, !sent_addEventListener.
  destruct (clients w !! clientID req) as [existing|] eqn:Hexisting; [|by left].
  destruct (decide (socket existing = x)) as [Hx|Hx].
  - right. exists req, existing. split; [done|]. split; [done|]. split; [done|].
    rewrite sent_socketClose. split; [done|].
    subst x. unfold socketClose. by rewrite theSocket_insert.
  - left. by rewrite theSocket_socketClose_ne.
Qed.

End ConnectFurther.

Lemma getConnectRequest_accepts_witness :
  Connect.getConnectRequest Samples.parseDecimal Samples.plainUserID "x-user-data"
    Samples.connectURL Samples.connectHeaders
  = Ok {| Connect.clientID := "c1";
          Connect.req_userData := {| Connect.userID := "alice" |};
          Connect.baseCookie := Some 4;
          Connect.timestamp := 100;
          Connect.lmid := 3 |}.
Proof.
  apply (proj2 (getConnectRequest_accepts Samples.parseDecimal Samples.plainUserID
                  "x-user-data" Samples.connectURL Samples.connectHeaders _)).
  split; [split; [reflexivity|discriminate]|].
  split; [right; exists 4; split; [reflexivity|];
          exists "4"; split; [reflexivity|]; split; [discriminate|reflexivity]|].
  split; [exists "100"; split; [reflexivity|]; split; [discriminate|reflexivity]|].
  split; [exists "3"; split; [reflexivity|]; split; [discriminate|reflexivity]|].
  exists "alice". split; [reflexivity|]. split; [discriminate|].
  split; [reflexivity|discriminate].
Defined.

Lemma handleConnection_refuses_unparsable_witness :
  Connect.sent (Connect.theSocket
    (Connect.sockets (Connect.handleConnection Samples.parseDecimal
       Samples.plainUserID "x-user-data" 2%nat
       {| Connect.href := "ws://room/connect?ts=100&lmid=3";
          Connect.searchParams := [("ts", "100"); ("lmid", "3")] |}
       Samples.connectHeaders Samples.staleRoom)) 2%nat)
  = [] ++ [Connect.ErrorFrame "Error: invalid querystring - missing clientID"].
Proof.
  apply (proj2 (handleConnection_refuses_unparsable Samples.parseDecimal
                  Samples.plainUserID "x-user-data" 2%nat
                  {| Connect.href := "ws://room/connect?ts=100&lmid=3";
                     Connect.searchParams := [("ts", "100"); ("lmid", "3")] |}
                  Samples.connectHeaders Samples.staleRoom)).
  left. reflexivity.
Defined.

Lemma reconnect_replaces_socket_witness :
  Connect.sent (Connect.theSocket
    (Connect.sockets
       (Connect.handleConnection Samples.parseDecimal Samples.plainUserID
          "x-user-data" 3%nat Samples.connectURL Samples.connectHeaders
          (Connect.handleConnection Samples.parseDecimal Samples.plainUserID
             "x-user-data" 2%nat Samples.connectURL Samples.connectHeaders
             Samples.room))) 3%nat)
  = [] ++ [Connect.ConnectedFrame] ∧
  Connect.isClosed (Connect.theSocket
    (Connect.sockets
       (Connect.handleConnection Samples.parseDecimal Samples.plainUserID
          "x-user-data" 3%nat Samples.connectURL Samples.connectHeaders
          (Connect.handleConnection Samples.parseDecimal Samples.plainUserID
             "x-user-data" 2%nat Samples.connectURL Samples.connectHeaders
             Samples.room))) 2%nat)
  = true.
Proof.
  destruct (reconnect_replaces_socket Samples.parseDecimal Samples.plainUserID
              "x-user-data" 2%nat 3%nat Samples.connectURL Samples.connectHeaders
              Samples.room _ ltac:(vm_compute; reflexivity)
              ltac:(discriminate) ltac:(vm_compute; reflexivity))
    as (Hsent & Hclosed & _).
  split; [exact Hsent | exact Hclosed].
Defined.

(** ** litestream: how [restoreReplica] ends *)

Section LitestreamProperties.
Import Litestream.

Variable tryRestore : nat → result string bool.
Variable maxRetries : Z.

Local Abbreviation restoreFrom' := (restoreFrom tryRestore maxRetries).
Local Abbreviation restoreReplica' := (restoreReplica tryRestore maxRetries).
Local Abbreviation nothingBefore' := (nothingBefore tryRestore).

Lemma restoreFrom_sound (n : nat) : ∀ i,
  (i + n = Z.to_nat maxRetries)%nat →
  (maxRetries = 1 → i = 0%nat) →
  nothingBefore' i →
  match outcome (restoreFrom' n i) with
  | Restored =>
      ∃ k, (k < Z.to_nat maxRetries)%nat ∧ nothingBefore' k ∧ tryRestore k = Ok true
  | NoBackupFound => maxRetries = 1 ∧ tryRestore 0%nat = Ok false
  | Failed m =>
      (m = MAX_ATTEMPTS_EXCEEDED ∧ maxRetries ≠ 1 ∧
       nothingBefore' (Z.to_nat maxRetries)) ∨
      (∃ k, (k < Z.to_nat maxRetries)%nat ∧ nothingBefore' k ∧
            tryRestore k = Throw m)
  end.
Proof.
  induction n as [|n IH]; intros i Hsum Hone Hbefore; simpl.
  - left. split; [done|]. split.
    + intros Hm. specialize (Hone Hm). subst. simpl in Hsum. lia.
    + by replace (Z.to_nat maxRetries) with i by lia.
  - destruct (tryRestore i) as [[|]|e] eqn:Htry; simpl.
    + exists i. split; [lia|done].
    + destruct (Z.eqb_spec maxRetries 1) as [Hm|Hm]; simpl.
      * split; [done|]. by rewrite (Hone Hm) in Htry.
      * apply IH; [lia|done|].
        intros j Hj. destruct (decide (j = i)) as [->|]; [done|].
        apply Hbefore. lia.
    + right. exists i. split; [lia|done].
Qed.

Lemma restoreFrom_counts (n : nat) : ∀ i,
  (attempts (restoreFrom' n i) <= n)%nat ∧
  sleeps (restoreFrom' n i)
  = if (0 <? i)%nat then attempts (restoreFrom' n i)
    else (attempts (restoreFrom' n i) - 1)%nat.
Proof.
  induction n as [|n IH]; intros i; simpl.
  - by destruct (0 <? i)%nat.
  - destruct (tryRestore i) as [[|]|e]; simpl.
    + split; [lia|]. by destruct (0 <? i)%nat.
    + destruct (maxRetries =? 1)%Z; simpl.
      * split; [lia|]. by destruct (0 <? i)%nat.
      * destruct (IH (S i)) as [Hle Hsleeps]. simpl in Hsleeps.
        split; [lia|]. rewrite Hsleeps. destruct (0 <? i)%nat; lia.
    + split; [lia|]. by destruct (0 <? i)%nat.
Qed.

Lemma decisive_unique (k k' : nat) :
  nothingBefore' k → nothingBefore' k' →
  tryRestore k ≠ Ok false → tryRestore k' ≠ Ok false → k = k'.
Proof.
  intros Hk Hk' Hne Hne'.
  destruct (lt_eq_lt_dec k k') as [[Hlt|Heq]|Hgt]; [|done|].
  - by specialize (Hk' k Hlt).
  - by specialize (Hk k' Hgt).
Qed.

(** X19.  How [restoreReplica] ends, for an integer [maxRetries].  It
    returns with the replica restored exactly when one of the first
    [maxRetries] attempts finds it and all attempts before that one found
    nothing.  It returns without a replica only when [maxRetries] is 1 and
    the single attempt finds nothing.  It throws 'max attempts exceeded'
    when [maxRetries] is not 1 and none of the first [maxRetries] attempts
    finds the replica (at once, without any attempt, when [maxRetries] is 0
    or negative), and it throws the rejection of the first attempt whose
    litestream process fails.  It makes at most [maxRetries] attempts and
    sleeps once between two attempts. *)
Theorem restoreReplica_outcomes :
  (outcome restoreReplica' = Restored ↔
   ∃ k, Z.of_nat k < maxRetries ∧ nothingBefore' k ∧ tryRestore k = Ok true) ∧
  (outcome restoreReplica' = NoBackupFound ↔
   maxRetries = 1 ∧ tryRestore 0%nat = Ok false) ∧
  (∀ m, outcome restoreReplica' = Failed m ↔
     (m = MAX_ATTEMPTS_EXCEEDED ∧ maxRetries ≠ 1 ∧
      ∀ k, Z.of_nat k < maxRetries → tryRestore k = Ok false) ∨
     (∃ k, Z.of_nat k < maxRetries ∧ nothingBefore' k ∧ tryRestore k = Throw m)) ∧
  (Z.of_nat (attempts restoreReplica') <= Z.max 0 maxRetries) ∧
  sleeps restoreReplica' = (attempts restoreReplica' - 1)%nat.
Proof.
  pose proof (restoreFrom_sound (Z.to_nat maxRetries) 0 eq_refl (fun _ => eq_refl)
                ltac:(intros j Hj; lia)) as Hsound.
  destruct (restoreFrom_counts (Z.to_nat maxRetries) 0) as [Hattempts Hsleeps].
  fold restoreReplica' in Hsound, Hattempts, Hsleeps.
  assert (∀ k, (k < Z.to_nat maxRetries)%nat ↔ Z.of_nat k < maxRetries) as Hlt
    by (intros k; lia).
  assert (∀ k, nothingBefore' k → (k < Z.to_nat maxRetries)%nat →
               tryRestore k ≠ Ok false →
               ¬ nothingBefore' (Z.to_nat maxRetries)) as Hnot.
  { intros k _ Hk Hne Hall. by specialize (Hall k Hk). }
  split; [|split; [|split; [|split; [lia|done]]]].
  - split.
    + intros Ho. rewrite Ho in Hsound. destruct Hsound as (k & Hk & Hrest).
      exists k. by rewrite <- Hlt.
    + intros (k & Hk & Hbefore & Hfound). apply Hlt in Hk.
      destruct (outcome restoreReplica') as [| |m]; [done| |].
      * destruct Hsound as [Hm Hzero]. assert (k = 0%nat) as -> by lia. congruence.
      * destruct Hsound as [(_ & _ & Hall)|(k' & Hk' & Hbefore' & Hthrow)].
        -- exfalso. apply (Hnot k); [done|done|congruence|done].
        -- assert (k = k') as -> by (apply decisive_unique; (done || congruence)).
           congruence.
  - split.
    + intros Ho. by rewrite Ho in Hsound.
    + intros [Hm Hzero].
      destruct (outcome restoreReplica') as [| |m]; [|done|].
      * destruct Hsound as (k & Hk & _ & Hfound).
        assert (k = 0%nat) as -> by lia. congruence.
      * destruct Hsound as [(_ & Hne & _)|(k & Hk & _ & Hthrow)]; [done|].
        assert (k = 0%nat) as -> by lia. congruence.
  - intros m. split.
    + intros Ho. rewrite Ho in Hsound.
      destruct Hsound as [(-> & Hne & Hall)|(k & Hk & Hrest)].
      * left. split; [done|]. split; [done|]. intros k Hk. apply Hall. lia.
      * right. exists k. by rewrite <- Hlt.
    + intros Hcase.
      destruct (outcome restoreReplica') as [| |m'].
      * destruct Hsound as (k & Hk & Hbefore & Hfound). exfalso.
        destruct Hcase as [(_ & _ & Hall)|(k' & Hk' & Hbefore' & Hthrow)].
        -- apply Hlt in Hk. specialize (Hall k Hk). congruence.
        -- assert (k = k') as -> by (apply decisive_unique; (done || congruence)).
           congruence.
      * destruct Hsound as [Hm Hzero]. exfalso.
        destruct Hcase as [(_ & Hne & _)|(k' & Hk' & _ & Hthrow)]; [done|].
        assert (k' = 0%nat) as -> by lia. congruence.
      * f_equal.
        destruct Hsound as [(-> & _ & Hall)|(k & Hk & Hbefore & Hthrow)];
          destruct Hcase as [(-> & _ & Hall')|(k' & Hk' & Hbefore' & Hthrow')].
        -- done.
        -- exfalso. apply Hlt in Hk'. specialize (Hall k' Hk'). congruence.
        -- exfalso. apply Hlt in Hk. specialize (Hall' k Hk). congruence.
        -- assert (k = k') as -> by (apply decisive_unique; (done || congruence)).
           congruence.
Qed.

End LitestreamProperties.

(** ** context.ts: from entity keys to the sources of [ZeroContext] *)

Lemma prefix_empty (s : string) : String.prefix "" s = true.
Proof. by destruct s. Qed.

Lemma index_0_String (search : string) (c : ascii) (s : string) :
  String.index 0 search (String c s)
  = if String.prefix search (String c s) then Some 0%nat
    else match String.index 0 search s with
         | Some n => Some (S n)
         | None => None
         end.
Proof. done. Qed.

Lemma index_S_String (n : nat) (search : string) (c : ascii) (s : string) :
  String.index (S n) search (String c s)
  = match String.index n search s with
    | Some m => Some (S m)
    | None => None
    end.
Proof. done. Qed.

Lemma index_slash_after (t rest : string) :
  Keys.includesSlash t = false →
  String.index 0 "/" (t +:+ "/" +:+ rest) = Some (String.length t).
Proof.
  induction t as [|a t IH]; intros Hslash.
  - change ("" +:+ "/" +:+ rest) with (String "/"%char rest).
    rewrite index_0_String.
    by rewrite (proj2 (prefix_String "/" "/" "" rest) (conj eq_refl (prefix_empty rest))).
  - apply includesSlash_String in Hslash as [Ha Hslash].
    change (String a t +:+ "/" +:+ rest) with (String a (t +:+ "/" +:+ rest)).
    rewrite index_0_String, (IH Hslash).
    destruct (String.prefix "/" (String a (t +:+ "/" +:+ rest))) eqn:Hprefix; [|done].
    apply prefix_String in Hprefix as [<- _]. done.
Qed.

Lemma substring_app_l (t rest : string) :
  substring 0 (String.length t) (t +:+ rest) = t.
Proof. apply prefix_correct, prefix_app. Qed.

Lemma string_length_app (a b : string) :
  String.length (a +:+ b) = (String.length a + String.length b)%nat.
Proof.
  induction a as [|x a IH]; [done|].
  change (String x a +:+ b) with (String x (a +:+ b)). simpl. by rewrite IH.
Qed.

Lemma tableNameOfKey_entity (tableName idSegment : string) :
  Keys.includesSlash tableName = false →
  Context.tableNameOfKey (Keys.ENTITIES_KEY_PREFIX +:+ tableName +:+ "/" +:+ idSegment)
  = tableName.
Proof.
  intros Hslash. unfold Context.tableNameOfKey, Context.String_indexOf.
  change (Keys.ENTITIES_KEY_PREFIX +:+ tableName +:+ "/" +:+ idSegment)
    with (String "e" (String "/" (tableName +:+ "/" +:+ idSegment))).
  change (String.length Keys.ENTITIES_KEY_PREFIX) with 2%nat.
  rewrite !index_S_String, (index_slash_after _ _ Hslash).
  unfold Context.String_slice.
  change (String.length (String "e" (String "/" (tableName +:+ "/" +:+ idSegment))))
    with (S (S (String.length (tableName +:+ "/" +:+ idSegment)))).
  rewrite string_length_app.
  set (n := String.length tableName).
  set (m := String.length ("/" +:+ idSegment)).
  replace (Z.of_nat 2 <? 0)%Z with false by (symmetry; apply Z.ltb_ge; lia).
  replace (Z.of_nat (S (S n)) <? 0)%Z with false by (symmetry; apply Z.ltb_ge; lia).
  replace (Z.to_nat (Z.min (Z.of_nat 2) (Z.of_nat (S (S (n + m)))))) with 2%nat by lia.
  replace (Z.to_nat
             (Z.max
                (Z.min (Z.of_nat (S (S n))) (Z.of_nat (S (S (n + m))))
                 - Z.min (Z.of_nat 2) (Z.of_nat (S (S (n + m))))) 0))
    with n by lia.
  change (substring 2 n (String "e" (String "/" (tableName +:+ "/" +:+ idSegment))))
    with (substring 0 n (tableName +:+ "/" +:+ idSegment)).
  apply substring_app_l.
Qed.

Section ContextProperties.
Import Keys Context.

Context {number : Type}.
Variable Number_toString : number → string.
Variable JSON_stringify_number : number → string.
Variable h128 : string → string.

Local Abbreviation toPrimaryKeyString' :=
  (toPrimaryKeyString Number_toString JSON_stringify_number h128).

(** X20.  Round trip between keys.ts and [processChanges]: for a table name
    without ['/'], the table name that [processChanges] reads from a key made
    by [toPrimaryKeyString] is the table name the key was made for,
    whatever the primary key and the row. *)
Theorem tableNameOfKey_toPrimaryKeyString
    (tableName : string) (primaryKey : list string)
    (value : gmap string (Value number)) (key : string) :
  includesSlash tableName = false →
  toPrimaryKeyString' tableName primaryKey value = Ok key →
  String.prefix ENTITIES_KEY_PREFIX key = true ∧ tableNameOfKey key = tableName.
Proof.
  intros Hslash Hkey.
  assert (∃ idSegment, key = ENTITIES_KEY_PREFIX +:+ tableName +:+ "/" +:+ idSegment)
    as [idSegment ->].
  { destruct primaryKey as [|k [|k' ks]]; unfold toPrimaryKeyString in Hkey.
    - simpl in Hkey. injection Hkey as <-. by eexists.
    - destruct (parsePrimaryKeyValue k (value !! k)); simpl in Hkey; [|done].
      injection Hkey as <-. by eexists.
    - destruct (mapM _ (k :: k' :: ks)); simpl in Hkey; [|done].
      injection Hkey as <-. by eexists. }
  split; [apply (prefix_app ENTITIES_KEY_PREFIX)|].
  by apply tableNameOfKey_entity.
Qed.

End ContextProperties.

Lemma tableNameOfKey_toPrimaryKeyString_witness :
  Context.tableNameOfKey "e/issues/#[7,8]" = "issues".
Proof.
  refine (proj2 (tableNameOfKey_toPrimaryKeyString pretty pretty Samples.hash
                   "issues" ["org"; "id"]
                   ({[ "id" := Keys.VNumber 8%Z; "org" := Keys.VNumber 7%Z ]}
                    : gmap string (Keys.Value Z))
                   "e/issues/#[7,8]" eq_refl _)).
  vm_compute. reflexivity.
Defined.

Section ZeroContextProperties.
Import Keys Context.

Context {JSONValue : Type}.
Variable isObject : JSONValue → bool.

Local Abbreviation ZeroContext' := (ZeroContext (JSONValue:=JSONValue)).
Local Abbreviation Diff' := (Diff (JSONValue:=JSONValue)).
Local Abbreviation Change := (SourceChange (JSONValue:=JSONValue)).
Local Abbreviation applyDiff' := (applyDiff isObject).
Local Abbreviation applyViewUpdates' := (applyViewUpdates isObject).
Local Abbreviation processChanges' := (processChanges isObject).
Local Abbreviation wellFormed' := (wellFormed isObject).

Lemma FedWith_refl (ctx : ZeroContext') :
  cacheConsistent ctx → FedWith (fun _ => []) ctx ctx.
Proof. intros Hc. split; [done..|]. intros name. by rewrite app_nil_r. Qed.

Lemma FedWith_trans (p q : string → list Change) (a b c : ZeroContext') :
  FedWith p a b → FedWith q b c → FedWith (fun name => p name ++ q name) a c.
Proof.
  intros [? Ht Hb Hl Hc Hlogs] [? Ht' Hb' Hl' Hc' Hlogs'].
  split; [done|congruence|congruence|congruence|congruence|].
  intros name. by rewrite Hlogs', Hlogs, app_assoc.
Qed.

Lemma FedWith_ext (p q : string → list Change) (a b : ZeroContext') :
  (∀ name, p name = q name) → FedWith p a b → FedWith q a b.
Proof.
  intros Hpq [? ? ? ? ? Hlogs]. split; [done..|].
  intros name. by rewrite Hlogs, Hpq.
Qed.

Lemma getSource_fed (name : string) (ctx : ZeroContext') :
  cacheConsistent ctx →
  FedWith (fun _ => []) ctx (getSource name ctx).1 ∧
  (getSource name ctx).2 = bool_decide (is_Some (tables ctx !! name)) ∧
  ((getSource name ctx).2 = true →
   ∃ log, sources (getSource name ctx).1 !! name = Some (Some log)).
Proof.
  intros Hc. unfold getSource.
  destruct (sources ctx !! name) as [source|] eqn:Hsource; simpl.
  - split; [by apply FedWith_refl|]. split.
    + apply bool_decide_ext. by apply Hc.
    + intros Hsome. apply bool_decide_eq_true in Hsome as [log ->]. by exists log.
  - split; [split; simpl; try done|split].
    + intros n s. simpl. destruct (decide (name = n)) as [<-|Hne].
      * rewrite lookup_insert_eq. intros [= <-].
        destruct (tables ctx !! name); split; intros [? ?]; done.
      * rewrite lookup_insert_ne by done. apply Hc.
    + intros n. rewrite app_nil_r. unfold sourceLog. simpl.
      destruct (decide (name = n)) as [<-|Hne].
      * rewrite lookup_insert_eq, Hsource. by destruct (tables ctx !! name).
      * by rewrite lookup_insert_ne.
    + apply bool_decide_ext. destruct (tables ctx !! name); split; intros [? ?]; done.
    + intros Hsome. apply bool_decide_eq_true in Hsome as [log Hlog].
      exists log. by rewrite lookup_insert_eq, Hlog.
Qed.

Lemma push_fed (name : string) (change : Change) (ctx : ZeroContext') log :
  cacheConsistent ctx →
  sources ctx !! name = Some (Some log) →
  FedWith (fun n => if bool_decide (n = name) then [change] else [])
    ctx (push name change ctx).
Proof.
  intros Hc Hlog. split; simpl; try done.
  - intros n s. simpl. destruct (decide (name = n)) as [<-|Hne].
    + rewrite lookup_alter_eq, Hlog. simpl. intros [= <-].
      rewrite <- (Hc name (Some log) Hlog). split; intros _; by eexists.
    + rewrite lookup_alter_ne by done. apply Hc.
  - intros n. unfold sourceLog. simpl. case_bool_decide as Hn.
    + subst n. by rewrite lookup_alter_eq, Hlog.
    + rewrite lookup_alter_ne by done. by rewrite app_nil_r.
Qed.

Lemma changesFor_single (name : string) (diff : Diff') :
  changesFor name [diff]
  = if bool_decide (tableNameOfKey (diffKey diff) = name) then [changeOf diff] else [].
Proof.
  unfold changesFor. rewrite filter_cons, filter_nil.
  case_bool_decide; by case_decide.
Qed.

Lemma changesFor_cons (name : string) (diff : Diff') (rest : list Diff') :
  changesFor name (diff :: rest) = changesFor name [diff] ++ changesFor name rest.
Proof.
  unfold changesFor. rewrite <- fmap_app. f_equal.
  change (diff :: rest) with ([diff] ++ rest). by rewrite filter_app.
Qed.

Lemma applyDiff_fed (diff : Diff') (ctx : ZeroContext') :
  cacheConsistent ctx → wellFormed' diff →
  (applyDiff' diff ctx).2 = true ∧
  FedWith (pushedBy [diff] ctx) ctx (applyDiff' diff ctx).1.
Proof.
  intros Hc [Hprefix Hvalues]. unfold applyDiff. rewrite Hprefix. simpl.
  destruct (getSource_fed (tableNameOfKey (diffKey diff)) ctx Hc)
    as (Hfed & Hhas & Hsource).
  destruct (getSource (tableNameOfKey (diffKey diff)) ctx) as [ctx1 has].
  simpl in *.
  assert (∀ name, has = false → [] = pushedBy [diff] ctx name) as Hskip.
  { intros name ->. unfold pushedBy. rewrite changesFor_single.
    symmetry in Hhas. apply bool_decide_eq_false in Hhas.
    repeat case_bool_decide; try done. by subst name. }
  assert (∀ name, has = true →
            (if bool_decide (name = tableNameOfKey (diffKey diff))
             then [changeOf diff] else [])
            = pushedBy [diff] ctx name) as Hpush.
  { intros name ->. unfold pushedBy. rewrite changesFor_single.
    symmetry in Hhas. apply bool_decide_eq_true in Hhas.
    repeat case_bool_decide; try done; by subst name. }
  destruct has; simpl.
  - destruct (Hsource eq_refl) as [log Hlog].
    assert (∀ change, changeOf diff = change →
              FedWith (pushedBy [diff] ctx) ctx
                (push (tableNameOfKey (diffKey diff)) change ctx1)) as Hdone.
    { intros change <-.
      eapply FedWith_ext;
        [|exact (FedWith_trans _ _ _ _ _ Hfed
                   (push_fed _ (changeOf diff) ctx1 log (fed_consistent _ _ _ Hfed) Hlog))].
      intros name. simpl. by apply Hpush. }
    destruct diff as [key newValue|key oldValue|key oldValue newValue]; simpl in *.
    + rewrite Hvalues. simpl. split; [done|]. by apply Hdone.
    + rewrite Hvalues. simpl. split; [done|]. by apply Hdone.
    + destruct Hvalues as [-> ->]. simpl. split; [done|]. by apply Hdone.
  - split; [done|]. eapply FedWith_ext; [|exact Hfed].
    intros name. by apply Hskip.
Qed.

Lemma applyViewUpdates_fed (changes : list Diff') : ∀ ctx : ZeroContext',
  cacheConsistent ctx → Forall wellFormed' changes →
  (applyViewUpdates' changes ctx).2 = true ∧
  FedWith (pushedBy changes ctx) ctx (applyViewUpdates' changes ctx).1.
Proof.
  induction changes as [|diff rest IH]; intros ctx Hc Hall.
  - split; [done|]. eapply FedWith_ext; [|by apply FedWith_refl].
    intros name. unfold pushedBy. by case_bool_decide.
  - apply Forall_cons in Hall as [Hdiff Hall]. simpl.
    destruct (applyDiff_fed diff ctx Hc Hdiff) as [Hheld Hfed].
    destruct (applyDiff' diff ctx) as [ctx1 held]. simpl in *. subst held.
    destruct (IH ctx1 (fed_consistent _ _ _ Hfed) Hall) as [Hheld' Hfed'].
    split; [done|].
    eapply FedWith_ext; [|exact (FedWith_trans _ _ _ _ _ Hfed Hfed')].
    intros name. simpl. unfold pushedBy.
    rewrite (fed_tables _ _ _ Hfed), (changesFor_cons name diff rest).
    by case_bool_decide.
Qed.

(** X21.  [processChanges] feeds each source with the diffs of its table.
    For a context whose cache of sources agrees with the schema, a batching
    function that runs its callback, and diffs that all have a key under
    ["e/"] and object values: the call returns normally; the source of every
    table of the schema has received, after what it held and in the order of
    the diffs, a [remove] for each [del], an [add] for each [add] and an
    [edit] for each [change] keyed under that table, and nothing else; diffs
    of tables that are not in the schema are skipped. *)
Theorem processChanges_feeds_each_source
    (changes : list Diff') (ctx : ZeroContext') :
  cacheConsistent ctx →
  batchViewUpdatesApplies ctx = true →
  Forall wellFormed' changes →
  (processChanges' changes ctx).2 = true ∧
  cacheConsistent (processChanges' changes ctx).1 ∧
  ∀ name,
    sourceLog (processChanges' changes ctx).1 name
    = sourceLog ctx name
      ++ (if bool_decide (is_Some (tables ctx !! name))
          then changesFor name changes else []).
Proof.
  intros Hc Hbatch Hall. unfold processChanges, batchViewUpdates. rewrite Hbatch.
  destruct (applyViewUpdates_fed changes ctx Hc Hall) as [Hheld Hfed].
  destruct (applyViewUpdates' changes ctx) as [ctx1 held]. simpl in *.
  split; [done|]. split.
  - exact (fed_consistent _ _ _ Hfed).
  - intros name. exact (fed_logs _ _ _ Hfed name).
Qed.

Lemma applyDiff_listeners (diff : Diff') (ctx : ZeroContext') :
  commitListeners (applyDiff' diff ctx).1 = commitListeners ctx ∧
  listenerCalls (applyDiff' diff ctx).1 = listenerCalls ctx.
Proof.
  unfold applyDiff, getSource.
  destruct (negb _); [done|].
  destruct (sources ctx !! _) as [source|]; simpl.
  - destruct (bool_decide _); simpl; [|done].
    destruct diff; simpl; repeat (destruct (isObject _); simpl); done.
  - destruct (bool_decide _); simpl; [|done].
    destruct diff; simpl; repeat (destruct (isObject _); simpl); done.
Qed.

Lemma applyViewUpdates_listeners (changes : list Diff') : ∀ ctx : ZeroContext',
  commitListeners (applyViewUpdates' changes ctx).1 = commitListeners ctx ∧
  listenerCalls (applyViewUpdates' changes ctx).1 = listenerCalls ctx.
Proof.
  induction changes as [|diff rest IH]; intros ctx; [done|]. simpl.
  destruct (applyDiff_listeners diff ctx) as [Hl Hc].
  destruct (applyDiff' diff ctx) as [ctx1 held]. simpl in *.
  destruct held; [|done]. destruct (IH ctx1) as [Hl' Hc']. split; congruence.
Qed.

Lemma applyViewUpdates_app (good rest : list Diff') : ∀ ctx : ZeroContext',
  applyViewUpdates' (good ++ rest) ctx
  = if (applyViewUpdates' good ctx).2
    then applyViewUpdates' rest (applyViewUpdates' good ctx).1
    else ((applyViewUpdates' good ctx).1, false).
Proof.
  induction good as [|diff good IH]; intros ctx; [done|]. simpl.
  destruct (applyDiff' diff ctx) as [ctx1 held]. destruct held; [apply IH|done].
Qed.

(** X22.  The transaction always ends.  Whatever the diffs,
    [processChanges] calls every registered commit listener exactly once, in
    registration order, also when an assertion fails or the batching
    function does not run its callback.  When a diff has a key outside
    ["e/"], the call throws at that diff: the sources hold what the diffs
    before it pushed and nothing of the diffs after it. *)
Theorem processChanges_always_ends_transaction
    (changes : list Diff') (ctx : ZeroContext') :
  listenerCalls (processChanges' changes ctx).1
  = listenerCalls ctx ++ commitListeners ctx ∧
  commitListeners (processChanges' changes ctx).1 = commitListeners ctx ∧
  (∀ good bad rest,
     changes = good ++ bad :: rest →
     cacheConsistent ctx →
     batchViewUpdatesApplies ctx = true →
     Forall wellFormed' good →
     String.prefix ENTITIES_KEY_PREFIX (diffKey bad) = false →
     (processChanges' changes ctx).2 = false ∧
     sources (processChanges' changes ctx).1 = sources (processChanges' good ctx).1).
Proof.
  split; [|split].
  - unfold processChanges, batchViewUpdates.
    destruct (batchViewUpdatesApplies ctx); [|done].
    destruct (applyViewUpdates_listeners changes ctx) as [Hl Hc].
    destruct (applyViewUpdates' changes ctx) as [ctx1 held]. simpl in *.
    by rewrite Hl, Hc.
  - unfold processChanges, batchViewUpdates.
    destruct (batchViewUpdatesApplies ctx); [|done].
    destruct (applyViewUpdates_listeners changes ctx) as [Hl Hc].
    by destruct (applyViewUpdates' changes ctx) as [ctx1 held].
  - intros good bad rest -> Hc Hbatch Hgood Hbad.
    unfold processChanges, batchViewUpdates. rewrite Hbatch.
    rewrite applyViewUpdates_app.
    destruct (applyViewUpdates_fed good ctx Hc Hgood) as [Hheld _].
    destruct (applyViewUpdates' good ctx) as [ctx1 held]. simpl in *. subst held.
    unfold applyDiff. by rewrite Hbad.
Qed.

End ZeroContextProperties.

Section ZeroContextSamples.
Import Context.

(** A context over the schema with the single table [issues], two commit
    listeners and no source created yet; JSON values are kept as text, the
    objects being the texts that start with a brace. *)
Local Abbreviation freshContext :=
  ({| sources := ∅;
      tables := {[ "issues" := {| Pokes.primaryKey := ["id"] |} ]};
      batchViewUpdatesApplies := true;
      commitListeners := [1; 2]%nat;
      listenerCalls := [] |} : ZeroContext (JSONValue:=string)).

Local Abbreviation someDiffs :=
  ([DiffAdd "e/issues/a" "{a}";
    DiffDel "e/comments/c" "{c}";
    DiffChange "e/issues/a" "{a}" "{a2}"] : list (Diff (JSONValue:=string))).

Lemma processChanges_feeds_each_source_witness :
  (processChanges (String.prefix "{") someDiffs freshContext).2 = true ∧
  sourceLog (processChanges (String.prefix "{") someDiffs freshContext).1 "issues"
  = [] ++ [AddChange "{a}"; EditChange "{a2}" "{a}"] ∧
  sourceLog (processChanges (String.prefix "{") someDiffs freshContext).1 "comments"
  = [] ++ [].
Proof.
  assert (cacheConsistent freshContext) as Hc.
  { intros name source Hsource. simpl in Hsource.
    rewrite lookup_empty in Hsource. discriminate. }
  assert (Forall (wellFormed (String.prefix "{")) someDiffs) as Hall.
  { repeat constructor. }
  destruct (processChanges_feeds_each_source (String.prefix "{") someDiffs
              freshContext Hc eq_refl Hall) as (Hreturned & _ & Hlogs).
  split; [exact Hreturned|]. split; [exact (Hlogs "issues")|exact (Hlogs "comments")].
Defined.

Lemma processChanges_always_ends_transaction_witness :
  (processChanges (String.prefix "{")
     ([DiffAdd "e/issues/a" "{a}"] ++ DiffAdd "c/c1" "true" :: [DiffDel "e/issues/a" "{a}"])
     freshContext).2 = false ∧
  listenerCalls
    (processChanges (String.prefix "{")
       ([DiffAdd "e/issues/a" "{a}"] ++ DiffAdd "c/c1" "true" :: [DiffDel "e/issues/a" "{a}"])
       freshContext).1
  = [] ++ [1; 2]%nat.
Proof.
  assert (cacheConsistent freshContext) as Hc.
  { intros name source Hsource. simpl in Hsource.
    rewrite lookup_empty in Hsource. discriminate. }
  destruct (processChanges_always_ends_transaction (String.prefix "{")
              ([DiffAdd "e/issues/a" "{a}"] ++ DiffAdd "c/c1" "true"
                 :: [DiffDel "e/issues/a" "{a}"])
              freshContext) as (Hcalls & _ & Hthrows).
  destruct (Hthrows [DiffAdd "e/issues/a" "{a}"] (DiffAdd "c/c1" "true")
              [DiffDel "e/issues/a" "{a}"] eq_refl Hc eq_refl
              ltac:(repeat constructor) eq_refl) as [Hreturned _].
  split; [exact Hreturned | exact Hcalls].
Defined.

End ZeroContextSamples.

Lemma handleConnection_touches_only_its_sockets_witness :
  Connect.theSocket
    (Connect.sockets (Connect.handleConnection Samples.parseDecimal
       Samples.plainUserID "x-user-data" 2%nat Samples.connectURL
       Samples.connectHeaders Samples.staleRoom)) 1%nat
  = Connect.theSocket (Connect.sockets Samples.staleRoom) 1%nat.
Proof.
  destruct (handleConnection_touches_only_its_sockets Samples.parseDecimal
              Samples.plainUserID "x-user-data" 2%nat Samples.connectURL
              Samples.connectHeaders Samples.staleRoom 1%nat ltac:(discriminate))
    as [Hsame|(req & existing & _ & Hexisting & _)].
  - exact Hsame.
  - simpl in Hexisting. rewrite lookup_empty in Hexisting. discriminate.
Defined.

Lemma single_column_keys_meet_witness :
  Keys.toPrimaryKeyString pretty pretty Samples.hash "issues" ["id"]
    ({[ "id" := Keys.VString "a" ]} : gmap string (Keys.Value Z))
  ≠ Keys.toPrimaryKeyString pretty pretty Samples.hash "issues" ["id"]
      ({[ "id" := Keys.VString "b" ]} : gmap string (Keys.Value Z)).
Proof.
  refine (proj2 (single_column_keys_meet pretty pretty Samples.hash
                   "issues" "issues" "id" "id"
                   ({[ "id" := Keys.VString "a" ]} : gmap string (Keys.Value Z))
                   ({[ "id" := Keys.VString "b" ]} : gmap string (Keys.Value Z))
                   (Keys.PKString "a") (Keys.PKString "b") eq_refl eq_refl _ _)
                "a" "b" eq_refl eq_refl eq_refl _).
  - vm_compute. reflexivity.
  - vm_compute. reflexivity.
  - discriminate.
Defined.
